(** * A-star path finding on the Samfundet grid maps

    A shallow embedding of [Map.py] (the map helper class [Map_Obj]) and
    of [a_star.py] (the search, its heuristic and its priority queue),
    followed by the properties established about them.

    Python integers are unbounded, so they are [Z].  The cells of the
    integer map are numpy [int64] values: they are [Z] too, with the
    bounds of the type written out where the source converts a Python
    integer to [int64] ([OverflowError] when it does not fit) and where
    it adds two of them (the sum wraps around at [2^63]).  A position is
    a two-element list or tuple of integers; both are modelled by a
    pair.
    The two numpy arrays of a map are lists of rows, indexed the way
    numpy indexes them: an index [i] with [-n <= i < 0] counts from the
    end of the axis, an index outside [-n, n) raises [IndexError]. *)

From stdpp Require Import base numbers list strings pretty.
From Stdlib Require Import ZArith Lia.

Local Open Scope Z_scope.

(** ** Exceptions and results *)

Inductive exn : Type :=
  | IndexError
  | TypeError
  | UnboundLocalError
  | OverflowError.

Inductive result (A : Type) : Type :=
  | Ok (a : A)
  | Raise (e : exn).

Arguments Ok {A} a.
Arguments Raise {A} e.

Definition pos : Type := Z * Z.

(** ** numpy two-dimensional arrays *)

Module Np.

Abbreviation ndarray A := (list (list A)).

Definition shape0 {A} (a : ndarray A) : nat := length a.

Definition shape1 {A} (a : ndarray A) : nat :=
  match a with
  | [] => 0%nat
  | row :: _ => length row
  end.

(** Every array built by numpy is rectangular. *)
Definition rectangular {A} (a : ndarray A) : Prop :=
  Forall (fun row => length row = shape1 a) a.

(** Index normalisation along an axis of size [n]. *)
Definition norm_index (n : nat) (i : Z) : option nat :=
  if (i <? - Z.of_nat n) || (Z.of_nat n <=? i) then None
  else Some (Z.to_nat (if i <? 0 then i + Z.of_nat n else i)).

(** [a[i, j]] *)
Definition getitem {A} (a : ndarray A) (i j : Z) : result A :=
  match norm_index (shape0 a) i, norm_index (shape1 a) j with
  | Some i', Some j' =>
      match a !! i' with
      | Some row =>
          match row !! j' with
          | Some v => Ok v
          | None => Raise IndexError
          end
      | None => Raise IndexError
      end
  | _, _ => Raise IndexError
  end.

(** [a[i, j] = v], also written [a[i][j] = v] in the source. *)
Definition setitem {A} (a : ndarray A) (i j : Z) (v : A)
  : result (ndarray A) :=
  match norm_index (shape0 a) i, norm_index (shape1 a) j with
  | Some i', Some j' =>
      match a !! i' with
      | Some row =>
          if decide (j' < length row)%nat
          then Ok (<[i' := <[j' := v]> row]> a)
          else Raise IndexError
      | None => Raise IndexError
      end
  | _, _ => Raise IndexError
  end.

(** The element type of the string map is [<U21], the strings of at
    most 21 characters: what [astype(str)] gives for [int64].  A longer
    string is cut when it is stored. *)
Definition to_U21 (v : string) : string := String.substring 0 21 v.

(** The values of the element type [int64] of the integer map. *)
Definition int64 (v : Z) : bool := (- 2 ^ 63 <=? v) && (v <? 2 ^ 63).

(** A Python integer converted to [int64]: when it is stored into an
    [int64] array, and when it is an operand of an [int64] scalar. *)
Definition to_int64 (v : Z) : result Z :=
  if int64 v then Ok v else Raise OverflowError.

(** Two's complement wrap-around to 64 bits. *)
Definition wrap64 (v : Z) : Z := (v + 2 ^ 63) mod 2 ^ 64 - 2 ^ 63.

(** [a + b] on [int64] scalars: the sum wraps around (numpy warns and
    goes on). *)
Definition add64 (a b : Z) : Z := wrap64 (a + b).

(** [a[i, j] = v] on an [int64] array, [v] a Python integer: the index
    is resolved first, then [v] is converted and stored. *)
Definition setitem_int64 (a : ndarray Z) (i j : Z) (v : Z)
  : result (ndarray Z) :=
  match setitem a i j v with
  | Raise e => Raise e
  | Ok a' =>
      match to_int64 v with
      | Raise e => Raise e
      | Ok _ => Ok a'
      end
  end.

End Np.

(** ** The map object *)

Record Map_Obj : Type := mkMap {
  start_pos : pos;
  goal_pos : pos;
  end_goal_pos : option pos;
  path_to_map : string;
  int_map : Np.ndarray Z;
  str_map : Np.ndarray string;
  tmp_cell_value : Z;
  tick_counter : Z
}.

Definition set_goal_pos (p : pos) (m : Map_Obj) : Map_Obj :=
  mkMap (start_pos m) p (end_goal_pos m) (path_to_map m)
        (int_map m) (str_map m) (tmp_cell_value m) (tick_counter m).

Definition set_int_map (a : Np.ndarray Z) (m : Map_Obj) : Map_Obj :=
  mkMap (start_pos m) (goal_pos m) (end_goal_pos m) (path_to_map m)
        a (str_map m) (tmp_cell_value m) (tick_counter m).

Definition set_str_map (a : Np.ndarray string) (m : Map_Obj) : Map_Obj :=
  mkMap (start_pos m) (goal_pos m) (end_goal_pos m) (path_to_map m)
        (int_map m) a (tmp_cell_value m) (tick_counter m).

Definition set_tmp_cell_value (v : Z) (m : Map_Obj) : Map_Obj :=
  mkMap (start_pos m) (goal_pos m) (end_goal_pos m) (path_to_map m)
        (int_map m) (str_map m) v (tick_counter m).

Definition set_tick_counter (c : Z) (m : Map_Obj) : Map_Obj :=
  mkMap (start_pos m) (goal_pos m) (end_goal_pos m) (path_to_map m)
        (int_map m) (str_map m) (tmp_cell_value m) c.

(** Methods run against the object and may raise; what they changed
    before raising stays changed. *)
Definition M (A : Type) : Type := Map_Obj -> result A * Map_Obj.

Definition ret {A} (a : A) : M A := fun self => (Ok a, self).

Definition bind {A B} (c : M A) (k : A -> M B) : M B :=
  fun self =>
    match c self with
    | (Ok a, self') => k a self'
    | (Raise e, self') => (Raise e, self')
    end.

Definition get_self : M Map_Obj := fun self => (Ok self, self).

Definition modify (f : Map_Obj -> Map_Obj) : M unit :=
  fun self => (Ok tt, f self).

Definition lift {A} (r : result A) : M A := fun self => (r, self).

Declare Scope map_scope.
Delimit Scope map_scope with map.
Notation "x <- c ;; k" := (bind c (fun x => k))
  (at level 100, c at next level, right associativity) : map_scope.
Notation "c ;;; k" := (bind c (fun _ => k))
  (at level 100, right associativity) : map_scope.
Local Open Scope map_scope.

(** [get_cell_value]: the cost stored at [pos]. *)
Definition get_cell_value (self : Map_Obj) (p : pos) : result Z :=
  Np.getitem (int_map self) (fst p) (snd p).

(** [set_cell_value]: writes the string map when [to_str_map] is set
    (the default) and the integer map otherwise; the type of [value]
    follows the array written.  An assignment into the integer map
    resolves the index first and then converts [value] to [int64]; an
    assignment into the string map stores at most 21 characters. *)
Definition set_cell_value (p : pos) (to_str_map : bool)
    (value : if to_str_map then string else Z) : M unit :=
  self <- get_self ;;
  match to_str_map return (if to_str_map then string else Z) -> M unit with
  | true => fun value =>
      a <- lift (Np.setitem (str_map self) (fst p) (snd p)
                   (Np.to_U21 value)) ;;
      modify (set_str_map a)
  | false => fun value =>
      a <- lift (Np.setitem_int64 (int_map self) (fst p) (snd p) value) ;;
      modify (set_int_map a)
  end value.

(** [pick_move]: the next cell of the goal on its way to the end goal. *)
Definition pick_move : M pos :=
  self <- get_self ;;
  match end_goal_pos self with
  | None => lift (Raise TypeError)
  | Some e =>
      let g := goal_pos self in
      if fst g <? fst e then ret (fst g + 1, snd g)
      else if fst e <? fst g then ret (fst g - 1, snd g)
      else if snd g <? snd e then ret (fst g, snd g + 1)
      else ret (fst g, snd g - 1)
  end.

(** The symbol [replace_map_values] writes for a cost. *)
Definition str_value_of (value : Z) : string :=
  if value =? 1 then " . "
  else if value =? 2 then " , "
  else if value =? 3 then " : "
  else if value =? 4 then " ; "
  else pretty value.

(** [replace_map_values]: [value] is the [int64] scalar that
    [move_goal_pos], the only caller, read from the integer map, so
    storing it converts nothing. *)
Definition replace_map_values (p : pos) (value : Z) (goal : pos) : M unit :=
  let str_value := str_value_of value in
  self <- get_self ;;
  a <- lift (Np.setitem (int_map self) (fst p) (snd p) value) ;;
  modify (set_int_map a) ;;;
  self <- get_self ;;
  s <- lift (Np.setitem (str_map self) (fst p) (snd p) str_value) ;;
  modify (set_str_map s) ;;;
  self <- get_self ;;
  s <- lift (Np.setitem (str_map self) (fst goal) (snd goal) " G ") ;;
  modify (set_str_map s).

Definition move_goal_pos (p : pos) : M unit :=
  self <- get_self ;;
  let tmp_val := tmp_cell_value self in
  let tmp_pos := goal_pos self in
  v <- lift (get_cell_value self p) ;;
  modify (set_tmp_cell_value v) ;;;
  modify (set_goal_pos (fst p, snd p)) ;;;
  self <- get_self ;;
  replace_map_values tmp_pos tmp_val (goal_pos self).

(** [tick]: the two early returns leave the method before the counter
    is touched. *)
Definition tick_tail : M pos :=
  modify (fun self => set_tick_counter (tick_counter self + 1) self) ;;;
  self <- get_self ;;
  ret (goal_pos self).

Definition tick : M pos :=
  self <- get_self ;;
  if tick_counter self mod 4 =? 0 then
    match end_goal_pos self with
    | None => ret (goal_pos self)
    | Some e =>
        if bool_decide (e = goal_pos self) then ret (goal_pos self)
        else
          move <- pick_move ;;
          move_goal_pos move ;;;
          tick_tail
    end
  else tick_tail.

(** The constructor, after [fill_critical_positions] has chosen the
    positions and [read_map] has loaded the two arrays. *)
Definition init (start goal : pos) (end_goal : option pos) (path : string)
    (data : Np.ndarray Z) (data_str : Np.ndarray string) : result Map_Obj * Map_Obj :=
  let self0 := mkMap start goal end_goal path data data_str 0 0 in
  (v <- lift (get_cell_value self0 goal) ;;
   modify (set_tmp_cell_value v) ;;;
   set_cell_value start true " S " ;;;
   set_cell_value goal true " G " ;;;
   modify (set_tick_counter 0) ;;;
   get_self) self0.

(** The string array [read_map] derives from the integer array. *)
Definition symbol_of (v : Z) : string :=
  if v =? -1 then " # "
  else if v =? 1 then " . "
  else if v =? 2 then " , "
  else if v =? 3 then " : "
  else if v =? 4 then " ; "
  else pretty v.

Definition data_str_of (data : Np.ndarray Z) : Np.ndarray string :=
  map (map symbol_of) data.

(** ** Search nodes *)

Module Node.

#[local] Unset Elimination Schemes.

(** A node is an object: [id] is its identity, which is what the
    default [==] of a class without [__eq__] compares. *)
Inductive t : Type := mk {
  id : nat;
  position : pos;
  parent : option t;
  actual : Z;
  heuristic : Z;
  total : Z
}.

(** [Node(position, parent)] *)
Definition new (i : nat) (p : pos) (par : option t) : t :=
  mk i p par 0 0 0.

Definition set_actual (v : Z) (n : t) : t :=
  mk (id n) (position n) (parent n) v (heuristic n) (total n).

Definition set_heuristic (v : Z) (n : t) : t :=
  mk (id n) (position n) (parent n) (actual n) v (total n).

Definition set_total (v : Z) (n : t) : t :=
  mk (id n) (position n) (parent n) (actual n) (heuristic n) v.

(** [__lt__] *)
Definition lt (self other : t) : bool := total self <? total other.

(** [x is y] *)
Definition is_ (x y : t) : bool := Nat.eqb (id x) (id y).

End Node.

(** ** The heuristic *)

Definition heuristic (node goal_node : Node.t) (mode : Z) : Z :=
  let x := Z.abs (fst (Node.position node) - fst (Node.position goal_node)) in
  let y := Z.abs (snd (Node.position node) - snd (Node.position goal_node)) in
  if mode =? 1 then x + y
  else x ^ 2 + y ^ 2.

(** ** The priority queue: [heapq] on a Python list *)

Module heapq.
Section heapq.

Context {A : Type} (lt : A -> A -> bool).

(** The loop of [_siftdown]: [newitem] travels towards [startpos]
    while it is smaller than the parent of the free slot [pos]. *)
Fixpoint siftdown_loop (fuel : nat) (heap : list A) (newitem : A)
    (startpos pos : nat) : list A :=
  match fuel with
  | O => <[pos := newitem]> heap
  | S fuel' =>
      if decide (startpos < pos)%nat then
        let parentpos := Nat.div2 (pos - 1) in
        match heap !! parentpos with
        | Some parent =>
            if lt newitem parent
            then siftdown_loop fuel' (<[pos := parent]> heap) newitem
                   startpos parentpos
            else <[pos := newitem]> heap
        | None => <[pos := newitem]> heap
        end
      else <[pos := newitem]> heap
  end.

Definition siftdown (heap : list A) (startpos pos : nat) : list A :=
  match heap !! pos with
  | Some newitem => siftdown_loop pos heap newitem startpos pos
  | None => heap
  end.

(** The loop of [_siftup]: the smaller child moves up into the free
    slot until the slot is a leaf.  Returns the list and the leaf. *)
Fixpoint siftup_loop (fuel : nat) (heap : list A) (pos : nat)
    : list A * nat :=
  match fuel with
  | O => (heap, pos)
  | S fuel' =>
      let endpos := length heap in
      let childpos := (2 * pos + 1)%nat in
      if decide (childpos < endpos)%nat then
        let rightpos := (childpos + 1)%nat in
        let right_not_larger :=
          match heap !! childpos, heap !! rightpos with
          | Some l, Some r => negb (lt l r)
          | _, _ => false
          end in
        let childpos :=
          if bool_decide (rightpos < endpos)%nat && right_not_larger
          then rightpos else childpos in
        match heap !! childpos with
        | Some c => siftup_loop fuel' (<[pos := c]> heap) childpos
        | None => (heap, pos)
        end
      else (heap, pos)
  end.

Definition siftup (heap : list A) (pos : nat) : list A :=
  let startpos := pos in
  match heap !! pos with
  | Some newitem =>
      let '(heap, pos) := siftup_loop (length heap) heap pos in
      siftdown (<[pos := newitem]> heap) startpos pos
  | None => heap
  end.

Definition heappush (heap : list A) (item : A) : list A :=
  let heap := heap ++ [item] in
  siftdown heap 0 (length heap - 1).

Definition heappop (heap : list A) : result (A * list A) :=
  match last heap with
  | None => Raise IndexError
  | Some lastelt =>
      let heap := removelast heap in
      match heap with
      | [] => Ok (lastelt, heap)
      | returnitem :: _ =>
          Ok (returnitem, siftup (<[0%nat := lastelt]> heap) 0)
      end
  end.

End heapq.
End heapq.

(** ** The search *)

Inductive search_result : Type :=
  | Path (path : list pos)      (* a list of coordinates was returned *)
  | NoPath                      (* [None] was returned *)
  | Error (e : exn)             (* an exception left the function *)
  | OutOfFuel.                    (* the loop was cut off by its fuel *)

(** [path_to_goal]: walk the parent links, then reverse. *)
Fixpoint path_to_goal_loop (node : Node.t) (path : list pos) : list pos :=
  match node with
  | Node.mk _ position parent _ _ _ =>
      let path := path ++ [position] in
      match parent with
      | None => path
      | Some node => path_to_goal_loop node path
      end
  end.

Definition path_to_goal (node : Node.t) : list pos :=
  reverse (path_to_goal_loop node []).

(** [add_costs]: [child_position] is the argument the caller passes,
    not the position of [child].  The cell value is an [int64] scalar,
    and so is every sum with it: the actual cost wraps around at
    [2^63].  The heuristic is a Python integer; adding it to the actual
    cost converts it to [int64] first, as numpy does since version 2
    (older versions went over to a wider type instead of raising). *)
Definition add_costs (map : Map_Obj) (child : Node.t) (child_position : pos)
    (current_node goal_node : Node.t) (heuristic_mode : Z) : result Node.t :=
  match get_cell_value map child_position with
  | Raise e => Raise e
  | Ok v =>
      let child :=
        Node.set_actual (Np.add64 (Node.actual current_node) v) child in
      let child :=
        Node.set_heuristic (heuristic child goal_node heuristic_mode) child in
      match Np.to_int64 (Node.heuristic child) with
      | Raise e => Raise e
      | Ok h => Ok (Node.set_total (Np.add64 (Node.actual child) h) child)
      end
  end.

Definition directions : list (Z * Z) := [(0, 1); (1, 0); (0, -1); (-1, 0)].

(** The first [for] loop of an expansion.  [child_position] is a local
    variable of [a_star]: it is assigned at the top of every iteration
    and keeps its last value when the loop is over. *)
Fixpoint gen_children (map : Map_Obj) (current_node : Node.t)
    (dirs : list (Z * Z)) (children : list Node.t)
    (child_position : option pos) (next_id : nat)
    : result (list Node.t * option pos * nat) :=
  match dirs with
  | [] => Ok (children, child_position, next_id)
  | (dx, dy) :: dirs =>
      let child_position :=
        (fst (Node.position current_node) + dy,
         snd (Node.position current_node) + dx) in
      match get_cell_value map child_position with
      | Raise e => Raise e
      | Ok v =>
          if v =? -1 then
            gen_children map current_node dirs children
              (Some child_position) next_id
          else
            let child_node :=
              Node.new next_id child_position (Some current_node) in
            gen_children map current_node dirs (children ++ [child_node])
              (Some child_position) (S next_id)
      end
  end.

(** The second [for] loop of an expansion. *)
Fixpoint push_children (map : Map_Obj) (children : list Node.t)
    (child_position : option pos) (current_node goal_node : Node.t)
    (heuristic_mode : Z) (closed_list : list pos) (open_list : list Node.t)
    : result (list Node.t) :=
  match children with
  | [] => Ok open_list
  | child :: children =>
      if bool_decide (Node.position child ∈ closed_list) then
        push_children map children child_position current_node goal_node
          heuristic_mode closed_list open_list
      else
        match child_position with
        | None => Raise UnboundLocalError
        | Some cp =>
            match add_costs map child cp current_node goal_node
                    heuristic_mode with
            | Raise e => Raise e
            | Ok child =>
                let open_list :=
                  if negb (existsb (fun n => Node.is_ n child) open_list)
                  then heapq.heappush Node.lt open_list child
                  else open_list in
                push_children map children child_position current_node
                  goal_node heuristic_mode closed_list open_list
            end
        end
  end.

(** The [while] loop; [fuel] bounds the number of iterations. *)
Fixpoint a_star_loop (fuel : nat) (map : Map_Obj) (goal_node : Node.t)
    (heuristic_mode : Z) (open_list : list Node.t) (closed_list : list pos)
    (next_id : nat) : search_result :=
  match fuel with
  | O => OutOfFuel
  | S fuel =>
      match open_list with
      | [] => NoPath
      | _ :: _ =>
          match heapq.heappop Node.lt open_list with
          | Raise e => Error e
          | Ok (current_node, open_list) =>
              let closed_list := closed_list ++ [Node.position current_node] in
              if bool_decide
                   (Node.position current_node = Node.position goal_node)
              then Path (path_to_goal current_node)
              else
                match gen_children map current_node directions [] None
                        next_id with
                | Raise e => Error e
                | Ok (children, child_position, next_id) =>
                    match push_children map children child_position
                            current_node goal_node heuristic_mode
                            closed_list open_list with
                    | Raise e => Error e
                    | Ok open_list =>
                        a_star_loop fuel map goal_node heuristic_mode
                          open_list closed_list next_id
                    end
                end
          end
      end
  end.

Definition a_star (fuel : nat) (map : Map_Obj) (start goal : pos)
    (heuristic_mode : Z) : search_result :=
  let start_node := Node.new 0 start None in
  let goal_node := Node.new 1 goal None in
  let open_list := heapq.heappush Node.lt [] start_node in
  a_star_loop fuel map goal_node heuristic_mode open_list [] 2.

(** ** Paths and their cost *)

Definition orthogonal_step (p q : pos) : Prop :=
  (Z.abs (fst p - fst q) = 1 /\ snd p = snd q) \/
  (fst p = fst q /\ Z.abs (snd p - snd q) = 1).

Fixpoint contiguous (path : list pos) : Prop :=
  match path with
  | p :: (q :: _) as rest => orthogonal_step p q /\ contiguous rest
  | _ => True
  end.

(** The cost of a path: the costs of the cells entered, the first cell
    excluded.  [None] when a cell of the path cannot be read. *)
Fixpoint cells_cost (map : Map_Obj) (cells : list pos) : option Z :=
  match cells with
  | [] => Some 0
  | p :: cells =>
      match get_cell_value map p, cells_cost map cells with
      | Ok v, Some c => Some (v + c)
      | _, _ => None
      end
  end.

Definition path_cost (map : Map_Obj) (path : list pos) : option Z :=
  cells_cost map (tail path).

(** A map as the constructor leaves it for a loaded grid. *)
Definition map_of (data : Np.ndarray Z) (start goal : pos) : Map_Obj :=
  snd (init start goal (Some goal) "" data (data_str_of data)).

(** ** Vocabulary of the properties *)

Module Grid.

(** Inside the extents of the grid. *)
Definition inside (map : Map_Obj) (p : pos) : Prop :=
  0 <= fst p < Z.of_nat (Np.shape0 (int_map map)) /\
  0 <= snd p < Z.of_nat (Np.shape1 (int_map map)).

(** Outside the extents: a negative coordinate, or one beyond the
    last row or column. *)
Definition outside (map : Map_Obj) (p : pos) : Prop :=
  fst p < 0 \/ Z.of_nat (Np.shape0 (int_map map)) <= fst p \/
  snd p < 0 \/ Z.of_nat (Np.shape1 (int_map map)) <= snd p.

(** The coordinates numpy accepts: negative ones down to minus the
    size of the axis included. *)
Definition readable (map : Map_Obj) (p : pos) : Prop :=
  - Z.of_nat (Np.shape0 (int_map map)) <= fst p
    < Z.of_nat (Np.shape0 (int_map map)) /\
  - Z.of_nat (Np.shape1 (int_map map)) <= snd p
    < Z.of_nat (Np.shape1 (int_map map)).

(** The cell a readable coordinate denotes. *)
Definition wrap (map : Map_Obj) (p : pos) : pos :=
  (if fst p <? 0 then fst p + Z.of_nat (Np.shape0 (int_map map)) else fst p,
   if snd p <? 0 then snd p + Z.of_nat (Np.shape1 (int_map map)) else snd p).

Definition obstacle (map : Map_Obj) (p : pos) : Prop :=
  get_cell_value map p = Ok (-1).

Definition passable (map : Map_Obj) (p : pos) : Prop :=
  exists v, get_cell_value map p = Ok v /\ v <> -1.

(** The cell reached from [p] in direction [d = (dx, dy)]. *)
Definition towards (p : pos) (d : Z * Z) : pos :=
  (fst p + snd d, snd p + fst d).

(** Fully enclosed: every orthogonal neighbour the grid has is an
    obstacle. *)
Definition enclosed (map : Map_Obj) (p : pos) : Prop :=
  forall d, d ∈ directions ->
    inside map (towards p d) -> obstacle map (towards p d).

(** The estimates from the cells of the grid to [goal] are [int64]
    values. *)
Definition estimates_fit (map : Map_Obj) (goal : pos) (heuristic_mode : Z)
    : Prop :=
  forall n, inside map (Node.position n) ->
    Np.int64 (heuristic n (Node.new 1 goal None) heuristic_mode) = true.

(** The outermost rows and columns hold obstacles only. *)
Definition walled (map : Map_Obj) : Prop :=
  forall p, inside map p ->
    fst p = 0 \/ fst p = Z.of_nat (Np.shape0 (int_map map)) - 1 \/
    snd p = 0 \/ snd p = Z.of_nat (Np.shape1 (int_map map)) - 1 ->
    obstacle map p.

End Grid.

(** The data-model invariant of a map: rectangular arrays of one shape,
    goal and end goal inside the grid, and the saved value being the
    cost under the goal. *)
Record Map_inv (m : Map_Obj) : Prop := {
  inv_int_rect : Np.rectangular (int_map m);
  inv_str_rect : Np.rectangular (str_map m);
  inv_shape0 : Np.shape0 (str_map m) = Np.shape0 (int_map m);
  inv_shape1 : Np.shape1 (str_map m) = Np.shape1 (int_map m);
  inv_goal : Grid.inside m (goal_pos m);
  inv_end_goal : forall e, end_goal_pos m = Some e -> Grid.inside m e;
  inv_tmp : get_cell_value m (goal_pos m) = Ok (tmp_cell_value m)
}.

(** The part of the invariant that says where things are: what
    [tick] needs to run. *)
Record Map_shape (m : Map_Obj) : Prop := {
  shape_int_rect : Np.rectangular (int_map m);
  shape_str_rect : Np.rectangular (str_map m);
  shape_rows : Np.shape0 (str_map m) = Np.shape0 (int_map m);
  shape_cols : Np.shape1 (str_map m) = Np.shape1 (int_map m);
  shape_goal : Grid.inside m (goal_pos m);
  shape_end_goal : forall e, end_goal_pos m = Some e -> Grid.inside m e
}.

(** [m_i] is [m] but for the counter. *)
Record idle (m m_i : Map_Obj) : Prop := {
  idle_goal : goal_pos m_i = goal_pos m;
  idle_end : end_goal_pos m_i = end_goal_pos m;
  idle_int : int_map m_i = int_map m;
  idle_str : str_map m_i = str_map m;
  idle_tmp : tmp_cell_value m_i = tmp_cell_value m
}.

(** [m'] is [m] with the goal moved to [goal_pos m'], as
    [move_goal_pos] leaves it: the saved value was stored at the cell
    the goal left and its symbol written there, the cost of the new
    cell was saved and the goal marker written on it. *)
Record relocated (m m' : Map_Obj) : Prop := {
  rel_end : end_goal_pos m' = end_goal_pos m;
  rel_int :
    Np.setitem (int_map m) (fst (goal_pos m)) (snd (goal_pos m))
      (tmp_cell_value m) = Ok (int_map m');
  rel_tmp : get_cell_value m (goal_pos m') = Ok (tmp_cell_value m');
  rel_str :
    exists s,
      Np.setitem (str_map m) (fst (goal_pos m)) (snd (goal_pos m))
        (str_value_of (tmp_cell_value m)) = Ok s /\
      Np.setitem s (fst (goal_pos m')) (snd (goal_pos m')) " G "
        = Ok (str_map m')
}.

(** The priority rule of the moving goal, in the words of the
    specification: row +1 if the goal is above the end goal, else row -1
    if it is below, else column +1 if it is left of it, else
    column -1. *)
Definition priority_step (goal end_goal : pos) : pos :=
  if fst goal <? fst end_goal then (fst goal + 1, snd goal)
  else if fst goal >? fst end_goal then (fst goal - 1, snd goal)
  else if snd goal <? snd end_goal then (fst goal, snd goal + 1)
  else (fst goal, snd goal - 1).

(** The index, among the coming calls of [tick], of the first one that
    finds the counter on a multiple of four. *)
Definition relocating_call (m : Map_Obj) : nat :=
  Z.to_nat ((- tick_counter m) mod 4).

(** The object after [n] calls of [tick]. *)
Fixpoint after_ticks (n : nat) (m : Map_Obj) : Map_Obj :=
  match n with
  | O => m
  | S n => after_ticks n (snd (tick m))
  end.

(** The object after [i] calls of [tick] on [m], whose end goal [e] is
    away from the goal: the counter aside it is [m] up to the
    relocating call, and [m] with the goal relocated after it. *)
Definition calls_state (m : Map_Obj) (e : pos) (i : nat) (m_i : Map_Obj)
    : Prop :=
  tick_counter m_i = tick_counter m + Z.of_nat i /\
  if decide (i <= relocating_call m)%nat then idle m m_i
  else goal_pos m_i = priority_step (goal_pos m) e /\
       relocated m m_i /\ Map_inv m_i.

(** The object [m_i] reached from [m] after [i] calls, with the goal on
    [g]: only the goal, the string map, the saved value and the counter
    may differ from [m]. *)
Record phase (m : Map_Obj) (e g : pos) (i : Z) (m_i : Map_Obj) : Prop := {
  ph_inv : Map_inv m_i;
  ph_goal : goal_pos m_i = g;
  ph_end : end_goal_pos m_i = Some e;
  ph_int : int_map m_i = int_map m;
  ph_count : tick_counter m_i = tick_counter m + i
}.

(** What [n] successive calls of [tick] return, each with the object
    as the call left it. *)
Fixpoint tick_trace (n : nat) (m : Map_Obj) : list (result pos * Map_Obj) :=
  match n with
  | O => []
  | S n => let rm := tick m in rm :: tick_trace n (snd rm)
  end.

(** The positions met when following the parent links of a node. *)
Fixpoint ancestors (node : Node.t) : list pos :=
  match node with
  | Node.mk _ position parent _ _ _ =>
      position :: match parent with
                  | None => []
                  | Some node => ancestors node
                  end
  end.

(** [n] is a node the expansion of [current_node] may create: it points
    back to [current_node] and sits on a neighbouring cell that is not
    an obstacle. *)
Definition child_of (map : Map_Obj) (current_node n : Node.t) : Prop :=
  Node.parent n = Some current_node /\
  exists d, d ∈ directions /\
            Node.position n = Grid.towards (Node.position current_node) d /\
            Grid.passable map (Node.position n).

(** What holds of every node the search creates: its parent links go
    by orthogonal steps and end on [start]. *)
Definition chained (start : pos) (n : Node.t) : Prop :=
  contiguous (ancestors n) /\ last (ancestors n) = Some start.

(** A path a walker could take: from [start] to [goal], by orthogonal
    steps, over cells that are not obstacles. *)
Definition walkable (map : Map_Obj) (start goal : pos) (path : list pos)
    : Prop :=
  head path = Some start /\ last path = Some goal /\
  contiguous path /\ Forall (Grid.passable map) path.

(** ** Termination measure of the search *)

Module Measure.

(** Every coordinate pair numpy accepts on this grid. *)
Definition box (map : Map_Obj) : list pos :=
  let rows := Z.of_nat (Np.shape0 (int_map map)) in
  let cols := Z.of_nat (Np.shape1 (int_map map)) in
  r ← seqZ (- rows) (2 * rows);
  c ← seqZ (- cols) (2 * cols);
  [(r, c)].

Definition fresh (map : Map_Obj) (closed_list : list pos) (p : pos) : Prop :=
  p ∈ box map /\ p ∉ closed_list.

(** Readable positions not yet closed. *)
Definition unclosed (map : Map_Obj) (closed_list : list pos) : nat :=
  length (filter (fun p => p ∉ closed_list) (box map)).

(** A node on a fresh position weighs one, any other node five: the
    expansion of a node that closes nothing new removes five and adds
    at most four. *)
Definition weight (map : Map_Obj) (closed_list : list pos) (n : Node.t)
    : nat :=
  if decide (fresh map closed_list (Node.position n)) then 1%nat else 5%nat.

Definition load (map : Map_Obj) (closed_list : list pos)
    (open_list : list Node.t) : nat :=
  sum_list_with (weight map closed_list) open_list.

End Measure.

(** ** Grids used as concrete inputs *)

Module Inputs.

(** A walled 2x2 room; the cell below the start costs 2. *)
Definition room : Np.ndarray Z :=
  [[-1; -1; -1; -1];
   [-1;  1;  1; -1];
   [-1;  2;  1; -1];
   [-1; -1; -1; -1]].

Definition room_map : Map_Obj := map_of room (1, 1) (2, 2).

(** A 3x3 grid without walls around it; the centre is enclosed. *)
Definition cross : Np.ndarray Z :=
  [[ 1; -1;  1];
   [-1;  1; -1];
   [ 1; -1;  1]].

Definition cross_map : Map_Obj := map_of cross (2, 2) (1, 1).

(** A 4x4 grid without walls around it: the cell (0, 2) has obstacles
    on the three sides the grid gives it, and the last row is free. *)
Definition seam : Np.ndarray Z :=
  [[ 1; -1;  1; -1];
   [-1; -1; -1; -1];
   [-1; -1; -1; -1];
   [ 1;  1;  1; -1]].

Definition seam_map : Map_Obj := map_of seam (0, 0) (0, 2).

(** A walled grid whose interior is split by a column of obstacles
    around the enclosed cell (2, 3). *)
Definition cell : Np.ndarray Z :=
  [[-1; -1; -1; -1; -1];
   [-1;  1;  1; -1; -1];
   [-1;  1; -1;  1; -1];
   [-1;  1;  1; -1; -1];
   [-1; -1; -1; -1; -1]].

Definition cell_map : Map_Obj := map_of cell (1, 1) (2, 3).

(** A map whose goal creeps towards a distant end goal. *)
Definition corridor : Np.ndarray Z :=
  [[1; 2; 3];
   [4; 1; 2]].

Definition corridor_map : Map_Obj :=
  snd (init (0, 0) (0, 2) (Some (1, 0)) "" corridor (data_str_of corridor)).

(** A map at rest: the end goal is the goal, as for tasks 1 to 4. *)
Definition rest_map : Map_Obj := map_of corridor (0, 0) (0, 2).

(** The corridor map after the cost under its goal was overwritten
    with 9; the value saved by the constructor is still 3. *)
Definition overwritten_map : Map_Obj :=
  snd (set_cell_value (0, 2) false 9 corridor_map).

End Inputs.

(** ** The rest of the map class *)

(** [fill_critical_positions]: the positions and the file of a task.
    For a task outside 1..5 no branch assigns the four variables, and
    the [return] raises. *)
Definition fill_critical_positions (task : Z)
    : result (pos * pos * option pos * string) :=
  if task =? 1 then
    Ok ((27, 18), (40, 32), Some (40, 32), "Samfundet_map_1.csv")
  else if task =? 2 then
    Ok ((40, 32), (8, 5), Some (8, 5), "Samfundet_map_1.csv")
  else if task =? 3 then
    Ok ((28, 32), (6, 32), Some (6, 32), "Samfundet_map_2.csv")
  else if task =? 4 then
    Ok ((28, 32), (6, 32), Some (6, 32), "Samfundet_map_Edgar_full.csv")
  else if task =? 5 then
    Ok ((14, 18), (6, 36), Some (6, 7), "Samfundet_map_2.csv")
  else Raise UnboundLocalError.

(** [read_map], over the content [csv] of the files: the integer array
    and the string array derived from it. *)
Definition read_map (csv : string -> list (list Z)) (path : string)
    : list (list Z) * list (list string) :=
  let data := csv path in
  (data, data_str_of data).

(** [Map_Obj(task)] *)
Definition new_Map_Obj (csv : string -> list (list Z)) (task : Z)
    : result Map_Obj :=
  match fill_critical_positions task with
  | Raise e => Raise e
  | Ok (start, goal, end_goal, path) =>
      let '(data, data_str) := read_map csv path in
      fst (init start goal end_goal path data data_str)
  end.

Definition get_goal_pos (self : Map_Obj) : pos := goal_pos self.

Definition get_start_pos (self : Map_Obj) : pos := start_pos self.

Definition get_end_goal_pos (self : Map_Obj) : option pos := end_goal_pos self.

Definition get_maps (self : Map_Obj) : list (list Z) * list (list string) :=
  (int_map self, str_map self).

(** How a marker method ends: the array it was given, marked; the
    interpreter left through [exit()] (after printing the map and a
    message, which are not modelled); or an exception. *)
Inductive marker_result : Type :=
  | Marked (themap : list (list string))
  | Exited
  | MarkerRaised (e : exn).

Definition set_pos_str_marker (symbol : string) (self : Map_Obj) (p : pos)
    (themap : list (list string)) : marker_result :=
  match Np.getitem (int_map self) (fst p) (snd p) with
  | Raise e => MarkerRaised e
  | Ok v =>
      if v =? -1 then Exited
      else
        match Np.setitem themap (fst p) (snd p) symbol with
        | Raise e => MarkerRaised e
        | Ok themap => Marked themap
        end
  end.

(** [set_start_pos_str_marker] and [set_goal_pos_str_marker] differ in
    the symbol only. *)
Definition set_start_pos_str_marker := set_pos_str_marker " S ".

Definition set_goal_pos_str_marker := set_pos_str_marker " G ".

(** The Manhattan distance of two positions. *)
Definition manhattan (p q : pos) : Z :=
  Z.abs (fst p - fst q) + Z.abs (snd p - snd q).

(** ** The script at the end of [a_star.py] *)

(** The loop that paints the path: every position is marked [" G "]
    unless it equals the first or the last position of the path. *)
Fixpoint mark_path_loop (path rest : list pos) : M unit :=
  match rest with
  | [] => ret tt
  | p :: rest =>
      if bool_decide (head path = Some p) || bool_decide (last path = Some p)
      then mark_path_loop path rest
      else (set_cell_value p true " G " ;;; mark_path_loop path rest)%map
  end.

(** What follows the call of [a_star]: [returned] is its value, [None]
    or a list; the number computed is the one printed as the cost. *)
Definition after_search (returned : option (list pos)) : M nat :=
  match returned with
  | Some path =>
      ((match path with
        | [] => ret tt
        | _ :: _ => mark_path_loop path path
        end) ;;;
       ret (length path))%map
  | None => lift (Raise TypeError)
  end.

(** ** The search, one iteration at a time *)

(** The variables the [while] loop of [a_star] carries from one
    iteration to the next. *)
Record search_state : Type := mkState {
  st_open : list Node.t;
  st_closed : list pos;
  st_next : nat
}.

Inductive step_result : Type :=
  | Done (r : search_result)
  | Continue (st : search_state).

(** One iteration of the loop: the body of [a_star_loop], with the
    recursive call replaced by the state it would be made on. *)
Definition a_star_step (map : Map_Obj) (goal_node : Node.t)
    (heuristic_mode : Z) (st : search_state) : step_result :=
  match st_open st with
  | [] => Done NoPath
  | _ :: _ =>
      match heapq.heappop Node.lt (st_open st) with
      | Raise e => Done (Error e)
      | Ok (current_node, open_list) =>
          let closed_list := st_closed st ++ [Node.position current_node] in
          if bool_decide
               (Node.position current_node = Node.position goal_node)
          then Done (Path (path_to_goal current_node))
          else
            match gen_children map current_node directions [] None
                    (st_next st) with
            | Raise e => Done (Error e)
            | Ok (children, child_position, next_id) =>
                match push_children map children child_position
                        current_node goal_node heuristic_mode
                        closed_list open_list with
                | Raise e => Done (Error e)
                | Ok open_list =>
                    Continue (mkState open_list closed_list next_id)
                end
            end
      end
  end.

(** The state [a_star] enters its loop with. *)
Definition initial_state (start : pos) : search_state :=
  mkState (heapq.heappush Node.lt [] (Node.new 0 start None)) [] 2.

(** The states the loop of [a_star] goes through. *)
Inductive reachable (map : Map_Obj) (start goal : pos) (heuristic_mode : Z)
    : search_state -> Prop :=
  | reachable_initial :
      reachable map start goal heuristic_mode (initial_state start)
  | reachable_step st st' :
      reachable map start goal heuristic_mode st ->
      a_star_step map (Node.new 1 goal None) heuristic_mode st = Continue st' ->
      reachable map start goal heuristic_mode st'.

(** The list is a heap for [<] on [key]: no item is smaller than the
    item at its parent index. *)
Definition heap_ordered {A} (key : A -> Z) (heap : list A) : Prop :=
  forall (i : nat) x p,
    (0 < i)%nat -> heap !! i = Some x -> heap !! Nat.div2 (i - 1) = Some p ->
    key p <= key x.

(** The cell whose cost [add_costs] charges to the children of a node:
    the last neighbour the generation loop looked at. *)
Definition charged_cell (p : pos) : pos := Grid.towards p (-1, 0).

(** What the parent chain of an open node looks like while the closed
    list is [closed_list]: it ends on [start], visits no position
    twice, lies in the closed list above the node itself, and enters
    cells that are no obstacles. *)
Record node_ok (map : Map_Obj) (start : pos) (closed_list : list pos)
    (n : Node.t) : Prop := {
  ok_root : last (ancestors n) = Some start;
  ok_nodup : NoDup (ancestors n);
  ok_closed : forall p, p ∈ tail (ancestors n) -> p ∈ closed_list;
  ok_passable : Forall (Grid.passable map) (removelast (ancestors n))
}.

(** What the loop keeps true of its state. *)
Record search_inv (map : Map_Obj) (start goal : pos) (st : search_state)
    : Prop := {
  inv_ids : Forall (fun n => (Node.id n < st_next st)%nat) (st_open st);
  inv_goal_open : goal ∉ st_closed st;
  inv_nodes : Forall (node_ok map start (st_closed st)) (st_open st);
  inv_start :
    start ∈ st_closed st \/
    exists n, n ∈ st_open st /\ Node.position n = start;
  inv_frontier :
    forall p d, p ∈ st_closed st -> d ∈ directions ->
      Grid.passable map (Grid.towards p d) ->
      Grid.towards p d ∈ st_closed st \/
      exists n, n ∈ st_open st /\ Node.position n = Grid.towards p d
}.

(** The costs stored in a node: the start node holds zeros; a node with
    a parent holds the parent's actual cost plus the cost of the cell
    charged for the parent, the estimate from its own position, which
    is an [int64] value, and their sum; both sums are [int64] sums. *)
Definition costs_ok (map : Map_Obj) (goal_node : Node.t) (heuristic_mode : Z)
    (n : Node.t) : Prop :=
  match Node.parent n with
  | None => Node.actual n = 0 /\ Node.heuristic n = 0 /\ Node.total n = 0
  | Some par =>
      exists v,
        get_cell_value map (charged_cell (Node.position par)) = Ok v /\
        Node.actual n = Np.add64 (Node.actual par) v /\
        Node.heuristic n = heuristic n goal_node heuristic_mode /\
        Np.int64 (Node.heuristic n) = true /\
        Node.total n = Np.add64 (Node.actual n) (Node.heuristic n)
  end.

(** The list [heap] read with [x] in slot [pos]: what the sift loops of
    [heapq] see while the item they move has not been stored yet. *)
Definition with_item {A} (heap : list A) (pos : nat) (x : A) (j : nat)
    : option A :=
  if decide (j = pos) then Some x else heap !! j.

(** Evaluates the shape of a concrete grid in the goal. *)
Ltac eval_shape :=
  repeat match goal with
    | |- context [Np.shape0 ?a] =>
        let n := eval vm_compute in (Np.shape0 a) in
        progress change (Np.shape0 a) with n
    | |- context [Np.shape1 ?a] =>
        let n := eval vm_compute in (Np.shape1 a) in
        progress change (Np.shape1 a) with n
    end;
  cbn [fst snd].

(** * Properties *)

(** ** numpy indexing *)

Section NpFacts.

Context {A : Type}.
Implicit Types (a : Np.ndarray A) (i j : Z) (n : nat).

Lemma norm_index_None n i :
  i < - Z.of_nat n \/ Z.of_nat n <= i -> Np.norm_index n i = None.
Proof.
  intros H. unfold Np.norm_index.
  destruct (i <? - Z.of_nat n) eqn:E1; [reflexivity|].
  destruct (Z.of_nat n <=? i) eqn:E2; [reflexivity|].
  apply Z.ltb_ge in E1. apply Z.leb_gt in E2. lia.
Qed.

Lemma norm_index_Some n i k :
  Np.norm_index n i = Some k ->
  - Z.of_nat n <= i < Z.of_nat n /\ (k < n)%nat /\
  Z.of_nat k = if i <? 0 then i + Z.of_nat n else i.
Proof.
  unfold Np.norm_index.
  destruct (i <? - Z.of_nat n) eqn:E1; [discriminate|].
  destruct (Z.of_nat n <=? i) eqn:E2; [discriminate|].
  apply Z.ltb_ge in E1. apply Z.leb_gt in E2.
  intros [= <-]. destruct (i <? 0) eqn:E3.
  - apply Z.ltb_lt in E3. lia.
  - apply Z.ltb_ge in E3. lia.
Qed.

Lemma norm_index_readable n i :
  - Z.of_nat n <= i < Z.of_nat n ->
  exists k, Np.norm_index n i = Some k /\ (k < n)%nat.
Proof.
  intros H. unfold Np.norm_index.
  destruct (i <? - Z.of_nat n) eqn:E1; [apply Z.ltb_lt in E1; lia|].
  destruct (Z.of_nat n <=? i) eqn:E2; [apply Z.leb_le in E2; lia|].
  eexists. split; [reflexivity|].
  destruct (i <? 0) eqn:E3; [apply Z.ltb_lt in E3|apply Z.ltb_ge in E3]; lia.
Qed.

(** Adding the size of the axis to a negative index names the same
    element. *)
Lemma norm_index_wrap n i :
  - Z.of_nat n <= i < Z.of_nat n ->
  Np.norm_index n (if i <? 0 then i + Z.of_nat n else i) = Np.norm_index n i.
Proof.
  intros H. destruct (i <? 0) eqn:E; [|reflexivity]. apply Z.ltb_lt in E.
  unfold Np.norm_index.
  replace (i <? - Z.of_nat n) with false by (symmetry; apply Z.ltb_ge; lia).
  replace (Z.of_nat n <=? i) with false by (symmetry; apply Z.leb_gt; lia).
  replace (i + Z.of_nat n <? - Z.of_nat n) with false
    by (symmetry; apply Z.ltb_ge; lia).
  replace (Z.of_nat n <=? i + Z.of_nat n) with false
    by (symmetry; apply Z.leb_gt; lia).
  replace (i + Z.of_nat n <? 0) with false by (symmetry; apply Z.ltb_ge; lia).
  replace (i <? 0) with true by (symmetry; apply Z.ltb_lt; lia).
  reflexivity.
Qed.

Lemma getitem_outside a i j :
  i < - Z.of_nat (Np.shape0 a) \/ Z.of_nat (Np.shape0 a) <= i \/
  j < - Z.of_nat (Np.shape1 a) \/ Z.of_nat (Np.shape1 a) <= j ->
  Np.getitem a i j = Raise IndexError.
Proof.
  intros H. unfold Np.getitem.
  destruct (Np.norm_index (Np.shape0 a) i) as [i'|] eqn:Ei; [|reflexivity].
  destruct (Np.norm_index (Np.shape1 a) j) as [j'|] eqn:Ej; [|reflexivity].
  apply norm_index_Some in Ei. apply norm_index_Some in Ej. lia.
Qed.

Lemma getitem_Ok a i j v :
  Np.getitem a i j = Ok v ->
  exists (i' j' : nat) row,
    Np.norm_index (Np.shape0 a) i = Some i' /\
    Np.norm_index (Np.shape1 a) j = Some j' /\
    a !! i' = Some row /\ row !! j' = Some v.
Proof.
  unfold Np.getitem.
  destruct (Np.norm_index (Np.shape0 a) i) as [i'|]; [|discriminate].
  destruct (Np.norm_index (Np.shape1 a) j) as [j'|]; [|discriminate].
  destruct (a !! i') as [row|] eqn:Er; [|discriminate].
  destruct (row !! j') as [w|] eqn:Ew; [|discriminate].
  intros [= <-]. eauto 10.
Qed.

Lemma getitem_raise a i j e : Np.getitem a i j = Raise e -> e = IndexError.
Proof.
  unfold Np.getitem.
  repeat (match goal with
          | |- context [match ?x with _ => _ end] => destruct x
          end); congruence.
Qed.

Lemma rectangular_row a k row :
  Np.rectangular a -> a !! k = Some row -> length row = Np.shape1 a.
Proof.
  intros Hr Hk. unfold Np.rectangular in Hr.
  rewrite Forall_forall in Hr. apply Hr.
  eapply list_elem_of_lookup_2. exact Hk.
Qed.

Lemma getitem_readable a i j :
  Np.rectangular a ->
  - Z.of_nat (Np.shape0 a) <= i < Z.of_nat (Np.shape0 a) ->
  - Z.of_nat (Np.shape1 a) <= j < Z.of_nat (Np.shape1 a) ->
  exists v, Np.getitem a i j = Ok v.
Proof.
  intros Hr Hi Hj. unfold Np.getitem.
  destruct (norm_index_readable _ _ Hi) as (i' & -> & Hi').
  destruct (norm_index_readable _ _ Hj) as (j' & -> & Hj').
  destruct (lookup_lt_is_Some_2 a i' Hi') as [row Hrow]. rewrite Hrow.
  pose proof (rectangular_row _ _ _ Hr Hrow) as Hlen.
  destruct (lookup_lt_is_Some_2 row j') as [v Hv]; [lia|].
  rewrite Hv. eauto.
Qed.

End NpFacts.

(** ** The heuristic *)

(** C8. The heuristic depends on nothing but its three arguments; it is
    the Manhattan distance [|a.row - b.row| + |a.col - b.col|] of the
    two positions in mode 1 and the squared Euclidean distance
    [(a.row - b.row)^2 + (a.col - b.col)^2] in mode 2. *)
Theorem heuristic_modes (a b : Node.t) :
  heuristic a b 1 =
    Z.abs (fst (Node.position a) - fst (Node.position b)) +
    Z.abs (snd (Node.position a) - snd (Node.position b)) /\
  heuristic a b 2 =
    (fst (Node.position a) - fst (Node.position b)) ^ 2 +
    (snd (Node.position a) - snd (Node.position b)) ^ 2.
Proof.
  unfold heuristic. split; [reflexivity|].
  change (2 =? 1) with false. cbv iota.
  rewrite !Z.pow_2_r, !Z.abs_square. reflexivity.
Qed.

(** The heuristic reads the positions only: the cost fields, the
    parents and the identities of the nodes do not matter. *)
Lemma heuristic_position (a a' b b' : Node.t) (mode : Z) :
  Node.position a = Node.position a' ->
  Node.position b = Node.position b' ->
  heuristic a b mode = heuristic a' b' mode.
Proof. unfold heuristic. intros -> ->. reflexivity. Qed.

Lemma heuristic_nonneg (a b : Node.t) (mode : Z) : 0 <= heuristic a b mode.
Proof. unfold heuristic. destruct (mode =? 1); nia. Qed.

(** An estimate that is no [int64] value is [2^63] or more. *)
Lemma heuristic_no_int64 (a b : Node.t) (mode : Z) :
  Np.int64 (heuristic a b mode) = false -> 2 ^ 63 <= heuristic a b mode.
Proof.
  pose proof (heuristic_nonneg a b mode) as H0. unfold Np.int64.
  intros H. apply andb_false_iff in H as [H|H];
    rewrite ?Z.leb_gt, ?Z.ltb_ge in H; lia.
Qed.

(** ** The cost accessor *)

Lemma get_cell_value_raise map p e :
  get_cell_value map p = Raise e -> e = IndexError.
Proof. apply getitem_raise. Qed.

Lemma get_cell_value_readable map p v :
  get_cell_value map p = Ok v -> Grid.readable map p.
Proof.
  intros H. apply getitem_Ok in H as (i' & j' & row & Hi & Hj & _).
  apply norm_index_Some in Hi. apply norm_index_Some in Hj.
  unfold Grid.readable. lia.
Qed.

Lemma get_cell_value_wrap map p :
  Grid.readable map p ->
  get_cell_value map (Grid.wrap map p) = get_cell_value map p.
Proof.
  intros [Hr Hc]. unfold get_cell_value, Grid.wrap, Np.getitem. cbn [fst snd].
  rewrite (norm_index_wrap _ _ Hr), (norm_index_wrap _ _ Hc). reflexivity.
Qed.

Lemma wrap_inside map p : Grid.readable map p -> Grid.inside map (Grid.wrap map p).
Proof.
  intros [Hr Hc]. unfold Grid.inside, Grid.wrap. cbn [fst snd].
  destruct (fst p <? 0) eqn:E1; destruct (snd p <? 0) eqn:E2;
    rewrite ?Z.ltb_lt, ?Z.ltb_ge in *; lia.
Qed.

Lemma inside_readable map p : Grid.inside map p -> Grid.readable map p.
Proof. unfold Grid.inside, Grid.readable. lia. Qed.

(** C2, as the claim states it, fails: row [-1] lies outside the
    extents of the 4x4 room, yet the accessor returns the cost of the
    cell in the last row. *)
Lemma negative_row_is_read_counterexample :
  Grid.outside Inputs.room_map (-1, 1) /\
  get_cell_value Inputs.room_map (-1, 1) = Ok (-1) /\
  Grid.outside Inputs.room_map (-3, -2) /\
  get_cell_value Inputs.room_map (-3, -2) = Ok 1 /\
  get_cell_value Inputs.room_map (-3, -2) <> Raise IndexError.
Proof.
  repeat split; try (vm_compute; reflexivity); try discriminate.
  - left. cbn. lia.
  - left. cbn. lia.
Qed.

(** C2, amended. A position with a coordinate beyond the last row or
    column, or below minus the number of rows or columns, makes the
    accessor raise [IndexError]; a negative coordinate down to minus the
    size of its axis is no error: it counts from the end of the axis,
    so the accessor returns the cost of the cell it wraps to. *)
Theorem get_cell_value_extents (map : Map_Obj) (p : pos) :
  (~ Grid.readable map p -> get_cell_value map p = Raise IndexError) /\
  (Np.rectangular (int_map map) -> Grid.readable map p ->
   exists v, get_cell_value map p = Ok v /\
             Grid.inside map (Grid.wrap map p) /\
             get_cell_value map (Grid.wrap map p) = Ok v).
Proof.
  split.
  - intros H. apply getitem_outside. unfold Grid.readable in H. lia.
  - intros Hrect Hr.
    destruct (getitem_readable (int_map map) (fst p) (snd p) Hrect)
      as [v Hv]; try apply Hr.
    exists v. split; [exact Hv|]. split; [apply wrap_inside, Hr|].
    rewrite get_cell_value_wrap by exact Hr. exact Hv.
Qed.

Lemma get_cell_value_extents_witness :
  get_cell_value Inputs.room_map (4, 1) = Raise IndexError /\
  exists v, get_cell_value Inputs.room_map (-3, -2) = Ok v /\
            Grid.inside Inputs.room_map (Grid.wrap Inputs.room_map (-3, -2)) /\
            get_cell_value Inputs.room_map
              (Grid.wrap Inputs.room_map (-3, -2)) = Ok v.
Proof.
  split.
  - apply (get_cell_value_extents Inputs.room_map (4, 1)).
    unfold Grid.readable. eval_shape. lia.
  - apply (get_cell_value_extents Inputs.room_map (-3, -2)).
    + repeat constructor.
    + unfold Grid.readable. eval_shape. lia.
Defined.

(** ** Overlay marking *)

(** C9. Writing a symbol into the string map leaves every cost lookup
    as it was, whatever the position and the symbol, and whether the
    write succeeds or raises. *)
Theorem set_cell_value_keeps_costs (m : Map_Obj) (p : pos) (s : string)
    (q : pos) :
  get_cell_value (snd (set_cell_value p true s m)) q = get_cell_value m q.
Proof.
  unfold set_cell_value, bind, get_self, lift, modify. cbn.
  destruct (Np.setitem (str_map m) (fst p) (snd p) (Np.to_U21 s));
    reflexivity.
Qed.

(** The integer map itself is the same object afterwards. *)
Lemma set_cell_value_int_map (m : Map_Obj) (p : pos) (s : string) :
  int_map (snd (set_cell_value p true s m)) = int_map m.
Proof.
  unfold set_cell_value, bind, get_self, lift, modify. cbn.
  destruct (Np.setitem (str_map m) (fst p) (snd p) (Np.to_U21 s));
    reflexivity.
Qed.

(** ** The tick counter *)

(** On the two early returns [tick] changes nothing at all. *)
Lemma tick_early_return (m : Map_Obj) :
  tick_counter m mod 4 = 0 ->
  end_goal_pos m = None \/ end_goal_pos m = Some (goal_pos m) ->
  tick m = (Ok (goal_pos m), m).
Proof.
  intros Hc He. unfold tick, bind, get_self. cbn.
  rewrite Hc. cbn.
  destruct He as [-> | ->]; [reflexivity|].
  rewrite bool_decide_eq_true_2 by reflexivity. reflexivity.
Qed.

(** Between two multiples of four a call only counts. *)
Lemma tick_counts (m : Map_Obj) :
  tick_counter m mod 4 <> 0 ->
  tick m = (Ok (goal_pos m), set_tick_counter (tick_counter m + 1) m).
Proof.
  intros Hc. unfold tick, bind, get_self. cbn.
  destruct (tick_counter m mod 4 =? 0) eqn:E; [apply Z.eqb_eq in E; lia|].
  reflexivity.
Qed.

(** C3, checked on a map at rest (the end goal is the goal, as the
    constructor sets it for tasks 1 to 4): the call returns the goal
    and leaves the counter at 0, where the claim wants 1; so does every
    later call. *)
Theorem tick_at_rest_does_not_count :
  tick_counter Inputs.rest_map = 0 /\
  end_goal_pos Inputs.rest_map = Some (goal_pos Inputs.rest_map) /\
  tick Inputs.rest_map = (Ok (0, 2), Inputs.rest_map) /\
  tick_counter (snd (tick Inputs.rest_map)) = 0 /\
  Forall (fun rm => tick_counter (snd rm) = 0) (tick_trace 8 Inputs.rest_map).
Proof.
  repeat split; try (vm_compute; reflexivity).
  vm_compute. repeat constructor.
Qed.

(** ** Start and goal coincide *)

Lemma heappush_empty {A} (lt : A -> A -> bool) (x : A) :
  heapq.heappush lt [] x = [x].
Proof. reflexivity. Qed.

Lemma heappop_singleton {A} (lt : A -> A -> bool) (x : A) :
  heapq.heappop lt [x] = Ok (x, []).
Proof. reflexivity. Qed.

(** C10. With start = goal = p the search returns [[p]] in its first
    iteration.  The result does not depend on the map: it is the same
    when p is an obstacle, and the same on the empty grid, where any
    lookup would raise.  No child is generated and nothing is pushed:
    the open list is not touched after the pop. *)
Theorem a_star_start_is_goal (fuel : nat) (map : Map_Obj) (p : pos)
    (heuristic_mode : Z) :
  a_star (S fuel) map p p heuristic_mode = Path [p].
Proof.
  unfold a_star. rewrite heappush_empty.
  cbn [a_star_loop]. rewrite heappop_singleton. cbn [Node.position Node.new].
  rewrite bool_decide_eq_true_2 by reflexivity. reflexivity.
Qed.

(** ** Optimality *)

(** C1, checked on the walled 2x2 room with the Manhattan heuristic:
    the search goes down and then right, entering the cells of cost 2
    and 1, though going right and then down costs 1 + 1.  Both children
    of the start were given the cost of the cell left of the start (the
    wall, -1), so the heap saw them as equal. *)
Theorem a_star_room_not_optimal :
  a_star 3 Inputs.room_map (1, 1) (2, 2) 1 = Path [(1, 1); (2, 1); (2, 2)] /\
  path_cost Inputs.room_map [(1, 1); (2, 1); (2, 2)] = Some 3 /\
  walkable Inputs.room_map (1, 1) (2, 2) [(1, 1); (1, 2); (2, 2)] /\
  path_cost Inputs.room_map [(1, 1); (1, 2); (2, 2)] = Some 2.
Proof.
  split; [vm_compute; reflexivity|].
  split; [vm_compute; reflexivity|].
  split; [|vm_compute; reflexivity].
  unfold walkable. repeat split.
  - right. cbn. lia.
  - left. cbn. lia.
  - repeat constructor; eexists; (split; [vm_compute; reflexivity|discriminate]).
Qed.

(** What [add_costs] stored for the two children of the start: the
    same actual cost -1, for cells of cost 2 and 1. *)
Lemma a_star_room_children_costs :
  let start_node := Node.new 0 (1, 1) None in
  let goal_node := Node.new 1 (2, 2) None in
  exists c1 c2 open_list,
    gen_children Inputs.room_map start_node directions [] None 2
      = Ok ([c1; c2], Some (1, 0), 4%nat) /\
    Node.position c1 = (2, 1) /\ Node.position c2 = (1, 2) /\
    get_cell_value Inputs.room_map (1, 0) = Ok (-1) /\
    push_children Inputs.room_map [c1; c2] (Some (1, 0)) start_node goal_node
      1 [(1, 1)] [] = Ok open_list /\
    map Node.position open_list = [(2, 1); (1, 2)] /\
    map Node.actual open_list = [-1; -1].
Proof.
  do 3 eexists. repeat split; vm_compute; reflexivity.
Qed.

(** ** The heap holds what was pushed and not yet popped *)

Section HeapFacts.

Context {A : Type} (lt : A -> A -> bool).
Implicit Types (heap : list A) (x : A).

(** Moving the free slot from [i] to [j], where [y] sat, rearranges
    the list with [x] in the free slot. *)
Lemma slot_move heap (i j : nat) x y :
  (i < length heap)%nat -> i <> j -> heap !! j = Some y ->
  <[j := x]> (<[i := y]> heap) ≡ₚ <[i := x]> heap.
Proof.
  intros Hi Hne Hj.
  rewrite <- (list_insert_insert_eq heap i y x).
  apply Permutation_insert_swap.
  - apply list_lookup_insert_eq. exact Hi.
  - rewrite list_lookup_insert_ne by exact Hne. exact Hj.
Qed.

Lemma div2_pred_lt (pos : nat) : (0 < pos)%nat -> (Nat.div2 (pos - 1) < pos)%nat.
Proof.
  intros H. pose proof (Nat.div2_decr (pos - 1) (pos - 1)). lia.
Qed.

Lemma siftdown_loop_perm (fuel : nat) heap x (startpos pos : nat) :
  (pos < length heap)%nat ->
  heapq.siftdown_loop lt fuel heap x startpos pos ≡ₚ <[pos := x]> heap.
Proof.
  revert heap pos. induction fuel as [|fuel IH]; intros heap pos Hpos;
    cbn [heapq.siftdown_loop]; [reflexivity|].
  destruct (decide (startpos < pos)%nat) as [Hlt|]; [|reflexivity].
  assert (Hpar : (Nat.div2 (pos - 1) < pos)%nat) by (apply div2_pred_lt; lia).
  destruct (heap !! Nat.div2 (pos - 1)) as [parent|] eqn:Ep; [|reflexivity].
  destruct (lt x parent); [|reflexivity].
  rewrite IH by (rewrite length_insert; lia).
  apply slot_move; [exact Hpos|lia|exact Ep].
Qed.

Lemma siftdown_perm heap (startpos pos : nat) :
  heapq.siftdown lt heap startpos pos ≡ₚ heap.
Proof.
  unfold heapq.siftdown. destruct (heap !! pos) as [x|] eqn:E; [|reflexivity].
  rewrite siftdown_loop_perm by (eapply lookup_lt_Some; exact E).
  rewrite list_insert_id by exact E. reflexivity.
Qed.

Lemma siftup_loop_perm (fuel : nat) heap (pos : nat) heap' (pos' : nat) :
  (pos < length heap)%nat ->
  heapq.siftup_loop lt fuel heap pos = (heap', pos') ->
  (pos' < length heap')%nat /\
  forall x, <[pos' := x]> heap' ≡ₚ <[pos := x]> heap.
Proof.
  revert heap pos. induction fuel as [|fuel IH]; intros heap pos Hpos;
    cbn [heapq.siftup_loop].
  { intros [= <- <-]. split; [exact Hpos|reflexivity]. }
  destruct (decide (2 * pos + 1 < length heap)%nat) as [Hc|];
    [|intros [= <- <-]; split; [exact Hpos|reflexivity]].
  set (childpos :=
         if bool_decide (2 * pos + 1 + 1 < length heap)%nat &&
            match heap !! (2 * pos + 1)%nat, heap !! (2 * pos + 1 + 1)%nat with
            | Some l, Some r => negb (lt l r)
            | _, _ => false
            end
         then (2 * pos + 1 + 1)%nat else (2 * pos + 1)%nat).
  assert (Hchild : (pos < childpos < length heap)%nat).
  { subst childpos.
    destruct (bool_decide (2 * pos + 1 + 1 < length heap)%nat) eqn:Eb;
      cbn [andb]; [|lia].
    apply bool_decide_eq_true_1 in Eb.
    destruct (match heap !! (2 * pos + 1)%nat, heap !! (2 * pos + 1 + 1)%nat with
              | Some l, Some r => negb (lt l r)
              | _, _ => false
              end); lia. }
  destruct (heap !! childpos) as [c|] eqn:Ec;
    [|intros [= <- <-]; split; [exact Hpos|reflexivity]].
  intros Hloop. apply IH in Hloop as [Hlen Hperm];
    [|rewrite length_insert; lia].
  split; [exact Hlen|]. intros x. rewrite Hperm.
  apply slot_move; [exact Hpos|lia|exact Ec].
Qed.

Lemma siftup_perm heap (pos : nat) : heapq.siftup lt heap pos ≡ₚ heap.
Proof.
  unfold heapq.siftup. destruct (heap !! pos) as [x|] eqn:E; [|reflexivity].
  destruct (heapq.siftup_loop lt (length heap) heap pos) as [heap' pos'] eqn:El.
  apply siftup_loop_perm in El as [_ Hperm];
    [|eapply lookup_lt_Some; exact E].
  rewrite siftdown_perm, Hperm, list_insert_id by exact E. reflexivity.
Qed.

Lemma heappush_perm heap x : heapq.heappush lt heap x ≡ₚ x :: heap.
Proof.
  unfold heapq.heappush. rewrite siftdown_perm.
  symmetry. apply Permutation_cons_append.
Qed.

Lemma last_removelast heap x :
  last heap = Some x -> heap = removelast heap ++ [x].
Proof.
  induction heap as [|y heap IH]; [discriminate|].
  destruct heap as [|z heap]; cbn.
  - intros [= ->]. reflexivity.
  - intros H. f_equal. apply IH. exact H.
Qed.

Lemma heappop_perm heap x heap' :
  heapq.heappop lt heap = Ok (x, heap') -> heap ≡ₚ x :: heap'.
Proof.
  unfold heapq.heappop. destruct (last heap) as [lastelt|] eqn:El; [|discriminate].
  apply last_removelast in El. revert El.
  destruct (removelast heap) as [|returnitem rest]; intros -> [= <- <-].
  - reflexivity.
  - rewrite siftup_perm. cbn. f_equiv.
    symmetry. apply Permutation_cons_append.
Qed.

(** Under [while open_list:] the pop cannot raise. *)
Lemma heappop_nonempty heap :
  heap <> [] -> exists x heap', heapq.heappop lt heap = Ok (x, heap').
Proof.
  intros Hne. unfold heapq.heappop.
  destruct (last heap) as [lastelt|] eqn:El.
  - destruct (removelast heap); eauto.
  - apply last_None in El. contradiction.
Qed.

End HeapFacts.

(** ** One expansion *)

Section Expansion.

Variables (map : Map_Obj) (current_node goal_node : Node.t)
          (heuristic_mode : Z).

Lemma add_costs_inv child cp child' :
  add_costs map child cp current_node goal_node heuristic_mode = Ok child' ->
  Node.position child' = Node.position child /\
  Node.parent child' = Node.parent child /\
  Node.id child' = Node.id child.
Proof.
  unfold add_costs. destruct (get_cell_value map cp); [|discriminate].
  destruct (Np.to_int64 _); [|discriminate].
  intros [= <-]. repeat split.
Qed.

(** [add_costs] raises when the cell [child_position] names cannot be
    read, and when the heuristic of the child does not fit [int64]. *)
Lemma add_costs_raise child cp e :
  add_costs map child cp current_node goal_node heuristic_mode = Raise e ->
  get_cell_value map cp = Raise e \/
  (e = OverflowError /\
   Np.int64 (heuristic child goal_node heuristic_mode) = false).
Proof.
  unfold add_costs. destruct (get_cell_value map cp); [|intros [= <-]; auto].
  unfold Np.to_int64. cbn [Node.heuristic Node.set_heuristic].
  rewrite (heuristic_position _ child goal_node goal_node) by reflexivity.
  destruct (Np.int64 _); [discriminate|].
  intros [= <-]. right. split; reflexivity.
Qed.

Lemma add_costs_Ok child cp v :
  get_cell_value map cp = Ok v ->
  Np.int64 (heuristic child goal_node heuristic_mode) = true ->
  exists child',
    add_costs map child cp current_node goal_node heuristic_mode = Ok child'.
Proof.
  intros Hv Hh. unfold add_costs. rewrite Hv.
  unfold Np.to_int64. cbn [Node.heuristic Node.set_heuristic].
  rewrite (heuristic_position _ child goal_node goal_node) by reflexivity.
  rewrite Hh. eauto.
Qed.

(** The children generated are neighbours that are not obstacles; at
    most one per direction; every cell looked at could be read, and
    [child_position] is left at the last of them. *)
Lemma gen_children_spec dirs children cp next_id children' cp' next_id' :
  gen_children map current_node dirs children cp next_id
    = Ok (children', cp', next_id') ->
  (exists new,
     children' = children ++ new /\
     (length new <= length dirs)%nat /\
     Forall (fun n =>
               Node.parent n = Some current_node /\
               exists d, d ∈ dirs /\
                 Node.position n
                   = Grid.towards (Node.position current_node) d /\
                 Grid.passable map (Node.position n)) new) /\
  Forall (fun d => exists v,
            get_cell_value map
              (Grid.towards (Node.position current_node) d) = Ok v) dirs /\
  cp' = match last dirs with
        | Some d => Some (Grid.towards (Node.position current_node) d)
        | None => cp
        end.
Proof.
  revert children cp next_id.
  induction dirs as [|[dx dy] dirs IH]; intros children cp next_id;
    cbn [gen_children].
  { intros [= <- <- <-]. split; [|split; [constructor|reflexivity]].
    exists []. rewrite app_nil_r.
    split; [reflexivity|]. split; [cbn; lia|constructor]. }
  change (fst (Node.position current_node) + dy,
          snd (Node.position current_node) + dx)
    with (Grid.towards (Node.position current_node) (dx, dy)).
  set (child_position := Grid.towards (Node.position current_node) (dx, dy)).
  destruct (get_cell_value map child_position) as [v|] eqn:Ev; [|discriminate].
  assert (Hlast : forall o,
             match last dirs with
             | Some d => Some (Grid.towards (Node.position current_node) d)
             | None => Some child_position
             end = o ->
             match last ((dx, dy) :: dirs) with
             | Some d => Some (Grid.towards (Node.position current_node) d)
             | None => cp
             end = o).
  { intros o <-. clear IH. destruct dirs as [|d dirs]; [reflexivity|].
    change (last ((dx, dy) :: d :: dirs)) with (last (d :: dirs)).
    destruct (last (d :: dirs)) eqn:E; [reflexivity|].
    apply last_None in E. discriminate. }
  destruct (v =? -1) eqn:Ew; intros Hgen; apply IH in Hgen
    as ((new & -> & Hlen & Hnew) & Hread & Hcp).
  - split; [|split].
    + exists new. split; [reflexivity|]. split; [cbn; lia|].
      eapply Forall_impl; [exact Hnew|].
      intros n (Hp & d & Hd & Hpos & Hpass). split; [exact Hp|].
      exists d. split; [right; exact Hd|]. split; assumption.
    + constructor; [eauto|exact Hread].
    + symmetry. apply Hlast. symmetry. exact Hcp.
  - split; [|split].
    + eexists (_ :: new). rewrite <- app_assoc. split; [reflexivity|].
      split; [cbn; lia|]. constructor.
      * split; [reflexivity|]. exists (dx, dy). split; [left|].
        split; [reflexivity|]. exists v. split; [exact Ev|].
        apply Z.eqb_neq. exact Ew.
      * eapply Forall_impl; [exact Hnew|].
        intros n (Hp & d & Hd & Hpos & Hpass). split; [exact Hp|].
        exists d. split; [right; exact Hd|]. split; assumption.
    + constructor; [eauto|exact Hread].
    + symmetry. apply Hlast. symmetry. exact Hcp.
Qed.

(** The generation raises only when a neighbour cannot be read. *)
Lemma gen_children_raise dirs children cp next_id e :
  gen_children map current_node dirs children cp next_id = Raise e ->
  e = IndexError /\
  exists d, d ∈ dirs /\
    get_cell_value map (Grid.towards (Node.position current_node) d)
      = Raise IndexError.
Proof.
  revert children cp next_id.
  induction dirs as [|[dx dy] dirs IH]; intros children cp next_id;
    cbn [gen_children]; [discriminate|].
  change (fst (Node.position current_node) + dy,
          snd (Node.position current_node) + dx)
    with (Grid.towards (Node.position current_node) (dx, dy)).
  destruct (get_cell_value map _) as [v|e'] eqn:Ev.
  - destruct (v =? -1); intros H; apply IH in H as (-> & d & Hd & Hr);
      (split; [reflexivity|]); exists d; (split; [right; exact Hd|exact Hr]).
  - intros [= <-]. pose proof (get_cell_value_raise _ _ _ Ev) as ->.
    split; [reflexivity|]. exists (dx, dy). split; [left|exact Ev].
Qed.

(** What the second loop adds to the open list: children on
    positions that are not closed, each at most once. *)
Lemma push_children_spec children cp closed_list open_list open_list' :
  push_children map children cp current_node goal_node heuristic_mode
    closed_list open_list = Ok open_list' ->
  exists pushed,
    open_list' ≡ₚ pushed ++ open_list /\
    (length pushed <= length children)%nat /\
    Forall (fun n => (Node.position n ∉ closed_list) /\
              exists child, child ∈ children /\
                Node.position n = Node.position child /\
                Node.parent n = Node.parent child) pushed.
Proof.
  revert open_list.
  induction children as [|child children IH]; intros open_list;
    cbn [push_children].
  { intros [= <-]. exists [].
    split; [reflexivity|]. split; [cbn; lia|constructor]. }
  assert (Hweak : forall pushed,
    Forall (fun n => (Node.position n ∉ closed_list) /\
              exists child, child ∈ children /\
                Node.position n = Node.position child /\
                Node.parent n = Node.parent child) pushed ->
    Forall (fun n => (Node.position n ∉ closed_list) /\
              exists child0, child0 ∈ child :: children /\
                Node.position n = Node.position child0 /\
                Node.parent n = Node.parent child0) pushed).
  { intros pushed H. eapply Forall_impl; [exact H|].
    intros n (Hc & ch & Hch & Hpp). split; [exact Hc|].
    exists ch. split; [right; exact Hch|exact Hpp]. }
  destruct (bool_decide (Node.position child ∈ closed_list)) eqn:Ecl.
  - intros H. apply IH in H as (pushed & Hperm & Hlen & Hall).
    exists pushed. split; [exact Hperm|]. split; [cbn; lia|].
    apply Hweak, Hall.
  - apply bool_decide_eq_false_1 in Ecl.
    destruct cp as [cp|]; [|discriminate].
    destruct (add_costs map child cp current_node goal_node heuristic_mode)
      as [child'|] eqn:Eadd; [|discriminate].
    apply add_costs_inv in Eadd as (Hpos & Hpar & _).
    destruct (negb (existsb (fun n => Node.is_ n child') open_list));
      intros H; apply IH in H as (pushed & Hperm & Hlen & Hall).
    + exists (pushed ++ [child']). split; [|split].
      * rewrite Hperm, heappush_perm, <- app_assoc. reflexivity.
      * rewrite length_app. cbn. lia.
      * apply Forall_app. split; [apply Hweak, Hall|].
        constructor; [|constructor]. split; [rewrite Hpos; exact Ecl|].
        exists child. split; [left|]. split; assumption.
    + exists pushed. split; [exact Hperm|]. split; [cbn; lia|].
      apply Hweak, Hall.
Qed.

(** The second loop raises only when the cell [child_position] names
    cannot be read, or the heuristic of a child does not fit [int64]. *)
Lemma push_children_ok children cp v closed_list open_list :
  get_cell_value map cp = Ok v ->
  Forall (fun child =>
            Np.int64 (heuristic child goal_node heuristic_mode) = true)
         children ->
  exists open_list',
    push_children map children (Some cp) current_node goal_node
      heuristic_mode closed_list open_list = Ok open_list'.
Proof.
  intros Hv Hfit. revert open_list.
  induction Hfit as [|child children Hh Hfit IH]; intros open_list;
    cbn [push_children]; [eauto|].
  destruct (bool_decide (Node.position child ∈ closed_list)); [apply IH|].
  destruct (add_costs_Ok child cp v Hv Hh) as [child' ->]. apply IH.
Qed.

Lemma push_children_raise children cp closed_list open_list e :
  push_children map children (Some cp) current_node goal_node
    heuristic_mode closed_list open_list = Raise e ->
  get_cell_value map cp = Raise e \/
  (e = OverflowError /\
   exists child, child ∈ children /\
     Np.int64 (heuristic child goal_node heuristic_mode) = false).
Proof.
  revert open_list.
  induction children as [|child children IH]; intros open_list;
    cbn [push_children]; [discriminate|].
  assert (Hweak :
    get_cell_value map cp = Raise e \/
    (e = OverflowError /\
     exists child, child ∈ children /\
       Np.int64 (heuristic child goal_node heuristic_mode) = false) ->
    get_cell_value map cp = Raise e \/
    (e = OverflowError /\
     exists child0, child0 ∈ child :: children /\
       Np.int64 (heuristic child0 goal_node heuristic_mode) = false)).
  { intros [H|(-> & c & Hc & Hh)]; [left; exact H|right].
    split; [reflexivity|]. exists c. split; [right; exact Hc|exact Hh]. }
  destruct (bool_decide (Node.position child ∈ closed_list));
    [intros H; apply Hweak, (IH _ H)|].
  destruct (add_costs map child cp current_node goal_node heuristic_mode)
    as [child'|e'] eqn:Eadd.
  - intros H. apply Hweak, (IH _ H).
  - intros [= <-]. apply add_costs_raise in Eadd as [H|[-> Hh]];
      [left; exact H|right].
    split; [reflexivity|]. exists child. split; [left|exact Hh].
Qed.

End Expansion.

(** ** The loop keeps an invariant of the open list *)

Section Invariant.

Variables (map : Map_Obj) (goal_node : Node.t) (heuristic_mode : Z).
Variable P : Node.t -> Prop.

(** [P] looks at the position and the parent of a node only, and the
    children of a node that has [P] and is not on the goal have [P]. *)
Hypothesis P_ext : forall n n',
  Node.position n = Node.position n' -> Node.parent n = Node.parent n' ->
  P n -> P n'.
Hypothesis P_child : forall current_node n,
  P current_node ->
  Node.position current_node <> Node.position goal_node ->
  child_of map current_node n -> P n.

Lemma expansion_inv current_node next_id children cp next_id'
    closed_list open_list open_list' :
  P current_node ->
  Node.position current_node <> Node.position goal_node ->
  Forall P open_list ->
  gen_children map current_node directions [] None next_id
    = Ok (children, cp, next_id') ->
  push_children map children cp current_node goal_node heuristic_mode
    closed_list open_list = Ok open_list' ->
  Forall P open_list'.
Proof.
  intros Hcur Hng Hopen Hgen Hpush.
  apply gen_children_spec in Hgen as ((new & -> & _ & Hnew) & _ & _).
  apply push_children_spec in Hpush as (pushed & -> & _ & Hpushed).
  apply Forall_app. split; [|exact Hopen].
  eapply Forall_impl; [exact Hpushed|].
  intros n (_ & child & Hin & Hpos & Hpar).
  apply (P_ext child n); [congruence|congruence|].
  rewrite Forall_forall in Hnew.
  apply (P_child current_node); [exact Hcur|exact Hng|].
  apply (Hnew child). exact Hin.
Qed.

(** A returned path leads to a node with [P] on the goal; an
    exception is an [IndexError] met while reading a neighbour of a
    node with [P], or an [OverflowError] met on a child of a node with
    [P] whose heuristic does not fit [int64]. *)
Lemma a_star_loop_inv fuel open_list closed_list next_id :
  Forall P open_list ->
  match a_star_loop fuel map goal_node heuristic_mode open_list
          closed_list next_id with
  | Path path =>
      exists n, P n /\ Node.position n = Node.position goal_node /\
                path = path_to_goal n
  | Error e =>
      (e = IndexError /\
       exists n d, P n /\ Node.position n <> Node.position goal_node /\
         d ∈ directions /\
         get_cell_value map (Grid.towards (Node.position n) d)
           = Raise IndexError) \/
      (e = OverflowError /\
       exists n child, P n /\
         Node.position n <> Node.position goal_node /\
         child_of map n child /\
         Np.int64 (heuristic child goal_node heuristic_mode) = false)
  | NoPath | OutOfFuel => True
  end.
Proof.
  revert open_list closed_list next_id.
  induction fuel as [|fuel IH]; intros open_list closed_list next_id Hopen;
    cbn [a_star_loop]; [exact I|].
  destruct open_list as [|n0 rest] eqn:Eo; [exact I|]. rewrite <- Eo in *.
  destruct (heappop_nonempty Node.lt open_list) as (cur & open' & Epop);
    [rewrite Eo; discriminate|].
  rewrite Epop. apply heappop_perm in Epop. rewrite Epop in Hopen.
  apply Forall_cons in Hopen as [Hcur Hopen'].
  destruct (bool_decide (Node.position cur = Node.position goal_node)) eqn:Eg.
  { apply bool_decide_eq_true_1 in Eg. exists cur. auto. }
  apply bool_decide_eq_false_1 in Eg.
  destruct (gen_children map cur directions [] None next_id)
    as [[[children cp] next_id']|e] eqn:Egen.
  - destruct (push_children map children cp cur goal_node heuristic_mode
                (closed_list ++ [Node.position cur]) open')
      as [open''|e] eqn:Epush.
    + apply IH. eapply expansion_inv; eauto.
    + right.
      apply gen_children_spec in Egen as ((new & -> & _ & Hnew) & Hread & Hcp).
      unfold directions in Hread, Hcp. cbn [last] in Hcp. subst cp.
      rewrite !Forall_cons in Hread.
      destruct Hread as (_ & _ & _ & [v Hv] & _).
      apply push_children_raise in Epush as [Hr|(-> & child & Hin & Hh)];
        [congruence|].
      split; [reflexivity|]. exists cur, child.
      rewrite Forall_forall in Hnew. specialize (Hnew child Hin).
      repeat split; try assumption; apply Hnew.
  - left. apply gen_children_raise in Egen as (-> & d & Hd & Hr).
    split; [reflexivity|]. exists cur, d. auto.
Qed.

End Invariant.

(** The result does not change once the fuel suffices. *)
Lemma a_star_loop_more_fuel map goal_node heuristic_mode fuel :
  forall fuel' open_list closed_list next_id,
    a_star_loop fuel map goal_node heuristic_mode open_list closed_list next_id
      <> OutOfFuel ->
    (fuel <= fuel')%nat ->
    a_star_loop fuel' map goal_node heuristic_mode open_list closed_list next_id
    = a_star_loop fuel map goal_node heuristic_mode open_list closed_list
        next_id.
Proof.
  induction fuel as [|fuel IH]; intros fuel' open_list closed_list next_id Hr Hle;
    [cbn in Hr; congruence|].
  destruct fuel' as [|fuel']; [lia|]. cbn [a_star_loop] in *.
  destruct open_list; [reflexivity|].
  destruct (heapq.heappop Node.lt _) as [[cur open']|]; [|reflexivity].
  destruct (bool_decide _); [reflexivity|].
  destruct (gen_children _ _ _ _ _ _) as [[[children cp] nid]|]; [|reflexivity].
  destruct (push_children _ _ _ _ _ _ _ _); [|reflexivity].
  apply IH; [exact Hr|lia].
Qed.

(** ** The search terminates *)

Section Termination.

Variable map : Map_Obj.

Lemma elem_of_box p : p ∈ Measure.box map <-> Grid.readable map p.
Proof.
  unfold Measure.box, Grid.readable. destruct p as [r c]. cbn [fst snd].
  rewrite list_elem_of_bind. split.
  - intros (r' & Hin & Hr). apply list_elem_of_bind in Hin as (c' & Hin & Hc).
    apply list_elem_of_singleton in Hin as [= -> ->].
    apply elem_of_seqZ in Hr. apply elem_of_seqZ in Hc. lia.
  - intros [Hr Hc]. exists r. split; [|apply elem_of_seqZ; lia].
    apply list_elem_of_bind. exists c. split; [|apply elem_of_seqZ; lia].
    apply list_elem_of_singleton. reflexivity.
Qed.

Lemma passable_in_box p : Grid.passable map p -> p ∈ Measure.box map.
Proof.
  intros (v & Hv & _). apply elem_of_box.
  eapply get_cell_value_readable. exact Hv.
Qed.

(** Closing a position never adds an unclosed one, and closing a
    fresh position removes one. *)
Lemma unclosed_close closed_list p (l : list pos) :
  (length (filter (fun q => q ∉ closed_list ++ [p]) l)
     <= length (filter (fun q => q ∉ closed_list) l))%nat /\
  (p ∉ l \/ p ∈ closed_list ->
   length (filter (fun q => q ∉ closed_list ++ [p]) l)
     = length (filter (fun q => q ∉ closed_list) l)) /\
  (p ∈ l -> p ∉ closed_list ->
   (length (filter (fun q => q ∉ closed_list ++ [p]) l)
      < length (filter (fun q => q ∉ closed_list) l))%nat).
Proof.
  induction l as [|q l (IHle & IHeq & IHlt)].
  { split; [reflexivity|]. split; [reflexivity|].
    intros H. apply not_elem_of_nil in H. contradiction. }
  rewrite !filter_cons.
  destruct (decide (q ∉ closed_list ++ [p])) as [Hq|Hq];
    destruct (decide (q ∉ closed_list)) as [Hq'|Hq']; cbn [length].
  - split; [lia|]. split.
    + intros H. f_equal. apply IHeq.
      destruct H as [H|H]; [left|right; exact H].
      intros Hin. apply H. right. exact Hin.
    + intros Hin Hnc. apply elem_of_cons in Hin as [->|Hin].
      * exfalso. apply Hq. apply elem_of_app. right. left.
      * apply IHlt in Hin; [lia|exact Hnc].
  - exfalso. apply Hq'. intros Hin. apply Hq.
    apply elem_of_app. left. exact Hin.
  - assert (q = p) as ->.
    { apply dec_stable in Hq. apply elem_of_app in Hq as [Hin|Hin];
        [contradiction|]. apply list_elem_of_singleton in Hin. exact Hin. }
    split; [lia|]. split; [|lia].
    intros [H|H]; exfalso; [apply H; left|contradiction].
  - split; [lia|]. split.
    + intros H. apply IHeq.
      destruct H as [H|H]; [left|right; exact H].
      intros Hin. apply H. right. exact Hin.
    + intros Hin Hnc. apply elem_of_cons in Hin as [->|Hin].
      * exfalso. apply Hq'. exact Hnc.
      * apply IHlt in Hin; [lia|exact Hnc].
Qed.

Lemma unclosed_fresh closed_list p :
  Measure.fresh map closed_list p ->
  (Measure.unclosed map (closed_list ++ [p])
     < Measure.unclosed map closed_list)%nat.
Proof. intros [Hb Hc]. apply unclosed_close; assumption. Qed.

Lemma unclosed_stale closed_list p :
  ~ Measure.fresh map closed_list p ->
  Measure.unclosed map (closed_list ++ [p]) = Measure.unclosed map closed_list.
Proof.
  intros Hn. apply unclosed_close.
  destruct (decide (p ∈ Measure.box map)) as [Hb|Hb]; [|left; exact Hb].
  destruct (decide (p ∈ closed_list)) as [Hc|Hc]; [right; exact Hc|].
  exfalso. apply Hn. split; assumption.
Qed.

(** Closing a position that is not fresh changes no weight. *)
Lemma weight_stale closed_list p n :
  ~ Measure.fresh map closed_list p ->
  Measure.weight map (closed_list ++ [p]) n = Measure.weight map closed_list n.
Proof.
  intros Hn. unfold Measure.weight.
  destruct (decide (Measure.fresh map (closed_list ++ [p]) (Node.position n)))
    as [[Hb Hc]|H1];
    destruct (decide (Measure.fresh map closed_list (Node.position n)))
    as [[Hb' Hc']|H2]; try reflexivity; exfalso.
  - apply H2. split; [exact Hb|]. intros Hin. apply Hc.
    apply elem_of_app. left. exact Hin.
  - apply H1. split; [exact Hb'|]. intros Hin.
    apply elem_of_app in Hin as [Hin|Hin]; [contradiction|].
    apply list_elem_of_singleton in Hin. apply Hn. rewrite <- Hin.
    split; assumption.
Qed.

Lemma load_stale closed_list p open_list :
  ~ Measure.fresh map closed_list p ->
  Measure.load map (closed_list ++ [p]) open_list
  = Measure.load map closed_list open_list.
Proof.
  intros Hn. unfold Measure.load.
  induction open_list as [|n open_list IH]; [reflexivity|].
  cbn. rewrite IH, weight_stale by exact Hn. reflexivity.
Qed.

(** Pushed children sit on fresh positions: they weigh one each. *)
Lemma load_pushed closed_list current_node children pushed :
  Forall (child_of map current_node) children ->
  Forall (fun n => (Node.position n ∉ closed_list) /\
            exists child, child ∈ children /\
              Node.position n = Node.position child /\
              Node.parent n = Node.parent child) pushed ->
  Measure.load map closed_list pushed = length pushed.
Proof.
  intros Hch Hp. rewrite Forall_forall in Hch. unfold Measure.load.
  induction Hp as [|n pushed (Hc & child & Hin & Hpos & _) _ IH];
    [reflexivity|].
  cbn. rewrite IH. unfold Measure.weight.
  destruct (decide (Measure.fresh map closed_list (Node.position n)))
    as [|Hn]; [reflexivity|].
  exfalso. apply Hn. split; [|exact Hc].
  rewrite Hpos. apply passable_in_box.
  destruct (Hch child Hin) as (_ & d & _ & _ & Hpass). exact Hpass.
Qed.

Variables (goal_node : Node.t) (heuristic_mode : Z).

(** Every iteration either closes a fresh position or lowers the
    load of the open list; so some amount of fuel is enough. *)
Lemma a_star_loop_terminates_measured (u : nat) :
  forall (w : nat) open_list closed_list next_id,
    (Measure.unclosed map closed_list <= u)%nat ->
    (Measure.load map closed_list open_list <= w)%nat ->
    exists fuel,
      a_star_loop fuel map goal_node heuristic_mode open_list closed_list
        next_id <> OutOfFuel.
Proof.
  induction u as [u IHu] using lt_wf_ind.
  induction w as [w IHw] using lt_wf_ind.
  intros open_list closed_list next_id Hu Hw.
  destruct open_list as [|n0 rest] eqn:Eo; [exists 1%nat; discriminate|].
  rewrite <- Eo in *.
  destruct (heappop_nonempty Node.lt open_list) as (cur & open' & Epop);
    [rewrite Eo; discriminate|].
  pose proof (heappop_perm _ _ _ _ Epop) as Hperm.
  assert (Hstep : forall fuel,
    a_star_loop (S fuel) map goal_node heuristic_mode open_list closed_list
      next_id
    = let closed_list := closed_list ++ [Node.position cur] in
      if bool_decide (Node.position cur = Node.position goal_node)
      then Path (path_to_goal cur)
      else
        match gen_children map cur directions [] None next_id with
        | Raise e => Error e
        | Ok (children, child_position, next_id) =>
            match push_children map children child_position cur goal_node
                    heuristic_mode closed_list open' with
            | Raise e => Error e
            | Ok open_list =>
                a_star_loop fuel map goal_node heuristic_mode open_list
                  closed_list next_id
            end
        end).
  { intros fuel. cbn [a_star_loop]. rewrite Eo, <- Eo, Epop. reflexivity. }
  cbv zeta in Hstep.
  destruct (bool_decide (Node.position cur = Node.position goal_node)) eqn:Eg.
  { exists 1%nat. rewrite Hstep. discriminate. }
  destruct (gen_children map cur directions [] None next_id)
    as [[[children cp] next_id']|e] eqn:Egen;
    [|exists 1%nat; rewrite Hstep; discriminate].
  destruct (push_children map children cp cur goal_node heuristic_mode
              (closed_list ++ [Node.position cur]) open')
    as [open''|e] eqn:Epush;
    [|exists 1%nat; rewrite Hstep; discriminate].
  assert (Hnext : exists fuel,
    a_star_loop fuel map goal_node heuristic_mode open''
      (closed_list ++ [Node.position cur]) next_id' <> OutOfFuel).
  { destruct (decide (Measure.fresh map closed_list (Node.position cur)))
      as [Hf|Hf].
    - apply unclosed_fresh in Hf.
      eapply (IHu (Measure.unclosed map (closed_list ++ [Node.position cur])));
        [lia|reflexivity|reflexivity].
    - apply gen_children_spec in Egen as ((new & Hnew & Hlen & Hall) & _ & _).
      cbn in Hnew. subst children.
      pose proof (push_children_spec _ _ _ _ _ _ _ _ _ Epush)
        as (pushed & Hp & Hlenp & Hallp).
      assert (Hload :
        (Measure.load map (closed_list ++ [Node.position cur]) open'' < w)%nat).
      { unfold Measure.load at 1. rewrite Hp, sum_list_with_app.
        fold (Measure.load map (closed_list ++ [Node.position cur]) pushed).
        fold (Measure.load map (closed_list ++ [Node.position cur]) open').
        rewrite (load_pushed _ cur new pushed Hall Hallp).
        rewrite load_stale by exact Hf.
        unfold Measure.load in Hw. rewrite Hperm in Hw. cbn in Hw.
        fold (Measure.load map closed_list open') in Hw.
        assert (Measure.weight map closed_list cur = 5%nat) as Hw5.
        { unfold Measure.weight. destruct (decide _); [contradiction|reflexivity]. }
        cbn in Hlen. lia. }
      apply (IHw _ Hload); [|reflexivity].
      rewrite unclosed_stale by exact Hf. exact Hu. }
  destruct Hnext as [fuel Hfuel]. exists (S fuel). rewrite Hstep. exact Hfuel.
Qed.

Theorem a_star_loop_terminates open_list closed_list next_id :
  exists fuel,
    a_star_loop fuel map goal_node heuristic_mode open_list closed_list
      next_id <> OutOfFuel.
Proof.
  eapply a_star_loop_terminates_measured; reflexivity.
Qed.

End Termination.

(** ** Paths are parent chains *)

Lemma node_ind (P : Node.t -> Prop) :
  (forall i p a h t, P (Node.mk i p None a h t)) ->
  (forall i p n a h t, P n -> P (Node.mk i p (Some n) a h t)) ->
  forall n, P n.
Proof.
  intros Hroot Hstep. fix IH 1. intros [i p [n|] a h t].
  - apply Hstep. apply IH.
  - apply Hroot.
Qed.

Lemma ancestors_unfold (n : Node.t) :
  ancestors n = Node.position n ::
                match Node.parent n with
                | None => []
                | Some p => ancestors p
                end.
Proof. destruct n. reflexivity. Qed.

Lemma path_to_goal_loop_ancestors (n : Node.t) :
  forall path, path_to_goal_loop n path = path ++ ancestors n.
Proof.
  induction n using node_ind; intros path;
    cbn [path_to_goal_loop ancestors].
  - reflexivity.
  - rewrite IHn, <- app_assoc. reflexivity.
Qed.

(** [path_to_goal] is the reversed chain of parent links, which ends at
    the node without parent. *)
Lemma path_to_goal_ancestors (n : Node.t) :
  path_to_goal n = reverse (ancestors n).
Proof. unfold path_to_goal. rewrite path_to_goal_loop_ancestors. reflexivity. Qed.

Lemma directions_cases (d : Z * Z) :
  d ∈ directions -> d = (0, 1) \/ d = (1, 0) \/ d = (0, -1) \/ d = (-1, 0).
Proof.
  unfold directions. rewrite !elem_of_cons.
  intros [H|[H|[H|[H|H]]]]; auto. apply not_elem_of_nil in H. contradiction.
Qed.

Lemma towards_step (p : pos) (d : Z * Z) :
  d ∈ directions -> orthogonal_step (Grid.towards p d) p.
Proof.
  intros Hd. unfold orthogonal_step, Grid.towards.
  destruct (directions_cases d Hd) as [-> | [-> | [-> | ->]]]; cbn [fst snd]; lia.
Qed.

Lemma orthogonal_step_sym (p q : pos) : orthogonal_step p q -> orthogonal_step q p.
Proof. unfold orthogonal_step. lia. Qed.

Lemma contiguous_lookup (path : list pos) :
  contiguous path <->
  forall (i : nat) p q,
    path !! i = Some p -> path !! S i = Some q -> orthogonal_step p q.
Proof.
  induction path as [|a path IH]; [split; [intros _ i p q H; discriminate|constructor]|].
  destruct path as [|b path].
  { split; [intros _ [|i] p q _ H; discriminate|constructor]. }
  change (contiguous (a :: b :: path))
    with (orthogonal_step a b /\ contiguous (b :: path)).
  rewrite IH. split.
  - intros [Hab Hrest] [|i] p q Hp Hq.
    + cbn in Hp, Hq. congruence.
    + apply (Hrest i); assumption.
  - intros H. split; [apply (H 0%nat); reflexivity|].
    intros i p q Hp Hq. apply (H (S i)); assumption.
Qed.

Lemma contiguous_reverse (path : list pos) :
  contiguous path -> contiguous (reverse path).
Proof.
  rewrite !contiguous_lookup. intros H i p q Hp Hq.
  assert (Hlen : (S i < length path)%nat).
  { apply lookup_lt_Some in Hq. rewrite length_reverse in Hq. exact Hq. }
  rewrite reverse_lookup in Hp, Hq by lia.
  apply orthogonal_step_sym.
  apply (H (length path - S (S i))%nat); [exact Hq|].
  replace (S (length path - S (S i))) with (length path - S i)%nat by lia.
  exact Hp.
Qed.

Section Paths.

Variables (map : Map_Obj) (start goal : pos) (heuristic_mode : Z).

Lemma chained_ext n n' :
  Node.position n = Node.position n' -> Node.parent n = Node.parent n' ->
  chained start n -> chained start n'.
Proof.
  unfold chained. rewrite (ancestors_unfold n), (ancestors_unfold n').
  intros -> ->. auto.
Qed.

Lemma chained_child current_node n :
  chained start current_node -> child_of map current_node n ->
  chained start n.
Proof.
  intros [Hc Hl] (Hpar & d & Hd & Hpos & _). unfold chained.
  rewrite (ancestors_unfold n), Hpar.
  rewrite (ancestors_unfold current_node) in *.
  split.
  - split; [|exact Hc]. rewrite Hpos. apply towards_step, Hd.
  - exact Hl.
Qed.

Lemma a_star_path_chained fuel path :
  a_star fuel map start goal heuristic_mode = Path path ->
  exists n, chained start n /\ Node.position n = goal /\
            path = reverse (ancestors n).
Proof.
  unfold a_star. rewrite heappush_empty. intros H.
  pose proof (a_star_loop_inv map (Node.new 1 goal None) heuristic_mode
                (chained start) chained_ext
                (fun c n Hc _ Hn => chained_child c n Hc Hn)
                fuel [Node.new 0 start None] [] 2%nat) as Hinv.
  rewrite H in Hinv.
  destruct Hinv as (n & Hn & Hpos & ->).
  - constructor; [|constructor]. split; [exact I|reflexivity].
  - exists n. rewrite path_to_goal_ancestors. auto.
Qed.

End Paths.

(** C5. Consecutive positions of a returned path differ by exactly one
    orthogonal step: by 1 in one coordinate and not at all in the
    other. *)
Theorem a_star_path_contiguous (fuel : nat) (map : Map_Obj) (start goal : pos)
    (heuristic_mode : Z) (path : list pos) (i : nat) (p q : pos) :
  a_star fuel map start goal heuristic_mode = Path path ->
  path !! i = Some p -> path !! S i = Some q ->
  (Z.abs (fst p - fst q) = 1 /\ snd p = snd q) \/
  (fst p = fst q /\ Z.abs (snd p - snd q) = 1).
Proof.
  intros H. apply a_star_path_chained in H as (n & [Hc _] & _ & ->).
  apply contiguous_reverse in Hc. rewrite contiguous_lookup in Hc. apply Hc.
Qed.

Lemma a_star_path_contiguous_witness :
  (Z.abs (fst (2, 1) - fst (2, 2)) = 1 /\ snd (2, 1) = snd (2, 2)) \/
  (fst (2, 1) = fst (2, 2) /\ Z.abs (snd (2, 1) - snd (2, 2)) = 1).
Proof.
  apply (a_star_path_contiguous 3 Inputs.room_map (1, 1) (2, 2) 1
           [(1, 1); (2, 1); (2, 2)] 1 (2, 1) (2, 2)).
  - vm_compute. reflexivity.
  - reflexivity.
  - reflexivity.
Defined.

(** C6. A returned path starts at the start and ends at the goal; it
    is the reversed sequence of the positions met from the node popped
    on the goal along the parent links, down to the node without
    parent, which is the start node. *)
Theorem a_star_path_endpoints (fuel : nat) (map : Map_Obj) (start goal : pos)
    (heuristic_mode : Z) (path : list pos) :
  a_star fuel map start goal heuristic_mode = Path path ->
  head path = Some start /\ last path = Some goal /\
  exists node,
    Node.position node = goal /\
    last (ancestors node) = Some start /\
    path = path_to_goal node /\
    path_to_goal node = reverse (ancestors node).
Proof.
  intros H. apply a_star_path_chained in H as (n & [_ Hl] & Hpos & ->).
  repeat split.
  - rewrite head_reverse. exact Hl.
  - rewrite last_reverse, ancestors_unfold, Hpos. reflexivity.
  - exists n. rewrite path_to_goal_ancestors. auto.
Qed.

Lemma a_star_path_endpoints_witness :
  head [(1, 1); (2, 1); (2, 2)] = Some (1, 1) /\
  last [(1, 1); (2, 1); (2, 2)] = Some (2, 2) /\
  exists node,
    Node.position node = (2, 2) /\
    last (ancestors node) = Some (1, 1) /\
    [(1, 1); (2, 1); (2, 2)] = path_to_goal node /\
    path_to_goal node = reverse (ancestors node).
Proof.
  apply (a_star_path_endpoints 3 Inputs.room_map (1, 1) (2, 2) 1).
  vm_compute. reflexivity.
Defined.

(** ** An enclosed goal *)

Lemma a_star_more_fuel map start goal heuristic_mode fuel fuel' :
  a_star fuel map start goal heuristic_mode <> OutOfFuel ->
  (fuel <= fuel')%nat ->
  a_star fuel' map start goal heuristic_mode
  = a_star fuel map start goal heuristic_mode.
Proof. unfold a_star. apply a_star_loop_more_fuel. Qed.

Lemma a_star_terminates map start goal heuristic_mode :
  exists fuel, a_star fuel map start goal heuristic_mode <> OutOfFuel.
Proof. unfold a_star. apply a_star_loop_terminates. Qed.

Lemma obstacle_not_passable map p : Grid.obstacle map p -> ~ Grid.passable map p.
Proof. unfold Grid.obstacle. intros H (v & Hv & Hne). congruence. Qed.

(** C7, checked on two grids without walls around them.  In the 3x3
    cross the goal (1, 1) has an obstacle on each of its four sides and
    the start (2, 2) is a free cell: there is no path, and the search,
    whose docstring promises [None] then, raises [IndexError] on the
    neighbour (3, 2) of the start, whatever the fuel.  In the 4x4 seam
    grid every neighbour the grid gives the goal (0, 2) is an obstacle,
    and the search returns a path all the same: it leaves the start
    (0, 0) through row -1, which numpy reads as the last row. *)
Theorem a_star_enclosed_goal_not_none :
  (Grid.enclosed Inputs.cross_map (1, 1) /\
   Grid.passable Inputs.cross_map (2, 2) /\
   get_cell_value Inputs.cross_map (3, 2) = Raise IndexError /\
   forall fuel, a_star (S fuel) Inputs.cross_map (2, 2) (1, 1) 1
                = Error IndexError) /\
  (Grid.enclosed Inputs.seam_map (0, 2) /\
   Grid.passable Inputs.seam_map (0, 0) /\
   Grid.outside Inputs.seam_map (-1, 2) /\
   get_cell_value Inputs.seam_map (-1, 2) = Ok 1 /\
   forall fuel, a_star (5 + fuel) Inputs.seam_map (0, 0) (0, 2) 1
                = Path [(0, 0); (-1, 0); (-1, 1); (-1, 2); (0, 2)]).
Proof.
  split; (split; [|split; [|split]]).
  - intros d Hd _.
    destruct (directions_cases d Hd) as [-> | [-> | [-> | ->]]];
      vm_compute; reflexivity.
  - exists 1. split; [vm_compute; reflexivity|discriminate].
  - vm_compute. reflexivity.
  - intros fuel.
    rewrite (a_star_more_fuel Inputs.cross_map (2, 2) (1, 1) 1 1 (S fuel));
      [vm_compute; reflexivity|vm_compute; discriminate|lia].
  - intros d Hd.
    destruct (directions_cases d Hd) as [-> | [-> | [-> | ->]]];
      unfold Grid.inside, Grid.towards; eval_shape; intros Hin;
      try (vm_compute; reflexivity); exfalso; lia.
  - exists 1. split; [vm_compute; reflexivity|discriminate].
  - left. cbn. lia.
  - split; [vm_compute; reflexivity|]. intros fuel.
    rewrite (a_star_more_fuel Inputs.seam_map (0, 0) (0, 2) 1 5 (5 + fuel));
      [vm_compute; reflexivity|vm_compute; discriminate|lia].
Qed.

(** ** Walled grids *)

(** On a grid of fewer than [2^31] rows and columns the estimates
    between its cells fit [int64], in either mode. *)
Lemma heuristic_fits map (goal : pos) (heuristic_mode : Z) :
  Grid.inside map goal ->
  Z.of_nat (Np.shape0 (int_map map)) < 2 ^ 31 ->
  Z.of_nat (Np.shape1 (int_map map)) < 2 ^ 31 ->
  Grid.estimates_fit map goal heuristic_mode.
Proof.
  intros [Hg0 Hg1] H0 H1 n [Hn0 Hn1].
  unfold Np.int64, heuristic. cbn [Node.position Node.new].
  change (2 ^ 31) with 2147483648 in *.
  change (2 ^ 63) with 9223372036854775808.
  apply andb_true_intro. rewrite Z.leb_le, Z.ltb_lt.
  destruct (heuristic_mode =? 1); nia.
Qed.

Section WalledGrid.

Variables (map : Map_Obj) (start goal : pos) (heuristic_mode : Z).
Hypothesis start_passable : Grid.passable map start.
Hypothesis map_rectangular : Np.rectangular (int_map map).
Hypothesis map_walled : Grid.walled map.
Hypothesis start_inside : Grid.inside map start.

(** Inside walls a free cell has its four neighbours inside. *)
Lemma walled_neighbour p d :
  Grid.inside map p -> Grid.passable map p -> d ∈ directions ->
  Grid.inside map (Grid.towards p d).
Proof.
  intros Hin Hpass Hd.
  assert (Hnb : ~ (fst p = 0 \/
                   fst p = Z.of_nat (Np.shape0 (int_map map)) - 1 \/
                   snd p = 0 \/
                   snd p = Z.of_nat (Np.shape1 (int_map map)) - 1)).
  { intros Hb. apply (obstacle_not_passable map p); [|exact Hpass].
    apply map_walled; assumption. }
  unfold Grid.inside, Grid.towards in *.
  destruct (directions_cases d Hd) as [-> | [-> | [-> | ->]]];
    cbn [fst snd]; lia.
Qed.

(** Inside walls no lookup leaves the grid: the search can only raise
    on an estimate that is no [int64] value. *)
Lemma a_star_walled_error fuel e :
  a_star fuel map start goal heuristic_mode = Error e ->
  e = OverflowError /\ ~ Grid.estimates_fit map goal heuristic_mode.
Proof.
  unfold a_star. rewrite heappush_empty.
  pose proof (a_star_loop_inv map (Node.new 1 goal None) heuristic_mode
    (fun n => Grid.inside map (Node.position n) /\
              Grid.passable map (Node.position n))) as Hinv.
  specialize (Hinv ltac:(cbv beta; intros n n' -> _; auto)).
  assert (Hchild : forall c n : Node.t,
    Grid.inside map (Node.position c) /\ Grid.passable map (Node.position c) ->
    Node.position c <> Node.position (Node.new 1 goal None) ->
    child_of map c n ->
    Grid.inside map (Node.position n) /\ Grid.passable map (Node.position n)).
  { intros c n [Hin Hpass] _ (_ & d & Hd & Hpos & Hp). split; [|exact Hp].
    rewrite Hpos. apply walled_neighbour; assumption. }
  specialize (Hinv Hchild fuel [Node.new 0 start None] [] 2%nat).
  intros Heq. rewrite Heq in Hinv.
  destruct Hinv as [(_ & n & d & [Hin Hpass] & _ & Hd & Hr)
                   |(-> & n & child & Hn & Hng & Hc & Hh)].
  { constructor; [|constructor]. split; assumption. }
  - exfalso. pose proof (walled_neighbour _ d Hin Hpass Hd) as Hnb.
    apply inside_readable in Hnb. destruct Hnb as [Hr0 Hr1].
    destruct (getitem_readable (int_map map) _ _ map_rectangular Hr0 Hr1)
      as [v Hv].
    unfold get_cell_value in Hr. congruence.
  - split; [reflexivity|]. intros Hfit.
    destruct (Hchild n child Hn Hng Hc) as [Hin _].
    rewrite (Hfit child Hin) in Hh. discriminate.
Qed.

End WalledGrid.

(** ** Writing into an array *)

Section SetItem.

Context {A : Type}.
Implicit Types (a : list (list A)) (v : A).

Lemma shape1_insert a (k : nat) row row' :
  a !! k = Some row -> length row' = length row ->
  Np.shape1 (<[k := row']> a) = Np.shape1 a.
Proof.
  destruct a as [|r a]; [discriminate|].
  destruct k as [|k]; cbn; [intros [= ->]; auto|auto].
Qed.

(** A write inside the readable range succeeds and keeps the shape. *)
Lemma setitem_readable a (i j : Z) v :
  Np.rectangular a ->
  - Z.of_nat (Np.shape0 a) <= i < Z.of_nat (Np.shape0 a) ->
  - Z.of_nat (Np.shape1 a) <= j < Z.of_nat (Np.shape1 a) ->
  exists a', Np.setitem a i j v = Ok a' /\ Np.rectangular a' /\
             Np.shape0 a' = Np.shape0 a /\ Np.shape1 a' = Np.shape1 a.
Proof.
  intros Hr Hi Hj. unfold Np.setitem.
  destruct (norm_index_readable _ _ Hi) as (i' & -> & Hi').
  destruct (norm_index_readable _ _ Hj) as (j' & -> & Hj').
  destruct (lookup_lt_is_Some_2 a i' Hi') as [row Hrow]. rewrite Hrow.
  pose proof (rectangular_row _ _ _ Hr Hrow) as Hlen.
  destruct (decide (j' < length row)%nat) as [_|Hn]; [|lia].
  assert (Hs1 : Np.shape1 (<[i' := <[j' := v]> row]> a) = Np.shape1 a).
  { apply (shape1_insert a i' row); [exact Hrow|apply length_insert]. }
  eexists. split; [reflexivity|]. split; [|split].
  - unfold Np.rectangular. rewrite Hs1. apply Forall_insert; [exact Hr|].
    rewrite length_insert. exact Hlen.
  - unfold Np.shape0. apply length_insert.
  - exact Hs1.
Qed.

(** Writing back the value that is there changes nothing. *)
Lemma setitem_same a (i j : Z) v :
  Np.getitem a i j = Ok v -> Np.setitem a i j v = Ok a.
Proof.
  intros H. apply getitem_Ok in H as (i' & j' & row & Hi & Hj & Hrow & Hv).
  unfold Np.setitem. rewrite Hi, Hj, Hrow.
  destruct (decide (j' < length row)%nat) as [_|Hn].
  - rewrite (list_insert_id row j' v Hv), (list_insert_id a i' row Hrow).
    reflexivity.
  - exfalso. apply Hn. eapply lookup_lt_Some. exact Hv.
Qed.

End SetItem.

(** ** The moving goal *)

Lemma pick_move_priority (m : Map_Obj) (e : pos) :
  end_goal_pos m = Some e ->
  pick_move m = (Ok (priority_step (goal_pos m) e), m).
Proof.
  intros He. unfold pick_move, bind, get_self, ret, priority_step. cbn.
  rewrite He, Z.gtb_ltb.
  destruct (fst (goal_pos m) <? fst e); [reflexivity|].
  destruct (fst e <? fst (goal_pos m)); [reflexivity|].
  destruct (snd (goal_pos m) <? snd e); reflexivity.
Qed.

Lemma priority_step_orthogonal (g e : pos) :
  e <> g -> orthogonal_step g (priority_step g e).
Proof.
  intros Hne. unfold orthogonal_step, priority_step.
  destruct (fst g <? fst e) eqn:E1; [cbn; lia|].
  destruct (fst g >? fst e) eqn:E2; [cbn; lia|].
  destruct (snd g <? snd e) eqn:E3; cbn; lia.
Qed.

Lemma priority_step_inside (m : Map_Obj) (g e : pos) :
  Grid.inside m g -> Grid.inside m e -> e <> g ->
  Grid.inside m (priority_step g e).
Proof.
  destruct g as [g0 g1], e as [e0 e1]. unfold Grid.inside, priority_step.
  cbn [fst snd]. intros Hg He Hne.
  destruct (g0 <? e0) eqn:E1; [apply Z.ltb_lt in E1; cbn; lia|].
  destruct (g0 >? e0) eqn:E2; [apply Z.gtb_lt in E2; cbn; lia|].
  apply Z.ltb_ge in E1. rewrite Z.gtb_ltb in E2. apply Z.ltb_ge in E2.
  assert (g0 = e0) as -> by lia.
  assert (e1 <> g1) by congruence.
  destruct (g1 <? e1) eqn:E3;
    [apply Z.ltb_lt in E3|apply Z.ltb_ge in E3]; cbn; lia.
Qed.

Lemma Map_inv_set_tick_counter (m : Map_Obj) (c : Z) :
  Map_inv m -> Map_inv (set_tick_counter c m).
Proof. intros []. constructor; assumption. Qed.

(** Moving the goal to a cell of the grid succeeds; it leaves the
    integer map as it was and keeps the invariant. *)
Lemma move_goal_pos_inside (m : Map_Obj) (p : pos) :
  Map_inv m -> Grid.inside m p ->
  exists m',
    move_goal_pos p m = (Ok tt, m') /\
    goal_pos m' = p /\ int_map m' = int_map m /\
    tick_counter m' = tick_counter m /\ end_goal_pos m' = end_goal_pos m /\
    Map_inv m'.
Proof.
  intros [Hir Hsr Hs0 Hs1 Hg He Ht] Hp.
  destruct (getitem_readable (int_map m) (fst p) (snd p) Hir) as [v Hv];
    try (apply inside_readable in Hp; apply Hp).
  pose proof (setitem_same _ _ _ _ Ht) as Hint.
  destruct (setitem_readable (str_map m) (fst (goal_pos m)) (snd (goal_pos m))
              (str_value_of (tmp_cell_value m)) Hsr)
    as (s1 & Es1 & Hs1r & Hs10 & Hs11);
    try (rewrite ?Hs0, ?Hs1; apply inside_readable in Hg; apply Hg).
  destruct (setitem_readable s1 (fst p) (snd p) " G " Hs1r)
    as (s2 & Es2 & Hs2r & Hs20 & Hs21);
    try (rewrite ?Hs10, ?Hs11, ?Hs0, ?Hs1; apply inside_readable in Hp; apply Hp).
  eexists. split.
  - unfold move_goal_pos, replace_map_values, bind, get_self, lift, modify,
      get_cell_value. cbn.
    rewrite Hv. cbn. rewrite Hint. cbn. rewrite Es1. cbn. rewrite Es2. cbn.
    reflexivity.
  - cbn. destruct p as [p0 p1]. do 4 (split; [reflexivity|]).
    constructor;
      [exact Hir|exact Hs2r| | |exact Hp|exact He|exact Hv];
      cbn -[Np.shape0 Np.shape1]; congruence.
Qed.

(** A call on a multiple of four, with the goal away from the end
    goal, moves the goal by the priority rule and returns it. *)
Lemma tick_moves (m : Map_Obj) (e : pos) :
  Map_inv m -> tick_counter m mod 4 = 0 ->
  end_goal_pos m = Some e -> e <> goal_pos m ->
  exists m',
    tick m = (Ok (priority_step (goal_pos m) e), m') /\
    goal_pos m' = priority_step (goal_pos m) e /\
    int_map m' = int_map m /\
    tick_counter m' = tick_counter m + 1 /\
    end_goal_pos m' = Some e /\
    Map_inv m'.
Proof.
  intros Hinv Hc He Hne.
  destruct (move_goal_pos_inside m (priority_step (goal_pos m) e) Hinv)
    as (m1 & Hmove & Hg1 & Hi1 & Hc1 & He1 & Hinv1).
  { apply priority_step_inside; [apply Hinv|apply Hinv; exact He|exact Hne]. }
  exists (set_tick_counter (tick_counter m1 + 1) m1). split.
  - unfold tick. unfold bind at 1. unfold get_self at 1.
    rewrite Hc. cbn [Z.eqb]. rewrite He.
    rewrite bool_decide_eq_false_2 by exact Hne.
    unfold bind at 1. rewrite (pick_move_priority m e He).
    unfold bind at 1. rewrite Hmove.
    unfold tick_tail, bind, modify, get_self, ret. cbn. rewrite Hg1.
    reflexivity.
  - cbn. rewrite Hc1, He1, He.
    do 4 (split; [assumption || reflexivity|]).
    apply Map_inv_set_tick_counter. exact Hinv1.
Qed.

Section Cadence.

Variables (m : Map_Obj) (e : pos).
Hypothesis m_inv : Map_inv m.
Hypothesis m_end : end_goal_pos m = Some e.
Hypothesis m_away : e <> goal_pos m.

Lemma phase_start : phase m e (goal_pos m) 0 m.
Proof. constructor; auto. lia. Qed.

Lemma tick_phase_counts g i m_i :
  phase m e g i m_i -> (tick_counter m + i) mod 4 <> 0 ->
  exists m', tick m_i = (Ok g, m') /\ phase m e g (i + 1) m'.
Proof.
  intros [Hinv Hg He Hint Hc] Hmod.
  exists (set_tick_counter (tick_counter m_i + 1) m_i). split.
  - rewrite tick_counts by (rewrite Hc; exact Hmod). rewrite Hg. reflexivity.
  - constructor; cbn; try assumption.
    + apply Map_inv_set_tick_counter. exact Hinv.
    + lia.
Qed.

Lemma tick_phase_moves i m_i :
  phase m e (goal_pos m) i m_i -> (tick_counter m + i) mod 4 = 0 ->
  exists m',
    tick m_i = (Ok (priority_step (goal_pos m) e), m') /\
    phase m e (priority_step (goal_pos m) e) (i + 1) m'.
Proof.
  intros [Hinv Hg He Hint Hc] Hmod.
  destruct (tick_moves m_i e Hinv) as (m' & Ht & Hg' & Hi' & Hc' & He' & Hinv');
    [rewrite Hc; exact Hmod|exact He|rewrite Hg; exact m_away|].
  rewrite Hg in Ht, Hg'. exists m'. split; [exact Ht|].
  constructor; try assumption; [congruence|lia].
Qed.

Lemma after_ticks_S (n : nat) :
  forall m0, after_ticks (S n) m0 = snd (tick (after_ticks n m0)).
Proof.
  induction n as [|n IH]; intros m0; [reflexivity|].
  change (after_ticks (S (S n)) m0) with (after_ticks (S n) (snd (tick m0))).
  rewrite IH. reflexivity.
Qed.

Lemma tick_trace_lookup (n : nat) :
  forall m0 (i : nat), (i < n)%nat ->
    tick_trace n m0 !! i = Some (tick (after_ticks i m0)).
Proof.
  induction n as [|n IH]; intros m0 i Hi; [lia|].
  destruct i as [|i]; [reflexivity|]. cbn. apply IH. lia.
Qed.

Local Abbreviation k := (relocating_call m).

Lemma k_bound : (k < 4)%nat.
Proof.
  unfold relocating_call.
  pose proof (Z.mod_pos_bound (- tick_counter m) 4). lia.
Qed.

Lemma k_multiple (i : nat) :
  (i < 4)%nat -> (tick_counter m + Z.of_nat i) mod 4 = 0 <-> i = k.
Proof.
  intros Hi. unfold relocating_call.
  pose proof (Z.mod_pos_bound (- tick_counter m) 4 ltac:(lia)) as Hb.
  pose proof (Z.div_mod (- tick_counter m) 4 ltac:(lia)) as Hd.
  pose proof (Z.mod_pos_bound (tick_counter m + Z.of_nat i) 4 ltac:(lia)) as Hb'.
  pose proof (Z.div_mod (tick_counter m + Z.of_nat i) 4 ltac:(lia)) as Hd'.
  lia.
Qed.

Lemma phase_after_ticks (i : nat) :
  (i <= 4)%nat ->
  phase m e (if decide (i <= k)%nat then goal_pos m
             else priority_step (goal_pos m) e)
    (Z.of_nat i) (after_ticks i m).
Proof.
  induction i as [|i IH]; intros Hi.
  { rewrite decide_True by lia. apply phase_start. }
  specialize (IH ltac:(lia)). rewrite after_ticks_S.
  replace (Z.of_nat (S i)) with (Z.of_nat i + 1) by lia.
  pose proof (k_multiple i ltac:(lia)) as Hk.
  destruct (decide (i <= k)%nat) as [Hle|Hgt].
  - destruct (decide (i = k)) as [Heq|Hneq].
    + rewrite decide_False by lia.
      destruct (tick_phase_moves _ _ IH) as (m' & -> & Hph);
        [apply Hk; exact Heq|exact Hph].
    + rewrite decide_True by lia.
      destruct (tick_phase_counts _ _ _ IH) as (m' & -> & Hph);
        [rewrite Hk; exact Hneq|exact Hph].
  - rewrite decide_False by lia.
    destruct (tick_phase_counts _ _ _ IH) as (m' & -> & Hph);
      [rewrite Hk; lia|exact Hph].
Qed.

End Cadence.

Lemma corridor_map_inv : Map_inv Inputs.corridor_map.
Proof.
  constructor.
  - repeat constructor.
  - repeat constructor.
  - reflexivity.
  - reflexivity.
  - unfold Grid.inside. eval_shape.
    change (goal_pos Inputs.corridor_map) with (0, 2). cbn. lia.
  - intros e [= <-]. unfold Grid.inside. eval_shape. cbn. lia.
  - vm_compute. reflexivity.
Defined.

(** The corridor, call by call: the goal leaves (0, 2) on the first
    call and moves again on the fifth. *)
Example corridor_ticks :
  map fst (tick_trace 5 Inputs.corridor_map)
  = [Ok (1, 2); Ok (1, 2); Ok (1, 2); Ok (1, 2); Ok (1, 1)] /\
  int_map (after_ticks 5 Inputs.corridor_map) = Inputs.corridor /\
  str_map (after_ticks 5 Inputs.corridor_map)
  = [[" S "; " , "; " : "]; [" ; "; " G "; " , "]].
Proof. repeat split; vm_compute; reflexivity. Qed.

(** The constructor establishes the invariant of a map. *)
Lemma init_inv (start goal : pos) (end_goal : option pos) (path : string)
    (data : list (list Z)) (data_str : list (list string)) :
  let self0 := mkMap start goal end_goal path data data_str 0 0 in
  Np.rectangular data -> Np.rectangular data_str ->
  Np.shape0 data_str = Np.shape0 data -> Np.shape1 data_str = Np.shape1 data ->
  Grid.inside self0 start -> Grid.inside self0 goal ->
  (forall e, end_goal = Some e -> Grid.inside self0 e) ->
  exists m, init start goal end_goal path data data_str = (Ok m, m) /\
            Map_inv m /\ int_map m = data /\ tick_counter m = 0 /\
            goal_pos m = goal /\ end_goal_pos m = end_goal.
Proof.
  intros self0 Hd Hs Hs0 Hs1 Hstart Hgoal Hend.
  destruct (getitem_readable data (fst goal) (snd goal) Hd) as [v Hv];
    try (apply inside_readable in Hgoal; apply Hgoal).
  destruct (setitem_readable data_str (fst start) (snd start) " S " Hs)
    as (s1 & Es1 & Hs1r & Hs10 & Hs11);
    try (rewrite ?Hs0, ?Hs1; apply inside_readable in Hstart; apply Hstart).
  destruct (setitem_readable s1 (fst goal) (snd goal) " G " Hs1r)
    as (s2 & Es2 & Hs2r & Hs20 & Hs21);
    try (rewrite ?Hs10, ?Hs11, ?Hs0, ?Hs1; apply inside_readable in Hgoal;
         apply Hgoal).
  eexists. split.
  - unfold init, set_cell_value, bind, get_self, lift, modify, get_cell_value.
    cbn. rewrite Hv. cbn. rewrite Es1. cbn. rewrite Es2. cbn. reflexivity.
  - split; [|repeat split].
    constructor;
      [exact Hd|exact Hs2r| | |exact Hgoal|exact Hend|exact Hv];
      cbn -[Np.shape0 Np.shape1]; congruence.
Qed.

(** ** What [tick] does to the counter and to the invariant *)

Lemma move_goal_pos_tick_counter (m : Map_Obj) (p : pos) :
  tick_counter (snd (move_goal_pos p m)) = tick_counter m.
Proof.
  unfold move_goal_pos, replace_map_values, bind, get_self, lift, modify. cbn.
  destruct (get_cell_value m p); [|reflexivity]. cbn.
  destruct (Np.setitem (int_map m) _ _ _); [|reflexivity]. cbn.
  destruct (Np.setitem (str_map m) _ _ _); [|reflexivity]. cbn.
  destruct (Np.setitem _ _ _ _); reflexivity.
Qed.

(** The counter never goes down, and a call adds at most one: whatever
    the map, and also when the call raises. *)
Lemma tick_counter_step (m : Map_Obj) :
  tick_counter (snd (tick m)) = tick_counter m \/
  tick_counter (snd (tick m)) = tick_counter m + 1.
Proof.
  cut (forall c, c = tick_counter (snd (tick m)) ->
                 c = tick_counter m \/ c = tick_counter m + 1);
    [intros H; apply H; reflexivity|].
  intros c. unfold tick. unfold bind at 1. unfold get_self at 1.
  destruct (tick_counter m mod 4 =? 0); [|intros ->; right; reflexivity].
  destruct (end_goal_pos m) as [e|] eqn:He; [|intros ->; left; reflexivity].
  destruct (bool_decide (e = goal_pos m)); [intros ->; left; reflexivity|].
  unfold bind at 1. rewrite (pick_move_priority m e He).
  unfold bind at 1.
  pose proof (move_goal_pos_tick_counter m (priority_step (goal_pos m) e)) as Hc.
  destruct (move_goal_pos (priority_step (goal_pos m) e) m) as [[[]|ex] m1];
    cbn in *; intros ->; [right|left]; congruence.
Qed.

Lemma tick_preserves_inv (m : Map_Obj) : Map_inv m -> Map_inv (snd (tick m)).
Proof.
  intros Hinv. destruct (Z.eq_dec (tick_counter m mod 4) 0) as [Hc|Hc].
  - destruct (end_goal_pos m) as [e|] eqn:He.
    + destruct (decide (e = goal_pos m)) as [->|Hne].
      * rewrite tick_early_return by auto. exact Hinv.
      * destruct (tick_moves m e Hinv Hc He Hne) as (m' & -> & _ & _ & _ & _ & H).
        exact H.
    + rewrite tick_early_return by auto. exact Hinv.
  - rewrite tick_counts by exact Hc. apply Map_inv_set_tick_counter, Hinv.
Qed.

(** ** The fuel of the heap loops is enough *)

Section HeapFuel.

Context {A : Type} (lt : A -> A -> bool).

(** [_siftdown] leaves its loop after at most [pos] rounds. *)
Lemma siftdown_loop_fuel (fuel : nat) :
  forall (fuel' : nat) (heap : list A) x (startpos pos : nat),
    (pos <= fuel)%nat -> (pos <= fuel')%nat ->
    heapq.siftdown_loop lt fuel heap x startpos pos
    = heapq.siftdown_loop lt fuel' heap x startpos pos.
Proof.
  induction fuel as [|fuel IH]; intros fuel' heap x startpos pos Hf Hf'.
  - assert (pos = 0%nat) as -> by lia. destruct fuel'; [reflexivity|].
    cbn [heapq.siftdown_loop]. destruct (decide (startpos < 0)%nat); [lia|].
    reflexivity.
  - destruct fuel' as [|fuel'].
    + assert (pos = 0%nat) as -> by lia.
      cbn [heapq.siftdown_loop]. destruct (decide (startpos < 0)%nat); [lia|].
      reflexivity.
    + cbn [heapq.siftdown_loop].
      destruct (decide (startpos < pos)%nat) as [Hlt|]; [|reflexivity].
      destruct (heap !! Nat.div2 (pos - 1)); [|reflexivity].
      destruct (lt x a); [|reflexivity].
      pose proof (div2_pred_lt pos ltac:(lia)).
      apply IH; lia.
Qed.

(** [_siftup] leaves its loop after at most [len(heap) - pos] rounds. *)
Lemma siftup_loop_fuel (fuel : nat) :
  forall (fuel' : nat) (heap : list A) (pos : nat),
    (length heap - pos <= fuel)%nat -> (length heap - pos <= fuel')%nat ->
    heapq.siftup_loop lt fuel heap pos = heapq.siftup_loop lt fuel' heap pos.
Proof.
  induction fuel as [|fuel IH]; intros fuel' heap pos Hf Hf'.
  - destruct fuel'; [reflexivity|]. cbn [heapq.siftup_loop].
    destruct (decide (2 * pos + 1 < length heap)%nat); [lia|reflexivity].
  - destruct fuel' as [|fuel'].
    + cbn [heapq.siftup_loop].
      destruct (decide (2 * pos + 1 < length heap)%nat); [lia|reflexivity].
    + cbn [heapq.siftup_loop].
      destruct (decide (2 * pos + 1 < length heap)%nat) as [Hc|]; [|reflexivity].
      set (childpos :=
             if bool_decide (2 * pos + 1 + 1 < length heap)%nat &&
                match heap !! (2 * pos + 1)%nat, heap !! (2 * pos + 1 + 1)%nat with
                | Some l, Some r => negb (lt l r)
                | _, _ => false
                end
             then (2 * pos + 1 + 1)%nat else (2 * pos + 1)%nat).
      assert (Hchild : (pos < childpos)%nat).
      { subst childpos. destruct (_ && _); lia. }
      destruct (heap !! childpos); [|reflexivity].
      apply IH; rewrite length_insert; lia.
Qed.

End HeapFuel.

(** ** Small grids, evaluated *)

(** A start shut in by obstacles: the start is expanded, no child is
    generated, and the search returns [None]. *)
Example a_star_start_shut_in :
  a_star 2 (map_of Inputs.cross (1, 1) (0, 0)) (1, 1) (0, 0) 1 = NoPath.
Proof. vm_compute. reflexivity. Qed.

(** A grid without walls: the expansion of the start (0, 0) reads
    (1, 0), (0, 1), (-1, 0) and (0, -1), the last two wrapping to the
    far side; the search leaves the grid at the bottom edge and
    raises. *)
Example a_star_open_row :
  a_star 10 (map_of [[1; 3; 1; 1; 1]] (0, 0) (0, 4)) (0, 0) (0, 4) 1
  = Error IndexError.
Proof. vm_compute. reflexivity. Qed.

(** In the walled room the search with the squared Euclidean heuristic
    returns the same path as with the Manhattan one. *)
Example a_star_room_euclidean :
  a_star 3 Inputs.room_map (1, 1) (2, 2) 2 = Path [(1, 1); (2, 1); (2, 2)].
Proof. vm_compute. reflexivity. Qed.

(** * Further properties of the map class *)

(** ** Reading back what was written *)

Section SetGet.

Context {A : Type}.
Implicit Types (a : list (list A)) (v : A).

Lemma setitem_Ok a (i j : Z) v a' :
  Np.setitem a i j v = Ok a' ->
  exists (i' j' : nat) row,
    Np.norm_index (Np.shape0 a) i = Some i' /\
    Np.norm_index (Np.shape1 a) j = Some j' /\
    a !! i' = Some row /\ (j' < length row)%nat /\
    a' = <[i' := <[j' := v]> row]> a.
Proof.
  unfold Np.setitem.
  destruct (Np.norm_index (Np.shape0 a) i) as [i'|]; [|discriminate].
  destruct (Np.norm_index (Np.shape1 a) j) as [j'|]; [|discriminate].
  destruct (a !! i') as [row|] eqn:Er; [|discriminate].
  destruct (decide (j' < length row)%nat); [|discriminate].
  intros [= <-]. eauto 10.
Qed.

Lemma setitem_raise a (i j : Z) v e :
  Np.setitem a i j v = Raise e -> e = IndexError.
Proof.
  unfold Np.setitem.
  repeat (match goal with
          | |- context [match ?x with _ => _ end] => destruct x
          end); congruence.
Qed.

Lemma setitem_outside a (i j : Z) v :
  i < - Z.of_nat (Np.shape0 a) \/ Z.of_nat (Np.shape0 a) <= i \/
  j < - Z.of_nat (Np.shape1 a) \/ Z.of_nat (Np.shape1 a) <= j ->
  Np.setitem a i j v = Raise IndexError.
Proof.
  intros H. destruct (Np.setitem a i j v) as [a'|e] eqn:E.
  - apply setitem_Ok in E as (i' & j' & row & Hi & Hj & _).
    apply norm_index_Some in Hi. apply norm_index_Some in Hj. lia.
  - apply setitem_raise in E. congruence.
Qed.

Lemma setitem_shape a (i j : Z) v a' :
  Np.setitem a i j v = Ok a' ->
  Np.shape0 a' = Np.shape0 a /\ Np.shape1 a' = Np.shape1 a.
Proof.
  intros H. apply setitem_Ok in H as (i' & j' & row & _ & _ & Hrow & _ & ->).
  split; [apply length_insert|].
  apply (shape1_insert a i' row); [exact Hrow|apply length_insert].
Qed.

Lemma getitem_setitem a (i j : Z) v a' :
  Np.setitem a i j v = Ok a' -> Np.getitem a' i j = Ok v.
Proof.
  intros H. destruct (setitem_shape _ _ _ _ _ H) as [Hs0 Hs1].
  apply setitem_Ok in H as (i' & j' & row & Hi & Hj & Hrow & Hlt & ->).
  unfold Np.getitem. rewrite Hs0, Hs1, Hi, Hj.
  rewrite list_lookup_insert_eq by (eapply lookup_lt_Some; exact Hrow).
  rewrite list_lookup_insert_eq by exact Hlt. reflexivity.
Qed.

Lemma getitem_setitem_ne a (i j i2 j2 : Z) v a' :
  Np.setitem a i j v = Ok a' ->
  Np.norm_index (Np.shape0 a) i2 <> Np.norm_index (Np.shape0 a) i \/
  Np.norm_index (Np.shape1 a) j2 <> Np.norm_index (Np.shape1 a) j ->
  Np.getitem a' i2 j2 = Np.getitem a i2 j2.
Proof.
  intros H Hne. destruct (setitem_shape _ _ _ _ _ H) as [Hs0 Hs1].
  apply setitem_Ok in H as (i' & j' & row & Hi & Hj & Hrow & Hlt & ->).
  unfold Np.getitem. rewrite Hs0, Hs1, Hi, Hj in *.
  destruct (Np.norm_index (Np.shape0 a) i2) as [k|]; [|reflexivity].
  destruct (Np.norm_index (Np.shape1 a) j2) as [l|]; [|reflexivity].
  destruct (decide (k = i')) as [->|Hk].
  - rewrite list_lookup_insert_eq by (eapply lookup_lt_Some; exact Hrow).
    rewrite Hrow. rewrite list_lookup_insert_ne; [reflexivity|].
    intros ->. destruct Hne as [Hne|Hne]; apply Hne; reflexivity.
  - rewrite list_lookup_insert_ne by auto. reflexivity.
Qed.

End SetGet.

(** Two readable positions name the same cell when they wrap to the
    same coordinates. *)
Lemma norm_index_eq_wrap (n : nat) (i i2 : Z) :
  - Z.of_nat n <= i < Z.of_nat n -> - Z.of_nat n <= i2 < Z.of_nat n ->
  (if i2 <? 0 then i2 + Z.of_nat n else i2)
    <> (if i <? 0 then i + Z.of_nat n else i) ->
  Np.norm_index n i2 <> Np.norm_index n i.
Proof.
  intros Hi Hi2 Hne Heq.
  destruct (norm_index_readable n i Hi) as (k & Hk & _).
  destruct (norm_index_readable n i2 Hi2) as (k2 & Hk2 & _).
  rewrite Hk, Hk2 in Heq. injection Heq as ->.
  apply norm_index_Some in Hk as (_ & _ & Hk).
  apply norm_index_Some in Hk2 as (_ & _ & Hk2). congruence.
Qed.

Lemma wrap_ne_norm {A} (a : list (list A)) (m : Map_Obj) (p q : pos) :
  Np.shape0 a = Np.shape0 (int_map m) -> Np.shape1 a = Np.shape1 (int_map m) ->
  Grid.readable m p -> Grid.readable m q -> Grid.wrap m q <> Grid.wrap m p ->
  Np.norm_index (Np.shape0 a) (fst q) <> Np.norm_index (Np.shape0 a) (fst p) \/
  Np.norm_index (Np.shape1 a) (snd q) <> Np.norm_index (Np.shape1 a) (snd p).
Proof.
  intros -> -> [Hp0 Hp1] [Hq0 Hq1] Hne. unfold Grid.wrap in Hne.
  destruct (Z.eq_dec
              (if fst q <? 0 then fst q + Z.of_nat (Np.shape0 (int_map m))
               else fst q)
              (if fst p <? 0 then fst p + Z.of_nat (Np.shape0 (int_map m))
               else fst p)) as [E0|E0].
  - right. apply norm_index_eq_wrap; [assumption|assumption|].
    intros E1. apply Hne. rewrite E0, E1. reflexivity.
  - left. apply norm_index_eq_wrap; assumption.
Qed.

(** What an assignment into the integer map does, case by case. *)
Lemma setitem_int64_Ok (a a' : list (list Z)) (i j v : Z) :
  Np.setitem_int64 a i j v = Ok a' ->
  Np.setitem a i j v = Ok a' /\ Np.int64 v = true.
Proof.
  unfold Np.setitem_int64, Np.to_int64.
  destruct (Np.setitem a i j v); [|discriminate].
  destruct (Np.int64 v); [|discriminate]. intros [= ->]. auto.
Qed.

Lemma setitem_int64_raise (a : list (list Z)) (i j v : Z) (e : exn) :
  Np.setitem_int64 a i j v = Raise e ->
  (e = IndexError /\ Np.setitem a i j v = Raise IndexError) \/
  (e = OverflowError /\ Np.int64 v = false /\
   exists a', Np.setitem a i j v = Ok a').
Proof.
  unfold Np.setitem_int64, Np.to_int64.
  destruct (Np.setitem a i j v) as [a'|e'] eqn:E.
  - destruct (Np.int64 v); [discriminate|]. intros [= <-]. right. eauto.
  - intros [= <-]. pose proof (setitem_raise _ _ _ _ _ E) as ->. left. auto.
Qed.

(** X1. A cost written with [set_cell_value(pos, v, str_map=False)] is
    the cost read back at [pos]; the string map is untouched, and so is
    the cost of every readable position that names another cell. *)
Theorem set_cell_value_int_round_trip (m m' : Map_Obj) (p : pos) (v : Z) :
  set_cell_value p false v m = (Ok tt, m') ->
  get_cell_value m' p = Ok v /\
  str_map m' = str_map m /\
  forall q, Grid.readable m q -> Grid.wrap m q <> Grid.wrap m p ->
            get_cell_value m' q = get_cell_value m q.
Proof.
  unfold set_cell_value, bind, get_self, lift, modify. cbn.
  destruct (Np.setitem_int64 (int_map m) (fst p) (snd p) v) as [a|e] eqn:E;
    [|discriminate].
  apply setitem_int64_Ok in E as [E _].
  intros [= <-]. unfold get_cell_value. cbn.
  split; [eapply getitem_setitem; exact E|]. split; [reflexivity|].
  intros q Hq Hne. eapply getitem_setitem_ne; [exact E|].
  apply (wrap_ne_norm (int_map m) m p q); auto.
  apply setitem_Ok in E as (i' & j' & row & Hi & Hj & _).
  apply norm_index_Some in Hi. apply norm_index_Some in Hj.
  unfold Grid.readable. lia.
Qed.

Lemma set_cell_value_int_round_trip_witness :
  get_cell_value
    (snd (set_cell_value (-1, 2) false 7 Inputs.rest_map)) (-1, 2) = Ok 7 /\
  get_cell_value
    (snd (set_cell_value (-1, 2) false 7 Inputs.rest_map)) (1, 1)
  = get_cell_value Inputs.rest_map (1, 1).
Proof.
  destruct (set_cell_value_int_round_trip Inputs.rest_map
              (snd (set_cell_value (-1, 2) false 7 Inputs.rest_map))
              (-1, 2) 7) as (Hget & _ & Hother).
  - vm_compute. reflexivity.
  - split; [exact Hget|]. apply Hother.
    + unfold Grid.readable. eval_shape. lia.
    + vm_compute. discriminate.
Defined.

(** X2. A write that fails leaves the object as it was, whichever
    array was aimed at.  It fails with [IndexError], or, when the
    integer map was aimed at, with [OverflowError].  A write into the
    integer map raises [IndexError] whenever the position is not
    readable, whatever the value; on a readable position it raises
    [OverflowError] when the value is no [int64] value, and only
    then. *)
Theorem set_cell_value_failure (m : Map_Obj) (p : pos) :
  (forall (to_str_map : bool) value e m',
     set_cell_value p to_str_map value m = (Raise e, m') ->
     m' = m /\
     (e = IndexError \/ (e = OverflowError /\ to_str_map = false))) /\
  (forall v, ~ Grid.readable m p ->
     set_cell_value p false v m = (Raise IndexError, m)) /\
  (forall v, Np.rectangular (int_map m) -> Grid.readable m p ->
     Np.int64 v = false ->
     set_cell_value p false v m = (Raise OverflowError, m)) /\
  (forall v m',
     set_cell_value p false v m = (Raise OverflowError, m') ->
     Np.int64 v = false /\ Grid.readable m p).
Proof.
  split; [|split; [|split]].
  - intros [|] value e m'; unfold set_cell_value, bind, get_self, lift, modify;
      cbn.
    + destruct (Np.setitem (str_map m) (fst p) (snd p) (Np.to_U21 value))
        eqn:E; [discriminate|].
      intros [= <- <-]. split; [reflexivity|].
      left. eapply setitem_raise; exact E.
    + destruct (Np.setitem_int64 (int_map m) (fst p) (snd p) value) eqn:E;
        [discriminate|].
      intros [= <- <-]. split; [reflexivity|].
      apply setitem_int64_raise in E as [[-> _]|(-> & _ & _)]; auto.
  - intros v Hn. unfold set_cell_value, bind, get_self, lift, modify. cbn.
    unfold Np.setitem_int64.
    rewrite setitem_outside; [reflexivity|].
    unfold Grid.readable in Hn. lia.
  - intros v Hrect [Hr Hc] Hv.
    unfold set_cell_value, bind, get_self, lift, modify. cbn.
    unfold Np.setitem_int64, Np.to_int64.
    destruct (setitem_readable (int_map m) (fst p) (snd p) v Hrect Hr Hc)
      as (a' & -> & _).
    rewrite Hv. reflexivity.
  - intros v m'. unfold set_cell_value, bind, get_self, lift, modify. cbn.
    destruct (Np.setitem_int64 (int_map m) (fst p) (snd p) v) eqn:E;
      [discriminate|].
    intros [= -> _].
    apply setitem_int64_raise in E as [[? _]|(_ & Hv & a' & Ha)];
      [discriminate|].
    split; [exact Hv|].
    apply setitem_Ok in Ha as (i' & j' & row & Hi & Hj & _).
    apply norm_index_Some in Hi. apply norm_index_Some in Hj.
    unfold Grid.readable. lia.
Qed.

Lemma set_cell_value_failure_witness :
  set_cell_value (2, 0) false 9 Inputs.rest_map
  = (Raise IndexError, Inputs.rest_map) /\
  set_cell_value (0, 0) false (2 ^ 63) Inputs.rest_map
  = (Raise OverflowError, Inputs.rest_map).
Proof.
  destruct (set_cell_value_failure Inputs.rest_map (2, 0)) as (_ & Hi & _).
  destruct (set_cell_value_failure Inputs.rest_map (0, 0)) as (_ & _ & Ho & _).
  split.
  - apply Hi. unfold Grid.readable. eval_shape. lia.
  - apply Ho.
    + repeat constructor.
    + unfold Grid.readable. eval_shape. lia.
    + reflexivity.
Defined.

(** ** [tick] on a valid map *)

(** X3. On a map within its invariant [tick] never raises: it returns
    the goal position it leaves behind, keeps the invariant and the end
    goal, and leaves the cost grid as it was. *)
Theorem tick_on_valid_map (m : Map_Obj) :
  Map_inv m ->
  exists m',
    tick m = (Ok (goal_pos m'), m') /\ Map_inv m' /\
    int_map m' = int_map m /\ end_goal_pos m' = end_goal_pos m.
Proof.
  intros Hinv. destruct (Z.eq_dec (tick_counter m mod 4) 0) as [Hc|Hc].
  - destruct (end_goal_pos m) as [e|] eqn:He.
    + destruct (decide (e = goal_pos m)) as [->|Hne].
      * exists m. rewrite tick_early_return by auto. auto.
      * destruct (tick_moves m e Hinv Hc He Hne)
          as (m' & Ht & Hg & Hi & _ & He' & Hinv').
        exists m'. rewrite Ht, Hg. auto.
    + exists m. rewrite tick_early_return by auto. auto.
  - exists (set_tick_counter (tick_counter m + 1) m).
    rewrite tick_counts by exact Hc.
    split; [reflexivity|]. split; [apply Map_inv_set_tick_counter, Hinv|].
    split; reflexivity.
Qed.

Lemma tick_on_valid_map_witness :
  exists m',
    tick Inputs.corridor_map = (Ok (goal_pos m'), m') /\ Map_inv m' /\
    int_map m' = int_map Inputs.corridor_map /\
    end_goal_pos m' = end_goal_pos Inputs.corridor_map.
Proof. apply (tick_on_valid_map Inputs.corridor_map corridor_map_inv). Defined.

(** X4. Over any number of calls, on any map and whether calls raise or
    not, the counter never goes down and grows by at most one per
    call. *)
Theorem tick_counter_bounds (n : nat) (m : Map_Obj) :
  tick_counter m <= tick_counter (after_ticks n m) <= tick_counter m + Z.of_nat n.
Proof.
  revert m. induction n as [|n IH]; intros m; [cbn; lia|].
  change (after_ticks (S n) m) with (after_ticks n (snd (tick m))).
  specialize (IH (snd (tick m))).
  destruct (tick_counter_step m) as [H|H]; rewrite H in IH; lia.
Qed.

(** ** The goal arrives *)

Lemma manhattan_priority_step (g e : pos) :
  e <> g -> manhattan (priority_step g e) e = manhattan g e - 1.
Proof.
  destruct g as [g0 g1], e as [e0 e1]. unfold manhattan, priority_step.
  cbn [fst snd]. intros Hne.
  destruct (g0 <? e0) eqn:E1; [apply Z.ltb_lt in E1; cbn; lia|].
  destruct (g0 >? e0) eqn:E2; [apply Z.gtb_lt in E2; cbn; lia|].
  apply Z.ltb_ge in E1. rewrite Z.gtb_ltb in E2. apply Z.ltb_ge in E2.
  assert (g0 = e0) as -> by lia.
  assert (e1 <> g1) by congruence.
  destruct (g1 <? e1) eqn:E3;
    [apply Z.ltb_lt in E3|apply Z.ltb_ge in E3]; cbn; lia.
Qed.

Lemma manhattan_zero (p q : pos) : manhattan p q = 0 <-> p = q.
Proof.
  destruct p as [p0 p1], q as [q0 q1]. unfold manhattan. cbn [fst snd]. split.
  - intros H. f_equal; lia.
  - intros [= -> ->]. lia.
Qed.

Lemma after_ticks_add (a b : nat) :
  forall m, after_ticks (a + b) m = after_ticks b (after_ticks a m).
Proof. induction a as [|a IH]; intros m; [reflexivity|]. cbn. apply IH. Qed.

(** A goal on its end goal stays there. *)
Lemma tick_at_end_goal (m : Map_Obj) :
  end_goal_pos m = Some (goal_pos m) ->
  goal_pos (snd (tick m)) = goal_pos m /\
  end_goal_pos (snd (tick m)) = end_goal_pos m.
Proof.
  intros He. destruct (Z.eq_dec (tick_counter m mod 4) 0) as [Hc|Hc].
  - rewrite tick_early_return by auto. auto.
  - rewrite tick_counts by exact Hc. auto.
Qed.

Lemma after_ticks_at_end_goal (n : nat) :
  forall m, end_goal_pos m = Some (goal_pos m) ->
            goal_pos (after_ticks n m) = goal_pos m.
Proof.
  induction n as [|n IH]; intros m He; [reflexivity|].
  destruct (tick_at_end_goal m He) as [Hg He'].
  change (after_ticks (S n) m) with (after_ticks n (snd (tick m))).
  rewrite IH; [exact Hg|]. rewrite He', Hg. exact He.
Qed.

Lemma relocating_call_after_move (c : Z) (k : nat) :
  k = Z.to_nat ((- c) mod 4) ->
  Z.to_nat ((- (c + Z.of_nat (S k))) mod 4) = 3%nat.
Proof.
  intros ->.
  pose proof (Z.mod_pos_bound (- c) 4 ltac:(lia)) as Hb.
  pose proof (Z.div_mod (- c) 4 ltac:(lia)) as Hd.
  pose proof (Z.mod_pos_bound (- (c + Z.of_nat (S (Z.to_nat ((- c) mod 4))))) 4
                ltac:(lia)) as Hb'.
  pose proof (Z.div_mod (- (c + Z.of_nat (S (Z.to_nat ((- c) mod 4))))) 4
                ltac:(lia)) as Hd'.
  lia.
Qed.

Lemma goal_arrives (d : nat) :
  forall (m : Map_Obj) (e : pos),
    Map_inv m -> end_goal_pos m = Some e ->
    manhattan (goal_pos m) e = Z.of_nat d ->
    forall n, (relocating_call m + 4 * d <= n)%nat ->
              goal_pos (after_ticks n m) = e.
Proof.
  induction d as [|d IH]; intros m e Hinv He Hd n Hn.
  - apply manhattan_zero in Hd. rewrite after_ticks_at_end_goal; congruence.
  - assert (Hne : e <> goal_pos m).
    { intros ->. pose proof (proj2 (manhattan_zero (goal_pos m) (goal_pos m))
                               eq_refl). lia. }
    pose proof (k_bound m) as Hk.
    pose proof (phase_after_ticks m e Hinv He Hne (S (relocating_call m))
                  ltac:(lia)) as Hph.
    rewrite decide_False in Hph by lia.
    destruct Hph as [Hinv1 Hg1 He1 _ Hc1].
    replace n with (S (relocating_call m) + (n - S (relocating_call m)))%nat
      by lia.
    rewrite after_ticks_add.
    apply IH; [exact Hinv1|exact He1| |].
    + rewrite Hg1, manhattan_priority_step by exact Hne. lia.
    + unfold relocating_call at 1. rewrite Hc1.
      rewrite (relocating_call_after_move (tick_counter m) (relocating_call m))
        by reflexivity.
      lia.
Qed.

(** X5. On a valid map with an end goal, the goal arrives: after the
    calls up to the first relocating one and four calls for every cell
    of Manhattan distance, the goal is on the end goal, and it is there
    after every later call. *)
Theorem goal_reaches_end_goal (m : Map_Obj) (e : pos) (n : nat) :
  Map_inv m -> end_goal_pos m = Some e ->
  (relocating_call m + 4 * Z.to_nat (manhattan (goal_pos m) e) <= n)%nat ->
  goal_pos (after_ticks n m) = e.
Proof.
  intros Hinv He Hn.
  apply (goal_arrives (Z.to_nat (manhattan (goal_pos m) e)) m e Hinv He);
    [|exact Hn].
  unfold manhattan. lia.
Qed.

Lemma goal_reaches_end_goal_witness :
  goal_pos (after_ticks 12 Inputs.corridor_map) = (1, 0).
Proof.
  apply (goal_reaches_end_goal Inputs.corridor_map (1, 0) 12).
  - exact corridor_map_inv.
  - reflexivity.
  - vm_compute. lia.
Defined.

(** X6. [pick_move] changes nothing in the object.  Without an end goal
    it raises [TypeError]; with the goal away from the end goal it
    returns an orthogonal neighbour of the goal that is one cell closer
    to the end goal in Manhattan distance; with the goal on the end
    goal it returns the cell to the left of the goal. *)
Theorem pick_move_towards_end_goal (m : Map_Obj) :
  (end_goal_pos m = None -> pick_move m = (Raise TypeError, m)) /\
  (forall e, end_goal_pos m = Some e ->
     exists p, pick_move m = (Ok p, m) /\
       (e <> goal_pos m ->
        orthogonal_step (goal_pos m) p /\
        manhattan p e = manhattan (goal_pos m) e - 1) /\
       (e = goal_pos m -> p = (fst (goal_pos m), snd (goal_pos m) - 1))).
Proof.
  split.
  - intros He. unfold pick_move, bind, get_self, lift. cbn. rewrite He.
    reflexivity.
  - intros e He. exists (priority_step (goal_pos m) e).
    split; [apply pick_move_priority; exact He|]. split.
    + intros Hne. split; [apply priority_step_orthogonal; exact Hne|].
      apply manhattan_priority_step. exact Hne.
    + intros ->. unfold priority_step.
      rewrite Z.ltb_irrefl, Z.gtb_ltb, Z.ltb_irrefl, Z.ltb_irrefl. reflexivity.
Qed.

Lemma pick_move_towards_end_goal_witness :
  exists p, pick_move Inputs.corridor_map = (Ok p, Inputs.corridor_map) /\
    ((1, 0) <> goal_pos Inputs.corridor_map ->
     orthogonal_step (goal_pos Inputs.corridor_map) p /\
     manhattan p (1, 0) = manhattan (goal_pos Inputs.corridor_map) (1, 0) - 1) /\
    ((1, 0) = goal_pos Inputs.corridor_map ->
     p = (fst (goal_pos Inputs.corridor_map),
          snd (goal_pos Inputs.corridor_map) - 1)).
Proof.
  apply (pick_move_towards_end_goal Inputs.corridor_map). reflexivity.
Defined.

(** ** The string map follows the goal *)

Lemma inside_wrap (m : Map_Obj) (p : pos) : Grid.inside m p -> Grid.wrap m p = p.
Proof.
  destruct p as [r c]. unfold Grid.inside, Grid.wrap. cbn [fst snd].
  intros [Hr Hc].
  replace (r <? 0) with false by (symmetry; apply Z.ltb_ge; lia).
  replace (c <? 0) with false by (symmetry; apply Z.ltb_ge; lia).
  reflexivity.
Qed.

(** Cells of the grid with different coordinates are different cells
    of any array of the same shape. *)
Lemma inside_ne_norm {A} (a : list (list A)) (m : Map_Obj) (p q : pos) :
  Np.shape0 a = Np.shape0 (int_map m) -> Np.shape1 a = Np.shape1 (int_map m) ->
  Grid.inside m p -> Grid.inside m q -> q <> p ->
  Np.norm_index (Np.shape0 a) (fst q) <> Np.norm_index (Np.shape0 a) (fst p) \/
  Np.norm_index (Np.shape1 a) (snd q) <> Np.norm_index (Np.shape1 a) (snd p).
Proof.
  intros H0 H1 Hp Hq Hne.
  apply (wrap_ne_norm a m p q H0 H1);
    [apply inside_readable, Hp|apply inside_readable, Hq|].
  rewrite !inside_wrap by assumption. exact Hne.
Qed.

Lemma str_value_of_symbol (v : Z) :
  (v <> -1 -> str_value_of v = symbol_of v) /\
  (v = -1 -> str_value_of v = "-1" /\ symbol_of v = " # ").
Proof.
  split.
  - intros Hv. unfold str_value_of, symbol_of.
    destruct (v =? -1) eqn:E; [apply Z.eqb_eq in E; contradiction|].
    reflexivity.
  - intros ->. split; reflexivity.
Qed.

(** ** Four calls of [tick] *)

Lemma Map_inv_shape (m : Map_Obj) : Map_inv m -> Map_shape m.
Proof. intros []. constructor; assumption. Qed.

Lemma idle_refl (m : Map_Obj) : idle m m.
Proof. constructor; reflexivity. Qed.

Lemma idle_count (m m_i : Map_Obj) (c : Z) :
  idle m m_i -> idle m (set_tick_counter c m_i).
Proof. intros []. constructor; assumption. Qed.

Lemma relocated_count (m m' : Map_Obj) (c : Z) :
  relocated m m' -> relocated m (set_tick_counter c m').
Proof. intros []. constructor; assumption. Qed.

Lemma relocated_idle (m m_k m' : Map_Obj) :
  idle m m_k -> relocated m_k m' -> relocated m m'.
Proof.
  intros [Hg He Hi Hs Ht] [Re Ri Rt Rs].
  unfold get_cell_value in Rt. rewrite Hg, Hi, Hs, Ht in *.
  constructor; [congruence|exact Ri|exact Rt|exact Rs].
Qed.

Lemma Map_shape_idle (m m_i : Map_Obj) :
  Map_shape m -> idle m m_i -> Map_shape m_i.
Proof.
  intros [Hir Hsr Hs0 Hs1 Hg He] [Ig Ie Ii Is It].
  constructor; unfold Grid.inside; rewrite ?Ig, ?Ie, ?Ii, ?Is;
    assumption.
Qed.

(** Moving the goal to another cell of the grid succeeds whatever the
    cell under the goal holds: the saved value is stored there. *)
Lemma move_goal_pos_relocates (m : Map_Obj) (p : pos) :
  Map_shape m -> Grid.inside m p -> p <> goal_pos m ->
  exists m',
    move_goal_pos p m = (Ok tt, m') /\
    goal_pos m' = p /\ tick_counter m' = tick_counter m /\
    relocated m m' /\ Map_inv m'.
Proof.
  intros [Hir Hsr Hs0 Hs1 Hg He] Hp Hne.
  destruct (getitem_readable (int_map m) (fst p) (snd p) Hir) as [v Hv];
    try (apply inside_readable in Hp; apply Hp).
  destruct (setitem_readable (int_map m) (fst (goal_pos m)) (snd (goal_pos m))
              (tmp_cell_value m) Hir)
    as (a1 & Ea1 & Ha1r & Ha10 & Ha11);
    try (apply inside_readable in Hg; apply Hg).
  destruct (setitem_readable (str_map m) (fst (goal_pos m)) (snd (goal_pos m))
              (str_value_of (tmp_cell_value m)) Hsr)
    as (s1 & Es1 & Hs1r & Hs10 & Hs11);
    try (rewrite ?Hs0, ?Hs1; apply inside_readable in Hg; apply Hg).
  destruct (setitem_readable s1 (fst p) (snd p) " G " Hs1r)
    as (s2 & Es2 & Hs2r & Hs20 & Hs21);
    try (rewrite ?Hs10, ?Hs11, ?Hs0, ?Hs1; apply inside_readable in Hp; apply Hp).
  eexists. split.
  - unfold move_goal_pos, replace_map_values, bind, get_self, lift, modify,
      get_cell_value. cbn.
    rewrite Hv. cbn. rewrite Ea1. cbn. rewrite Es1. cbn. rewrite Es2. cbn.
    reflexivity.
  - cbn. destruct p as [p0 p1]. do 2 (split; [reflexivity|]). split.
    + constructor; cbn; [reflexivity|exact Ea1|exact Hv|].
      exists s1. split; [exact Es1|exact Es2].
    + constructor; cbn -[Np.shape0 Np.shape1];
        [exact Ha1r|exact Hs2r|congruence|congruence| | |].
      * unfold Grid.inside in *. cbn -[Np.shape0 Np.shape1].
        rewrite Ha10, Ha11. exact Hp.
      * intros e0 He0. specialize (He e0 He0).
        unfold Grid.inside in *. cbn -[Np.shape0 Np.shape1].
        rewrite Ha10, Ha11. exact He.
      * unfold get_cell_value. cbn -[Np.getitem].
        rewrite (getitem_setitem_ne (int_map m) _ _ _ _ _ _ Ea1);
          [exact Hv|].
        apply (inside_ne_norm (int_map m) m (goal_pos m) (p0, p1));
          auto.
Qed.

(** A call on a multiple of four, with the goal away from the end
    goal, relocates the goal and returns its new position. *)
Lemma tick_relocates (m : Map_Obj) (e : pos) :
  Map_shape m -> tick_counter m mod 4 = 0 ->
  end_goal_pos m = Some e -> e <> goal_pos m ->
  exists m',
    tick m = (Ok (priority_step (goal_pos m) e), m') /\
    goal_pos m' = priority_step (goal_pos m) e /\
    tick_counter m' = tick_counter m + 1 /\
    relocated m m' /\ Map_inv m'.
Proof.
  intros Hshape Hc He Hne.
  destruct (move_goal_pos_relocates m (priority_step (goal_pos m) e) Hshape)
    as (m1 & Hmove & Hg1 & Hc1 & Hrel & Hinv1).
  { apply priority_step_inside;
      [apply Hshape|apply Hshape; exact He|exact Hne]. }
  { pose proof (priority_step_orthogonal (goal_pos m) e Hne) as Ho.
    intros Heq. rewrite Heq in Ho. unfold orthogonal_step in Ho. lia. }
  exists (set_tick_counter (tick_counter m1 + 1) m1). split.
  - unfold tick. unfold bind at 1. unfold get_self at 1.
    rewrite Hc. cbn [Z.eqb]. rewrite He.
    rewrite bool_decide_eq_false_2 by exact Hne.
    unfold bind at 1. rewrite (pick_move_priority m e He).
    unfold bind at 1. rewrite Hmove.
    unfold tick_tail, bind, modify, get_self, ret. cbn. rewrite Hg1.
    reflexivity.
  - cbn. rewrite Hc1. do 2 (split; [assumption || reflexivity|]).
    split; [apply relocated_count, Hrel|].
    apply Map_inv_set_tick_counter, Hinv1.
Qed.

Section FourCalls.

Variables (m : Map_Obj) (e : pos).
Hypothesis m_shape : Map_shape m.
Hypothesis m_end : end_goal_pos m = Some e.
Hypothesis m_away : e <> goal_pos m.

Local Abbreviation k := (relocating_call m).
Local Abbreviation g := (goal_pos m).
Local Abbreviation g' := (priority_step (goal_pos m) e).

Lemma calls_step (i : nat) (m_i : Map_Obj) :
  (i < 4)%nat -> calls_state m e i m_i ->
  exists m', tick m_i = (Ok (goal_pos m'), m') /\ calls_state m e (S i) m'.
Proof.
  intros Hi [Hc Hst]. pose proof (k_multiple m i Hi) as Hk.
  destruct (decide (i <= k)%nat) as [Hle|Hgt].
  - destruct (decide (i = k)) as [Heq|Hneq].
    + destruct (tick_relocates m_i e) as (m' & Ht & Hg' & Hc' & Hrel & Hinv');
        [eapply Map_shape_idle; eauto|rewrite Hc; apply Hk; exact Heq
        |rewrite (idle_end _ _ Hst); exact m_end
        |rewrite (idle_goal _ _ Hst); exact m_away|].
      rewrite (idle_goal _ _ Hst) in Ht, Hg'.
      exists m'. rewrite Hg'. split; [exact Ht|].
      split; [lia|]. rewrite decide_False by lia. split; [exact Hg'|].
      split; [eapply relocated_idle; eauto|exact Hinv'].
    + exists (set_tick_counter (tick_counter m_i + 1) m_i).
      rewrite tick_counts by (rewrite Hc, Hk; exact Hneq).
      split; [reflexivity|]. split; [cbn; lia|].
      rewrite decide_True by lia. apply idle_count, Hst.
  - destruct Hst as (Hg & Hrel & Hinv).
    exists (set_tick_counter (tick_counter m_i + 1) m_i).
    rewrite tick_counts by (rewrite Hc, Hk; lia).
    split; [reflexivity|]. split; [cbn; lia|].
    rewrite decide_False by lia. split; [exact Hg|].
    split; [apply relocated_count, Hrel|].
    apply Map_inv_set_tick_counter, Hinv.
Qed.

Lemma calls_after_ticks (i : nat) :
  (i <= 4)%nat -> calls_state m e i (after_ticks i m).
Proof.
  induction i as [|i IH]; intros Hi.
  { split; [cbn; lia|]. rewrite decide_True by lia. apply idle_refl. }
  rewrite after_ticks_S.
  destruct (calls_step i _ ltac:(lia) (IH ltac:(lia))) as (m' & -> & Hst).
  exact Hst.
Qed.

(** What [relocated] says of the cells. *)
Lemma relocated_cells (m' : Map_Obj) :
  goal_pos m' = g' -> relocated m m' ->
  get_cell_value m' g = Ok (tmp_cell_value m) /\
  (forall q, Grid.inside m q -> q <> g ->
     get_cell_value m' q = get_cell_value m q) /\
  get_cell_value m g' = Ok (tmp_cell_value m') /\
  Np.getitem (str_map m') (fst g) (snd g)
    = Ok (str_value_of (tmp_cell_value m)) /\
  Np.getitem (str_map m') (fst g') (snd g') = Ok " G " /\
  (get_cell_value m g = Ok (tmp_cell_value m) -> int_map m' = int_map m).
Proof.
  intros Hg' [_ Ri Rt (s & Es1 & Es2)]. rewrite Hg' in Rt, Es2.
  destruct m_shape as [Hir Hsr Hs0 Hs1 Hg He].
  assert (Hin' : Grid.inside m g').
  { apply priority_step_inside; [exact Hg|apply He; exact m_end|exact m_away]. }
  assert (Hne : g' <> g).
  { pose proof (priority_step_orthogonal g e m_away) as Ho.
    intros Heq. rewrite Heq in Ho. unfold orthogonal_step in Ho. lia. }
  split; [eapply getitem_setitem; exact Ri|]. split; [|split; [exact Rt|]].
  - intros q Hq Hqg. apply (getitem_setitem_ne (int_map m) _ _ _ _ _ _ Ri).
    apply (inside_ne_norm (int_map m) m g q); auto.
  - destruct (setitem_shape _ _ _ _ _ Es1) as [Hs10 Hs11].
    split; [|split].
    + rewrite (getitem_setitem_ne s _ _ _ _ _ _ Es2).
      * eapply getitem_setitem. exact Es1.
      * apply (inside_ne_norm s m g' g); try assumption; congruence.
    + eapply getitem_setitem. exact Es2.
    + intros Hsame. apply setitem_same in Hsame. congruence.
Qed.

End FourCalls.

(** C4. On a map whose arrays are rectangular and of one shape, with
    the goal and the end goal inside the grid and away from each other,
    four calls of [tick] relocate the goal exactly once: the calls
    before the one on which the counter is a multiple of four leave the
    object as it is but for the counter; that call moves the goal one
    orthogonal cell by the priority rule and returns the new position,
    and the calls after it leave it there.  The relocation stores the
    saved value, the cost the cell had before the goal stood on it, in
    the cell the goal leaves, whatever that cell held meanwhile, and
    writes the symbol of that cost there; it touches no other cost,
    saves the cost of the new cell and marks it [" G "].  When the cell
    left still held the saved value the integer map is unchanged. *)
Theorem tick_four_calls (m : Map_Obj) (e : pos) :
  Map_shape m -> end_goal_pos m = Some e -> e <> goal_pos m ->
  let g := goal_pos m in
  let g' := priority_step g e in
  let k := relocating_call m in
  orthogonal_step g g' /\
  (k < 4)%nat /\
  length (tick_trace 4 m) = 4%nat /\
  forall (i : nat) r m_i,
    tick_trace 4 m !! i = Some (r, m_i) ->
    r = Ok (goal_pos m_i) /\
    goal_pos m_i = (if decide (i < k)%nat then g else g') /\
    ((i < k)%nat ->
     int_map m_i = int_map m /\ str_map m_i = str_map m /\
     tmp_cell_value m_i = tmp_cell_value m) /\
    ((k <= i)%nat ->
     get_cell_value m_i g = Ok (tmp_cell_value m) /\
     (forall q, Grid.inside m q -> q <> g ->
        get_cell_value m_i q = get_cell_value m q) /\
     get_cell_value m g' = Ok (tmp_cell_value m_i) /\
     Np.getitem (str_map m_i) (fst g) (snd g)
       = Ok (str_value_of (tmp_cell_value m)) /\
     Np.getitem (str_map m_i) (fst g') (snd g') = Ok " G ") /\
    (get_cell_value m g = Ok (tmp_cell_value m) -> int_map m_i = int_map m).
Proof.
  intros Hshape He Hne. cbv zeta.
  split; [apply priority_step_orthogonal; exact Hne|].
  split; [apply k_bound|]. split; [reflexivity|].
  intros i r m_i Hlook.
  assert (Hi : (i < 4)%nat).
  { apply lookup_lt_Some in Hlook. exact Hlook. }
  rewrite tick_trace_lookup in Hlook by exact Hi.
  destruct (calls_step m e Hshape He Hne i (after_ticks i m) Hi)
    as (m' & Ht & Hc & Hst).
  { apply calls_after_ticks; [assumption|assumption|assumption|lia]. }
  rewrite Ht in Hlook. injection Hlook as <- <-.
  split; [reflexivity|].
  destruct (decide (S i <= relocating_call m)%nat) as [Hle|Hgt].
  - destruct Hst as [Hg _ Hi' Hs' Ht'].
    rewrite decide_True by lia.
    split; [exact Hg|]. split; [auto|]. split; [lia|].
    intros _. exact Hi'.
  - destruct Hst as (Hg & Hrel & _).
    rewrite decide_False by lia.
    split; [exact Hg|]. split; [lia|].
    destruct (relocated_cells m e Hshape He Hne m' Hg Hrel)
      as (H1 & H2 & H3 & H4 & H5 & H6).
    split; [intros _; auto|exact H6].
Qed.

Lemma overwritten_map_shape : Map_shape Inputs.overwritten_map.
Proof.
  constructor.
  - repeat constructor.
  - repeat constructor.
  - reflexivity.
  - reflexivity.
  - unfold Grid.inside. eval_shape.
    change (goal_pos Inputs.overwritten_map) with (0, 2). cbn. lia.
  - intros e [= <-]. unfold Grid.inside. eval_shape. cbn. lia.
Defined.

Lemma tick_four_calls_witness :
  let m := Inputs.overwritten_map in
  get_cell_value m (0, 2) = Ok 9 /\ tmp_cell_value m = 3 /\
  forall (i : nat) r m_i,
    tick_trace 4 m !! i = Some (r, m_i) ->
    r = Ok (goal_pos m_i) /\ goal_pos m_i = (1, 2) /\
    get_cell_value m_i (0, 2) = Ok 3 /\
    Np.getitem (str_map m_i) 0 2 = Ok " : ".
Proof.
  cbv zeta. split; [vm_compute; reflexivity|]. split; [reflexivity|].
  intros i r m_i Hlook.
  destruct (tick_four_calls Inputs.overwritten_map (1, 0))
    as (_ & _ & _ & Hcalls).
  - exact overwritten_map_shape.
  - reflexivity.
  - discriminate.
  - destruct (Hcalls i r m_i Hlook) as (Hr & Hg & _ & Hafter & _).
    split; [exact Hr|]. split; [exact Hg|].
    destruct Hafter as (Hcost & _ & _ & Hstr & _);
      [change (relocating_call Inputs.overwritten_map) with 0%nat; lia|].
    split; [exact Hcost|exact Hstr].
Defined.

(** X7. Moving the goal of a valid map to another cell of the grid
    succeeds.  Afterwards the string map shows [" G "] on the new cell
    and, on the cell left, the symbol of its cost: the one [read_map]
    gave it, unless the cell is an obstacle, for which it shows ["-1"]
    and no longer [" # "].  Every other cell of the string map is as it
    was, and the saved value is the cost under the new goal. *)
Theorem move_goal_pos_overlay (m : Map_Obj) (p : pos) :
  Map_inv m -> Grid.inside m p -> p <> goal_pos m ->
  exists m',
    move_goal_pos p m = (Ok tt, m') /\
    goal_pos m' = p /\
    get_cell_value m p = Ok (tmp_cell_value m') /\
    Np.getitem (str_map m') (fst p) (snd p) = Ok " G " /\
    Np.getitem (str_map m') (fst (goal_pos m)) (snd (goal_pos m))
      = Ok (str_value_of (tmp_cell_value m)) /\
    (tmp_cell_value m <> -1 ->
     str_value_of (tmp_cell_value m) = symbol_of (tmp_cell_value m)) /\
    (tmp_cell_value m = -1 -> str_value_of (tmp_cell_value m) = "-1") /\
    forall q, Grid.inside m q -> q <> p -> q <> goal_pos m ->
      Np.getitem (str_map m') (fst q) (snd q)
      = Np.getitem (str_map m) (fst q) (snd q).
Proof.
  intros [Hir Hsr Hs0 Hs1 Hg He Ht] Hp Hne.
  destruct (getitem_readable (int_map m) (fst p) (snd p) Hir) as [v Hv];
    try (apply inside_readable in Hp; apply Hp).
  pose proof (setitem_same _ _ _ _ Ht) as Hint.
  destruct (setitem_readable (str_map m) (fst (goal_pos m)) (snd (goal_pos m))
              (str_value_of (tmp_cell_value m)) Hsr)
    as (s1 & Es1 & Hs1r & Hs10 & Hs11);
    try (rewrite ?Hs0, ?Hs1; apply inside_readable in Hg; apply Hg).
  destruct (setitem_readable s1 (fst p) (snd p) " G " Hs1r)
    as (s2 & Es2 & Hs2r & Hs20 & Hs21);
    try (rewrite ?Hs10, ?Hs11, ?Hs0, ?Hs1; apply inside_readable in Hp; apply Hp).
  eexists. split.
  { unfold move_goal_pos, replace_map_values, bind, get_self, lift, modify,
      get_cell_value. cbn.
    rewrite Hv. cbn. rewrite Hint. cbn. rewrite Es1. cbn. rewrite Es2. cbn.
    reflexivity. }
  cbn. split; [destruct p; reflexivity|]. split; [exact Hv|].
  split; [eapply getitem_setitem; exact Es2|]. split; [|split; [|split]].
  - rewrite (getitem_setitem_ne s1 _ _ _ _ _ _ Es2).
    + eapply getitem_setitem. exact Es1.
    + apply (inside_ne_norm s1 m p (goal_pos m)); try assumption; congruence.
  - apply str_value_of_symbol.
  - intros E. apply (proj2 (str_value_of_symbol _) E).
  - intros q Hq Hqp Hqg.
    rewrite (getitem_setitem_ne s1 _ _ _ _ _ _ Es2).
    + apply (getitem_setitem_ne (str_map m) _ _ _ _ _ _ Es1).
      apply (inside_ne_norm (str_map m) m (goal_pos m) q); assumption.
    + apply (inside_ne_norm s1 m p q); try assumption; congruence.
Qed.

Lemma move_goal_pos_overlay_witness :
  exists m',
    move_goal_pos (1, 2) Inputs.corridor_map = (Ok tt, m') /\
    Np.getitem (str_map m') 1 2 = Ok " G " /\
    Np.getitem (str_map m') 0 2 = Ok " : ".
Proof.
  destruct (move_goal_pos_overlay Inputs.corridor_map (1, 2))
    as (m' & Hm & _ & _ & HG & Hold & _).
  - exact corridor_map_inv.
  - unfold Grid.inside. eval_shape. lia.
  - discriminate.
  - exists m'. split; [exact Hm|]. split; [exact HG|exact Hold].
Defined.

(** ** The constructor *)

(** X8. Given rectangular arrays of one shape and a start, a goal and
    an end goal inside the grid, the constructor succeeds.  The map it
    builds satisfies the invariant, holds the loaded costs, has its
    counter at 0 and the cost under the goal saved; its string map
    shows [" G "] on the goal, [" S "] on the start when the start is
    not the goal, and the loaded symbols elsewhere. *)
Theorem init_builds_map (start goal : pos) (end_goal : option pos)
    (path : string) (data : list (list Z)) (data_str : list (list string)) :
  let self0 := mkMap start goal end_goal path data data_str 0 0 in
  Np.rectangular data -> Np.rectangular data_str ->
  Np.shape0 data_str = Np.shape0 data -> Np.shape1 data_str = Np.shape1 data ->
  Grid.inside self0 start -> Grid.inside self0 goal ->
  (forall e, end_goal = Some e -> Grid.inside self0 e) ->
  exists m,
    init start goal end_goal path data data_str = (Ok m, m) /\
    Map_inv m /\ int_map m = data /\ tick_counter m = 0 /\
    start_pos m = start /\ goal_pos m = goal /\ end_goal_pos m = end_goal /\
    Np.getitem data (fst goal) (snd goal) = Ok (tmp_cell_value m) /\
    Np.getitem (str_map m) (fst goal) (snd goal) = Ok " G " /\
    (start <> goal ->
     Np.getitem (str_map m) (fst start) (snd start) = Ok " S ") /\
    forall q, Grid.inside self0 q -> q <> start -> q <> goal ->
      Np.getitem (str_map m) (fst q) (snd q)
      = Np.getitem data_str (fst q) (snd q).
Proof.
  intros self0 Hd Hs Hs0 Hs1 Hstart Hgoal Hend.
  destruct (getitem_readable data (fst goal) (snd goal) Hd) as [v Hv];
    try (apply inside_readable in Hgoal; apply Hgoal).
  destruct (setitem_readable data_str (fst start) (snd start) " S " Hs)
    as (s1 & Es1 & Hs1r & Hs10 & Hs11);
    try (rewrite ?Hs0, ?Hs1; apply inside_readable in Hstart; apply Hstart).
  destruct (setitem_readable s1 (fst goal) (snd goal) " G " Hs1r)
    as (s2 & Es2 & Hs2r & Hs20 & Hs21);
    try (rewrite ?Hs10, ?Hs11, ?Hs0, ?Hs1; apply inside_readable in Hgoal;
         apply Hgoal).
  eexists. split.
  { unfold init, set_cell_value, bind, get_self, lift, modify, get_cell_value.
    cbn. rewrite Hv. cbn. rewrite Es1. cbn. rewrite Es2. cbn. reflexivity. }
  split.
  { constructor;
      [exact Hd|exact Hs2r| | |exact Hgoal|exact Hend|exact Hv];
      cbn -[Np.shape0 Np.shape1]; congruence. }
  cbn. do 5 (split; [reflexivity|]). split; [exact Hv|].
  split; [eapply getitem_setitem; exact Es2|]. split.
  - intros Hne. rewrite (getitem_setitem_ne s1 _ _ _ _ _ _ Es2).
    + eapply getitem_setitem. exact Es1.
    + apply (inside_ne_norm s1 self0 goal start); try assumption;
        cbn [int_map self0]; congruence.
  - intros q Hq Hqs Hqg.
    rewrite (getitem_setitem_ne s1 _ _ _ _ _ _ Es2).
    + apply (getitem_setitem_ne data_str _ _ _ _ _ _ Es1).
      apply (inside_ne_norm data_str self0 start q); assumption.
    + apply (inside_ne_norm s1 self0 goal q); try assumption;
        cbn [int_map self0]; congruence.
Qed.

Lemma init_builds_map_witness :
  exists m,
    init (0, 0) (0, 2) (Some (1, 0)) "" Inputs.corridor
      (data_str_of Inputs.corridor) = (Ok m, m) /\
    Map_inv m /\ int_map m = Inputs.corridor /\ tick_counter m = 0.
Proof.
  destruct (init_builds_map (0, 0) (0, 2) (Some (1, 0)) "" Inputs.corridor
              (data_str_of Inputs.corridor))
    as (m & Hm & Hinv & Hint & Hc & _).
  - repeat constructor.
  - repeat constructor.
  - reflexivity.
  - reflexivity.
  - unfold Grid.inside. cbn. lia.
  - unfold Grid.inside. cbn. lia.
  - intros e [= <-]. unfold Grid.inside. cbn. lia.
  - exists m. auto.
Defined.

(** ** The marker methods *)

(** X9. [set_start_pos_str_marker] and [set_goal_pos_str_marker] never
    mark an obstacle: on a position that reads -1 in the integer map
    they leave through [exit()] and the array is not written.  When
    they return, the position is a readable cell that is no obstacle,
    the array they were given has kept its shape and shows the marker
    on that position.  An exception can only be [IndexError]. *)
Theorem set_pos_str_marker_spec (symbol : string) (self : Map_Obj) (p : pos)
    (themap : list (list string)) :
  (Grid.obstacle self p -> set_pos_str_marker symbol self p themap = Exited) /\
  (forall themap',
     set_pos_str_marker symbol self p themap = Marked themap' ->
     Grid.passable self p /\
     Np.shape0 themap' = Np.shape0 themap /\
     Np.shape1 themap' = Np.shape1 themap /\
     Np.getitem themap' (fst p) (snd p) = Ok symbol) /\
  (forall e, set_pos_str_marker symbol self p themap = MarkerRaised e ->
             e = IndexError) /\
  set_start_pos_str_marker = set_pos_str_marker " S " /\
  set_goal_pos_str_marker = set_pos_str_marker " G ".
Proof.
  unfold set_pos_str_marker, Grid.obstacle, Grid.passable, get_cell_value.
  split; [|split; [|split; [|split; reflexivity]]].
  - intros ->. reflexivity.
  - intros themap'.
    destruct (Np.getitem (int_map self) (fst p) (snd p)) as [v|]; [|discriminate].
    destruct (v =? -1) eqn:Ev; [discriminate|]. apply Z.eqb_neq in Ev.
    destruct (Np.setitem themap (fst p) (snd p) symbol) as [t|] eqn:Et;
      [|discriminate].
    intros [= <-]. split; [eauto|].
    destruct (setitem_shape _ _ _ _ _ Et) as [H0 H1].
    split; [exact H0|]. split; [exact H1|].
    eapply getitem_setitem. exact Et.
  - intros e.
    destruct (Np.getitem (int_map self) (fst p) (snd p)) as [v|e'] eqn:Eg.
    + destruct (v =? -1); [discriminate|].
      destruct (Np.setitem themap (fst p) (snd p) symbol) as [t|e''] eqn:Et;
        [discriminate|].
      intros [= <-]. eapply setitem_raise. exact Et.
    + intros [= <-]. eapply getitem_raise. exact Eg.
Qed.

Lemma set_pos_str_marker_spec_witness :
  set_start_pos_str_marker Inputs.room_map (0, 0) (str_map Inputs.room_map)
  = Exited.
Proof.
  apply (set_pos_str_marker_spec " S " Inputs.room_map (0, 0)).
  vm_compute. reflexivity.
Defined.

(** ** Tasks *)

Lemma init_fields (start goal : pos) (end_goal : option pos) (path : string)
    (data : list (list Z)) (data_str : list (list string)) (m : Map_Obj) :
  fst (init start goal end_goal path data data_str) = Ok m ->
  goal_pos m = goal /\ end_goal_pos m = end_goal /\ tick_counter m = 0 /\
  int_map m = data.
Proof.
  unfold init, set_cell_value, bind, get_self, lift, modify, get_cell_value.
  cbn.
  destruct (Np.getitem data (fst goal) (snd goal)); cbn; [|discriminate].
  destruct (Np.setitem data_str (fst start) (snd start) " S ");
    cbn; [|discriminate].
  destruct (Np.setitem _ (fst goal) (snd goal) " G "); cbn; [|discriminate].
  intros [= <-]. repeat split.
Qed.

Lemma after_ticks_fixed (m : Map_Obj) :
  tick m = (Ok (goal_pos m), m) -> forall n, after_ticks n m = m.
Proof.
  intros Ht n. induction n as [|n IH]; [reflexivity|].
  change (after_ticks (S n) m) with (after_ticks n (snd (tick m))).
  rewrite Ht. exact IH.
Qed.

(** X10. A task number outside 1..5 makes the constructor raise
    [UnboundLocalError], whatever the files hold.  For the tasks 1 to 4
    the end goal is the goal: on a map built for them [tick] returns
    the goal and changes nothing, not even the counter, however often
    it is called. *)
Theorem new_Map_Obj_tasks (csv : string -> list (list Z)) (task : Z) :
  (task < 1 \/ 5 < task -> new_Map_Obj csv task = Raise UnboundLocalError) /\
  (1 <= task <= 4 ->
   forall m, new_Map_Obj csv task = Ok m ->
     end_goal_pos m = Some (goal_pos m) /\
     tick m = (Ok (goal_pos m), m) /\
     forall n, after_ticks n m = m).
Proof.
  split.
  - intros H. unfold new_Map_Obj, fill_critical_positions.
    assert (forall k, 1 <= k <= 5 -> (task =? k) = false) as Hk
      by (intros k Hk; apply Z.eqb_neq; lia).
    rewrite !Hk by lia. reflexivity.
  - intros H m Hm.
    assert (Hfields : end_goal_pos m = Some (goal_pos m) /\ tick_counter m = 0).
    { assert (task = 1 \/ task = 2 \/ task = 3 \/ task = 4)
        as [-> | [-> | [-> | ->]]] by lia;
        unfold new_Map_Obj, fill_critical_positions, read_map in Hm;
        cbn [Z.eqb Pos.eqb] in Hm;
        apply init_fields in Hm as (-> & -> & -> & _); auto. }
    destruct Hfields as [He Hc].
    assert (Ht : tick m = (Ok (goal_pos m), m)).
    { apply tick_early_return; [rewrite Hc; reflexivity|right; exact He]. }
    split; [exact He|]. split; [exact Ht|]. apply after_ticks_fixed, Ht.
Qed.

Lemma new_Map_Obj_tasks_witness :
  new_Map_Obj (fun _ => Inputs.room) 7 = Raise UnboundLocalError /\
  exists m,
    new_Map_Obj (fun _ => replicate 41 (replicate 33 1)) 1 = Ok m /\
    forall n, after_ticks n m = m.
Proof.
  split.
  - apply (new_Map_Obj_tasks (fun _ => Inputs.room) 7). lia.
  - destruct (new_Map_Obj (fun _ => replicate 41 (replicate 33 1)) 1)
      as [m|e] eqn:E; [|vm_compute in E; discriminate].
    exists m. split; [reflexivity|].
    apply (new_Map_Obj_tasks (fun _ => replicate 41 (replicate 33 1)) 1);
      [lia|exact E].
Defined.

(** ** Painting the path *)

Lemma set_cell_value_str_inside (m : Map_Obj) (p : pos) (s : string) :
  Np.rectangular (str_map m) ->
  Np.shape0 (str_map m) = Np.shape0 (int_map m) ->
  Np.shape1 (str_map m) = Np.shape1 (int_map m) ->
  Grid.inside m p ->
  exists a,
    set_cell_value p true s m = (Ok tt, set_str_map a m) /\
    Np.rectangular a /\
    Np.shape0 a = Np.shape0 (int_map m) /\
    Np.shape1 a = Np.shape1 (int_map m) /\
    Np.getitem a (fst p) (snd p) = Ok (Np.to_U21 s) /\
    forall q, Grid.inside m q -> q <> p ->
      Np.getitem a (fst q) (snd q) = Np.getitem (str_map m) (fst q) (snd q).
Proof.
  intros Hr H0 H1 Hp.
  destruct (setitem_readable (str_map m) (fst p) (snd p) (Np.to_U21 s) Hr)
    as (a & Ea & Har & Ha0 & Ha1);
    try (rewrite ?H0, ?H1; apply inside_readable in Hp; apply Hp).
  exists a. split.
  { unfold set_cell_value, bind, get_self, lift, modify. cbn. rewrite Ea.
    reflexivity. }
  split; [exact Har|]. split; [congruence|]. split; [congruence|].
  split; [eapply getitem_setitem; exact Ea|].
  intros q Hq Hne. apply (getitem_setitem_ne (str_map m) _ _ _ _ _ _ Ea).
  apply (inside_ne_norm (str_map m) m p q); assumption.
Qed.

Lemma mark_path_loop_spec (path rest : list pos) :
  forall m,
    Np.rectangular (str_map m) ->
    Np.shape0 (str_map m) = Np.shape0 (int_map m) ->
    Np.shape1 (str_map m) = Np.shape1 (int_map m) ->
    Forall (Grid.inside m) rest ->
    exists m',
      mark_path_loop path rest m = (Ok tt, m') /\
      int_map m' = int_map m /\
      forall q, Grid.inside m q ->
        Np.getitem (str_map m') (fst q) (snd q)
        = if decide (q ∈ rest /\ head path <> Some q /\ last path <> Some q)
          then Ok " G "
          else Np.getitem (str_map m) (fst q) (snd q).
Proof.
  induction rest as [|p rest IH]; intros m Hr H0 H1 Hin.
  { exists m. split; [reflexivity|]. split; [reflexivity|].
    intros q _. rewrite decide_False; [reflexivity|].
    intros [H _]. apply not_elem_of_nil in H. exact H. }
  apply Forall_cons in Hin as [Hp Hin]. cbn [mark_path_loop].
  destruct (bool_decide (head path = Some p) || bool_decide (last path = Some p))
    eqn:Eskip.
  - destruct (IH m Hr H0 H1 Hin) as (m' & Hm & Hint & Hq).
    exists m'. split; [exact Hm|]. split; [exact Hint|].
    intros q Hqin. rewrite (Hq q Hqin).
    apply orb_true_iff in Eskip.
    rewrite !bool_decide_eq_true in Eskip.
    destruct (decide (q ∈ rest /\ head path <> Some q /\ last path <> Some q))
      as [(Hq1 & Hq2 & Hq3)|Hn].
    + rewrite decide_True; [reflexivity|]. split; [right; exact Hq1|auto].
    + rewrite decide_False; [reflexivity|].
      intros (Hq1 & Hq2 & Hq3). apply Hn.
      apply elem_of_cons in Hq1 as [->|Hq1]; [|auto].
      exfalso. destruct Eskip; contradiction.
  - apply orb_false_iff in Eskip as [E1 E2].
    apply bool_decide_eq_false_1 in E1. apply bool_decide_eq_false_1 in E2.
    destruct (set_cell_value_str_inside m p " G " Hr H0 H1 Hp)
      as (a & Hset & Har & Ha0 & Ha1 & Hap & Haq).
    destruct (IH (set_str_map a m) Har Ha0 Ha1 Hin) as (m' & Hm & Hint & Hq).
    exists m'. split.
    { unfold bind. rewrite Hset. exact Hm. }
    split; [exact Hint|].
    intros q Hqin. rewrite (Hq q Hqin). cbn [str_map set_str_map].
    destruct (decide (q = p)) as [->|Hne].
    + rewrite Hap. rewrite (decide_True (P := p ∈ p :: rest /\ _ /\ _));
        [|split; [left|auto]].
      destruct (decide _); reflexivity.
    + rewrite (Haq q Hqin Hne).
      destruct (decide (q ∈ rest /\ head path <> Some q /\ last path <> Some q))
        as [(Hq1 & Hq2 & Hq3)|Hn].
      * rewrite decide_True; [reflexivity|]. split; [right; exact Hq1|auto].
      * rewrite decide_False; [reflexivity|].
        intros (Hq1 & Hq2 & Hq3). apply Hn.
        apply elem_of_cons in Hq1 as [->|Hq1]; [contradiction|auto].
Qed.

(** X11. After the search, on a valid map and a path inside the grid,
    the script paints [" G "] on every position of the path other than
    its first and its last, leaves every other cell of the string map
    and the whole cost grid as they were, and reports the number of
    positions of the path.  When the search returned [None] the report
    raises [TypeError] and nothing is painted. *)
Theorem after_search_paints (m : Map_Obj) (path : list pos) :
  Map_inv m -> Forall (Grid.inside m) path ->
  after_search None m = (Raise TypeError, m) /\
  exists m',
    after_search (Some path) m = (Ok (length path), m') /\
    int_map m' = int_map m /\
    forall q, Grid.inside m q ->
      Np.getitem (str_map m') (fst q) (snd q)
      = if decide (q ∈ path /\ head path <> Some q /\ last path <> Some q)
        then Ok " G "
        else Np.getitem (str_map m) (fst q) (snd q).
Proof.
  intros [_ Hsr Hs0 Hs1 _ _ _] Hin. split; [reflexivity|].
  destruct (mark_path_loop_spec path path m Hsr Hs0 Hs1 Hin)
    as (m' & Hm & Hint & Hq).
  exists m'. split; [|split; [exact Hint|exact Hq]].
  unfold after_search, bind, ret. destruct path as [|p path].
  - cbn in Hm. injection Hm as <-. reflexivity.
  - rewrite Hm. reflexivity.
Qed.

Lemma after_search_paints_witness :
  exists m',
    after_search (Some [(0, 0); (0, 1); (1, 1); (1, 2)]) Inputs.corridor_map
    = (Ok 4%nat, m') /\
    Np.getitem (str_map m') 0 1 = Ok " G " /\
    Np.getitem (str_map m') 0 0 = Ok " S ".
Proof.
  destruct (after_search_paints Inputs.corridor_map
              [(0, 0); (0, 1); (1, 1); (1, 2)] corridor_map_inv)
    as (_ & m' & Hm & _ & Hq).
  - repeat constructor; cbn; lia.
  - exists m'. split; [exact Hm|]. split.
    + pose proof (Hq (0, 1) ltac:(unfold Grid.inside; eval_shape; lia)) as H.
      cbn [fst snd] in H. rewrite H.
      rewrite decide_True; [reflexivity|].
      split; [repeat constructor|]. split; discriminate.
    + pose proof (Hq (0, 0) ltac:(unfold Grid.inside; eval_shape; lia)) as H.
      cbn [fst snd] in H. rewrite H.
      rewrite decide_False; [vm_compute; reflexivity|].
      intros (_ & H' & _). apply H'. reflexivity.
Defined.

(** * Further properties of the search *)

(** ** The heuristic as an estimate *)

(** X12. In every mode the heuristic is symmetric, never negative, and
    zero exactly when the two nodes are on the same position; every
    mode other than 1 is the squared Euclidean one; and the squared
    Euclidean estimate is never below the Manhattan one. *)
Theorem heuristic_estimate (a b : Node.t) (mode : Z) :
  0 <= heuristic a b mode /\
  (heuristic a b mode = 0 <-> Node.position a = Node.position b) /\
  heuristic a b mode = heuristic b a mode /\
  (mode <> 1 -> heuristic a b mode = heuristic a b 2) /\
  heuristic a b 1 <= heuristic a b 2.
Proof.
  unfold heuristic.
  destruct (Node.position a) as [a0 a1], (Node.position b) as [b0 b1].
  cbn [fst snd]. change (2 =? 1) with false. change (1 =? 1) with true.
  cbv iota.
  assert (Hx : 0 <= Z.abs (a0 - b0)) by lia.
  assert (Hy : 0 <= Z.abs (a1 - b1)) by lia.
  assert (Hsx : Z.abs (b0 - a0) = Z.abs (a0 - b0)) by lia.
  assert (Hsy : Z.abs (b1 - a1) = Z.abs (a1 - b1)) by lia.
  rewrite Hsx, Hsy.
  generalize dependent (Z.abs (a0 - b0)). intros x Hx Hsx.
  generalize dependent (Z.abs (a1 - b1)). intros y Hy Hsy.
  assert (Hxx : x <= x ^ 2) by nia.
  assert (Hyy : y <= y ^ 2) by nia.
  destruct (mode =? 1) eqn:Em.
  - split; [lia|]. split; [|split; [reflexivity|]].
    + split; [intros H; f_equal; lia|intros [= -> ->]; lia].
    + split; [|lia]. intros Hm. apply Z.eqb_eq in Em. contradiction.
  - split; [lia|]. split; [|split; [reflexivity|]].
    + split; [intros H; f_equal; lia|].
      intros [= -> ->]. assert (x = 0) as -> by lia.
      assert (y = 0) as -> by lia. reflexivity.
    + split; [reflexivity|lia].
Qed.

(** X13. One orthogonal step changes the Manhattan estimate by exactly
    one: it never drops by more than the step is long. *)
Theorem heuristic_manhattan_step (a b goal_node : Node.t) :
  orthogonal_step (Node.position a) (Node.position b) ->
  Z.abs (heuristic a goal_node 1 - heuristic b goal_node 1) = 1.
Proof.
  unfold heuristic, orthogonal_step.
  destruct (Node.position a) as [a0 a1], (Node.position b) as [b0 b1],
    (Node.position goal_node) as [g0 g1].
  cbn [fst snd]. change (1 =? 1) with true. cbv iota. lia.
Qed.

Lemma heuristic_manhattan_step_witness :
  Z.abs (heuristic (Node.new 0 (1, 1) None) (Node.new 1 (2, 2) None) 1 -
         heuristic (Node.new 2 (2, 1) None) (Node.new 1 (2, 2) None) 1) = 1.
Proof.
  apply (heuristic_manhattan_step (Node.new 0 (1, 1) None)
           (Node.new 2 (2, 1) None) (Node.new 1 (2, 2) None)).
  left. cbn. lia.
Defined.

(** ** The loop, step by step *)

Lemma a_star_loop_step fuel map goal_node heuristic_mode open_list closed_list
    next_id :
  a_star_loop (S fuel) map goal_node heuristic_mode open_list closed_list
    next_id
  = match a_star_step map goal_node heuristic_mode
            (mkState open_list closed_list next_id) with
    | Done r => r
    | Continue st =>
        a_star_loop fuel map goal_node heuristic_mode (st_open st)
          (st_closed st) (st_next st)
    end.
Proof.
  cbn [a_star_loop]. unfold a_star_step. cbn [st_open st_closed st_next].
  destruct open_list; [reflexivity|].
  destruct (heapq.heappop Node.lt _) as [[cur open']|]; [|reflexivity].
  destruct (bool_decide _); [reflexivity|].
  destruct (gen_children _ _ _ _ _ _) as [[[children cp] nid]|]; [|reflexivity].
  destruct (push_children _ _ _ _ _ _ _ _); reflexivity.
Qed.

Lemma a_star_initial fuel map start goal heuristic_mode :
  a_star fuel map start goal heuristic_mode
  = a_star_loop fuel map (Node.new 1 goal None) heuristic_mode
      (st_open (initial_state start)) (st_closed (initial_state start))
      (st_next (initial_state start)).
Proof. reflexivity. Qed.

(** A result of the search is the result of the last iteration, on a
    state the loop has reached. *)
Lemma a_star_loop_reaches map start goal heuristic_mode fuel :
  forall st r,
    reachable map start goal heuristic_mode st ->
    a_star_loop fuel map (Node.new 1 goal None) heuristic_mode (st_open st)
      (st_closed st) (st_next st) = r ->
    r <> OutOfFuel ->
    exists st',
      reachable map start goal heuristic_mode st' /\
      a_star_step map (Node.new 1 goal None) heuristic_mode st' = Done r.
Proof.
  induction fuel as [|fuel IH]; intros st r Hreach Hrun Hr;
    [cbn in Hrun; congruence|].
  rewrite a_star_loop_step in Hrun.
  replace (mkState (st_open st) (st_closed st) (st_next st)) with st in Hrun
    by (destruct st; reflexivity).
  destruct (a_star_step map (Node.new 1 goal None) heuristic_mode st)
    as [r'|st'] eqn:Estep.
  - subst r'. exists st. auto.
  - apply (IH st' r); [|exact Hrun|exact Hr].
    eapply reachable_step; eauto.
Qed.

Lemma a_star_reaches map start goal heuristic_mode fuel r :
  a_star fuel map start goal heuristic_mode = r -> r <> OutOfFuel ->
  exists st,
    reachable map start goal heuristic_mode st /\
    a_star_step map (Node.new 1 goal None) heuristic_mode st = Done r.
Proof.
  rewrite a_star_initial. apply a_star_loop_reaches. constructor.
Qed.

(** What an iteration that goes on has done. *)
Lemma a_star_step_Continue map goal_node heuristic_mode st st' :
  a_star_step map goal_node heuristic_mode st = Continue st' ->
  exists cur open' children cp,
    heapq.heappop Node.lt (st_open st) = Ok (cur, open') /\
    Node.position cur <> Node.position goal_node /\
    st_closed st' = st_closed st ++ [Node.position cur] /\
    gen_children map cur directions [] None (st_next st)
      = Ok (children, cp, st_next st') /\
    push_children map children cp cur goal_node heuristic_mode
      (st_closed st') open' = Ok (st_open st').
Proof.
  unfold a_star_step. destruct (st_open st) eqn:Eo; [discriminate|].
  rewrite <- Eo.
  destruct (heapq.heappop Node.lt (st_open st)) as [[cur open']|];
    [|discriminate].
  destruct (bool_decide _) eqn:Eg; [discriminate|].
  apply bool_decide_eq_false_1 in Eg.
  destruct (gen_children _ _ _ _ _ _) as [[[children cp] nid]|] eqn:Egen;
    [|discriminate].
  destruct (push_children _ _ _ _ _ _ _ _) as [open''|] eqn:Epush;
    [|discriminate].
  intros [= <-]. cbn. exists cur, open', children, cp. auto.
Qed.

(** How an iteration ends the search. *)
Lemma a_star_step_Done map goal_node heuristic_mode st r :
  a_star_step map goal_node heuristic_mode st = Done r ->
  (st_open st = [] /\ r = NoPath) \/
  (exists cur open',
     heapq.heappop Node.lt (st_open st) = Ok (cur, open') /\
     Node.position cur = Node.position goal_node /\
     r = Path (path_to_goal cur)) \/
  (exists e, r = Error e).
Proof.
  unfold a_star_step. destruct (st_open st) eqn:Eo.
  { intros [= <-]. left. auto. }
  rewrite <- Eo.
  destruct (heapq.heappop Node.lt (st_open st)) as [[cur open']|];
    [|intros [= <-]; right; right; eauto].
  destruct (bool_decide _) eqn:Eg.
  { apply bool_decide_eq_true_1 in Eg. intros [= <-]. right. left. eauto. }
  destruct (gen_children _ _ _ _ _ _) as [[[children cp] nid]|];
    [|intros [= <-]; right; right; eauto].
  destruct (push_children _ _ _ _ _ _ _ _);
    [discriminate|intros [= <-]; right; right; eauto].
Qed.

(** ** Every child is generated, and every child is pushed *)

Section ExpansionExact.

Variables (map : Map_Obj) (current_node goal_node : Node.t)
          (heuristic_mode : Z).

(** The generation loop numbers its nodes consecutively. *)
Lemma gen_children_ids dirs children cp next_id children' cp' next_id' :
  gen_children map current_node dirs children cp next_id
    = Ok (children', cp', next_id') ->
  exists new,
    children' = children ++ new /\
    next_id' = (next_id + length new)%nat /\
    Node.id <$> new = seq next_id (length new).
Proof.
  revert children cp next_id.
  induction dirs as [|[dx dy] dirs IH]; intros children cp next_id;
    cbn [gen_children].
  { intros [= <- <- <-]. exists []. rewrite app_nil_r. cbn.
    split; [reflexivity|]. split; [lia|reflexivity]. }
  destruct (get_cell_value map _) as [v|]; [|discriminate].
  destruct (v =? -1); intros H; apply IH in H as (new & -> & -> & Hids).
  - exists new. auto.
  - eexists (_ :: new). rewrite <- app_assoc. split; [reflexivity|].
    split; [cbn; lia|]. cbn. rewrite Hids. reflexivity.
Qed.

(** No free neighbour is left out. *)
Lemma gen_children_complete dirs children cp next_id children' cp' next_id' :
  gen_children map current_node dirs children cp next_id
    = Ok (children', cp', next_id') ->
  forall d, d ∈ dirs ->
    Grid.passable map (Grid.towards (Node.position current_node) d) ->
    exists c, c ∈ children' /\
      Node.position c = Grid.towards (Node.position current_node) d.
Proof.
  revert children cp next_id.
  induction dirs as [|[dx dy] dirs IH]; intros children cp next_id;
    cbn [gen_children].
  { intros _ d Hd. apply not_elem_of_nil in Hd. contradiction. }
  change (fst (Node.position current_node) + dy,
          snd (Node.position current_node) + dx)
    with (Grid.towards (Node.position current_node) (dx, dy)).
  destruct (get_cell_value map _) as [v|] eqn:Ev; [|discriminate].
  destruct (v =? -1) eqn:Ew; intros Hgen d Hd Hpass;
    apply elem_of_cons in Hd as [->|Hd];
    try (eapply IH; eauto; fail).
  - exfalso. destruct Hpass as (w & Hw & Hne). apply Z.eqb_eq in Ew.
    congruence.
  - apply gen_children_spec in Hgen as ((new & -> & _) & _).
    exists (Node.new next_id
              (Grid.towards (Node.position current_node) (dx, dy))
              (Some current_node)).
    split; [|reflexivity].
    rewrite !elem_of_app. left. right. left.
Qed.

(** A child whose identity is not in the open list is pushed when its
    position is not closed: with fresh identities the membership test
    of the second loop never keeps a child out. *)
Lemma push_children_pushes_all children cp closed_list :
  forall open_list open_list',
    NoDup (Node.id <$> children) ->
    (forall c n, c ∈ children -> n ∈ open_list -> Node.id n <> Node.id c) ->
    push_children map children cp current_node goal_node heuristic_mode
      closed_list open_list = Ok open_list' ->
    forall c, c ∈ children -> Node.position c ∉ closed_list ->
      exists n, n ∈ open_list' /\ Node.position n = Node.position c.
Proof.
  induction children as [|child children IH];
    intros open_list open_list' Hnd Hfresh Hpush c Hc Hnc.
  { apply not_elem_of_nil in Hc. contradiction. }
  cbn in Hnd. apply NoDup_cons in Hnd as [Hnotin Hnd].
  cbn [push_children] in Hpush.
  destruct (bool_decide (Node.position child ∈ closed_list)) eqn:Ecl.
  - apply bool_decide_eq_true_1 in Ecl.
    apply elem_of_cons in Hc as [->|Hc]; [contradiction|].
    eapply (IH open_list open_list' Hnd); eauto.
    intros c' n Hc' Hn. apply Hfresh; [right; exact Hc'|exact Hn].
  - destruct cp as [cp|]; [|discriminate].
    destruct (add_costs map child cp current_node goal_node heuristic_mode)
      as [child'|] eqn:Eadd; [|discriminate].
    apply add_costs_inv in Eadd as (Hpos & Hpar & Hid).
    assert (Hex : existsb (fun n => Node.is_ n child') open_list = false).
    { apply not_true_is_false. intros Hex.
      apply existsb_exists in Hex as (n & Hn & His).
      unfold Node.is_ in His. apply Nat.eqb_eq in His.
      apply (Hfresh child n); [left|apply list_elem_of_In; exact Hn|].
      congruence. }
    rewrite Hex in Hpush. cbn [negb] in Hpush.
    assert (Hin' : forall n, n ∈ heapq.heappush Node.lt open_list child' ->
                             n ∈ open_list').
    { intros n Hn. apply push_children_spec in Hpush as (pushed & -> & _).
      apply elem_of_app. right. exact Hn. }
    apply elem_of_cons in Hc as [->|Hc].
    + exists child'. split; [|exact Hpos].
      apply Hin'. rewrite heappush_perm. left.
    + eapply (IH _ open_list' Hnd); eauto.
      intros c' n Hc' Hn. rewrite heappush_perm in Hn.
      apply elem_of_cons in Hn as [->|Hn].
      * rewrite Hid. intros E. apply Hnotin.
        rewrite E. apply list_elem_of_fmap_2. exact Hc'.
      * apply Hfresh; [right; exact Hc'|exact Hn].
Qed.

(** The identities in the open list stay below the next one. *)
Lemma push_children_ids children cp closed_list (bound : nat) :
  forall open_list open_list',
    Forall (fun c => (Node.id c < bound)%nat) children ->
    Forall (fun n => (Node.id n < bound)%nat) open_list ->
    push_children map children cp current_node goal_node heuristic_mode
      closed_list open_list = Ok open_list' ->
    Forall (fun n => (Node.id n < bound)%nat) open_list'.
Proof.
  induction children as [|child children IH];
    intros open_list open_list' Hch Hopen; cbn [push_children].
  { intros [= <-]. exact Hopen. }
  apply Forall_cons in Hch as [Hc Hch].
  destruct (bool_decide _); [apply IH; assumption|].
  destruct cp as [cp|]; [|discriminate].
  destruct (add_costs map child cp current_node goal_node heuristic_mode)
    as [child'|] eqn:Eadd; [|discriminate].
  apply add_costs_inv in Eadd as (_ & _ & Hid).
  destruct (negb _); apply IH; try assumption.
  rewrite heappush_perm. constructor; [rewrite Hid; exact Hc|exact Hopen].
Qed.

(** What holds of the open list and of every priced child holds of the
    open list after the second loop. *)
Lemma push_children_Forall (Q : Node.t -> Prop) children cp closed_list :
  forall open_list open_list',
    Forall Q open_list ->
    (forall child child',
       child ∈ children ->
       add_costs map child cp current_node goal_node heuristic_mode
         = Ok child' -> Q child') ->
    push_children map children (Some cp) current_node goal_node heuristic_mode
      closed_list open_list = Ok open_list' ->
    Forall Q open_list'.
Proof.
  induction children as [|child children IH];
    intros open_list open_list' Hopen Hq; cbn [push_children].
  { intros [= <-]. exact Hopen. }
  assert (Hq' : forall c c', c ∈ children ->
            add_costs map c cp current_node goal_node heuristic_mode = Ok c' ->
            Q c').
  { intros c c' Hc. apply Hq. right. exact Hc. }
  destruct (bool_decide _); [apply IH; assumption|].
  destruct (add_costs map child cp current_node goal_node heuristic_mode)
    as [child'|] eqn:Eadd; [|discriminate].
  destruct (negb _); apply IH; try assumption.
  rewrite heappush_perm. constructor; [|exact Hopen].
  apply (Hq child child'); [left|exact Eadd].
Qed.

End ExpansionExact.

(** ** What the loop keeps true *)

Section SearchInvariant.

Variables (map : Map_Obj) (start goal : pos) (heuristic_mode : Z).

Lemma ancestors_closed (closed_list closed_list' : list pos) (n : Node.t) :
  node_ok map start closed_list n ->
  (forall p, p ∈ closed_list -> p ∈ closed_list') ->
  Node.position n ∈ closed_list' ->
  forall p, p ∈ ancestors n -> p ∈ closed_list'.
Proof.
  intros [_ _ Hcl _] Hsub Hpos p Hp. rewrite ancestors_unfold in Hp, Hcl.
  apply elem_of_cons in Hp as [->|Hp]; [exact Hpos|].
  apply Hsub, Hcl. exact Hp.
Qed.

Lemma node_ok_mono (closed_list closed_list' : list pos) (n : Node.t) :
  (forall p, p ∈ closed_list -> p ∈ closed_list') ->
  node_ok map start closed_list n -> node_ok map start closed_list' n.
Proof. intros Hsub [H1 H2 H3 H4]. constructor; auto. Qed.

Lemma node_ok_child (closed_list closed_list' : list pos) (cur n : Node.t) :
  node_ok map start closed_list cur ->
  (forall p, p ∈ closed_list -> p ∈ closed_list') ->
  Node.position cur ∈ closed_list' ->
  Node.position n ∉ closed_list' ->
  Node.parent n = Some cur ->
  Grid.passable map (Node.position n) ->
  node_ok map start closed_list' n.
Proof.
  intros Hcur Hsub Hpos Hn Hpar Hpass.
  pose proof (ancestors_closed _ _ _ Hcur Hsub Hpos) as Hanc.
  destruct Hcur as [Hroot Hnd _ Hp].
  assert (Hn_anc : ancestors n = Node.position n :: ancestors cur)
    by (rewrite ancestors_unfold, Hpar; reflexivity).
  assert (Hc_anc : exists l, ancestors cur = Node.position cur :: l)
    by (rewrite ancestors_unfold; eauto).
  destruct Hc_anc as [l Hl].
  constructor; rewrite Hn_anc.
  - rewrite Hl in Hroot |- *. exact Hroot.
  - apply NoDup_cons. split; [|exact Hnd].
    intros Hin. apply Hn, Hanc, Hin.
  - exact Hanc.
  - rewrite Hl in Hp |- *. cbn [removelast].
    constructor; [exact Hpass|exact Hp].
Qed.

Lemma search_inv_initial : search_inv map start goal (initial_state start).
Proof.
  unfold initial_state. rewrite heappush_empty. constructor; cbn.
  - repeat constructor.
  - apply not_elem_of_nil.
  - constructor; [|constructor]. constructor; cbn.
    + reflexivity.
    + apply NoDup_singleton.
    + intros p Hp. apply not_elem_of_nil in Hp. contradiction.
    + constructor.
  - right. eexists. split; [left|reflexivity].
  - intros p d Hp. apply not_elem_of_nil in Hp. contradiction.
Qed.

Lemma search_inv_step st st' :
  search_inv map start goal st ->
  a_star_step map (Node.new 1 goal None) heuristic_mode st = Continue st' ->
  search_inv map start goal st'.
Proof.
  intros [Hids Hgoal Hnodes Hstart Hfront] Hstep.
  apply a_star_step_Continue in Hstep
    as (cur & open' & children & cp & Hpop & Hng & Hcl & Hgen & Hpush).
  apply heappop_perm in Hpop. cbn [Node.position Node.new] in Hng.
  rewrite Hpop in Hids, Hnodes.
  apply Forall_cons in Hids as [Hidc Hids].
  apply Forall_cons in Hnodes as [Hcur Hnodes].
  destruct (gen_children_spec _ _ _ _ _ _ _ _ _ Hgen)
    as ((new & Hnew & _ & Hchild) & _ & _).
  destruct (gen_children_ids _ _ _ _ _ _ _ _ _ Hgen)
    as (new' & Hnew' & Hnext & Hseq).
  cbn in Hnew, Hnew'. subst children. subst new'.
  pose proof (gen_children_complete _ _ _ _ _ _ _ _ _ Hgen) as Hcomplete.
  destruct (push_children_spec _ _ _ _ _ _ _ _ _ Hpush)
    as (pushed & Hperm & _ & Hpushed).
  assert (Hsub : forall p, p ∈ st_closed st -> p ∈ st_closed st').
  { intros p Hp. rewrite Hcl. apply elem_of_app. left. exact Hp. }
  assert (Hcurcl : Node.position cur ∈ st_closed st').
  { rewrite Hcl. apply elem_of_app. right. left. }
  assert (Hnewid : Forall (fun c => (st_next st <= Node.id c < st_next st')%nat)
                     new).
  { apply Forall_forall. intros c Hc.
    assert (Hin : Node.id c ∈ seq (st_next st) (length new)).
    { rewrite <- Hseq. apply list_elem_of_fmap_2. exact Hc. }
    apply elem_of_seq in Hin. lia. }
  constructor.
  - eapply push_children_ids; [| |exact Hpush].
    + eapply Forall_impl; [exact Hnewid|]. cbn. intros c Hc. lia.
    + eapply Forall_impl; [exact Hids|]. cbn. intros n Hn. lia.
  - rewrite Hcl. intros Hin. apply elem_of_app in Hin as [Hin|Hin];
      [contradiction|].
    apply list_elem_of_singleton in Hin. congruence.
  - rewrite Hperm. apply Forall_app. split.
    + eapply Forall_impl; [exact Hpushed|].
      intros n (Hncl & child & Hin & Hpos & Hpar).
      rewrite Forall_forall in Hchild.
      destruct (Hchild child Hin) as (Hp & d & _ & _ & Hpass).
      apply (node_ok_child (st_closed st) (st_closed st') cur n); auto;
        congruence.
    + eapply Forall_impl; [exact Hnodes|].
      intros n Hn. eapply node_ok_mono; eauto.
  - destruct Hstart as [Hs|(n & Hn & Hpos)]; [left; auto|].
    rewrite Hpop in Hn. apply elem_of_cons in Hn as [->|Hn].
    + left. rewrite <- Hpos. exact Hcurcl.
    + right. exists n. split; [|exact Hpos].
      rewrite Hperm. apply elem_of_app. right. exact Hn.
  - intros p d Hp Hd Hpass.
    destruct (decide (Grid.towards p d ∈ st_closed st')) as [Hin|Hnin];
      [left; exact Hin|right].
    rewrite Hcl in Hp. apply elem_of_app in Hp as [Hp|Hp].
    + destruct (Hfront p d Hp Hd Hpass) as [Hc|(n & Hn & Hpos)];
        [exfalso; apply Hnin, Hsub, Hc|].
      rewrite Hpop in Hn. apply elem_of_cons in Hn as [->|Hn].
      * exfalso. apply Hnin. rewrite <- Hpos. exact Hcurcl.
      * exists n. split; [|exact Hpos].
        rewrite Hperm. apply elem_of_app. right. exact Hn.
    + apply list_elem_of_singleton in Hp. subst p.
      destruct (Hcomplete d Hd Hpass) as (c & Hc & Hpos).
      destruct (push_children_pushes_all map cur (Node.new 1 goal None)
                  heuristic_mode new cp (st_closed st') open' (st_open st'))
        with (c := c) as (n & Hn & Hnpos); auto.
      * rewrite Hseq. apply NoDup_seq.
      * intros c' n Hc' Hn.
        rewrite Forall_forall in Hnewid, Hids.
        specialize (Hnewid c' Hc'). specialize (Hids n Hn). lia.
      * rewrite Hpos. exact Hnin.
      * exists n. split; [exact Hn|congruence].
Qed.

Lemma reachable_inv st :
  reachable map start goal heuristic_mode st -> search_inv map start goal st.
Proof.
  induction 1 as [|st st' _ IH Hstep];
    [apply search_inv_initial|eapply search_inv_step; eauto].
Qed.

End SearchInvariant.

(** ** What the search returns *)

Lemma tail_reverse {A} (l : list A) : tail (reverse l) = reverse (removelast l).
Proof.
  induction l as [|x l _] using rev_ind; [reflexivity|].
  rewrite reverse_snoc, removelast_last. reflexivity.
Qed.

Lemma orthogonal_step_towards (p q : pos) :
  orthogonal_step p q -> exists d, d ∈ directions /\ q = Grid.towards p d.
Proof.
  destruct p as [p0 p1], q as [q0 q1]. unfold orthogonal_step, Grid.towards.
  cbn [fst snd]. intros H.
  assert (Hd : (q0 = p0 + 1 /\ q1 = p1) \/ (q0 = p0 /\ q1 = p1 + 1) \/
               (q0 = p0 - 1 /\ q1 = p1) \/ (q0 = p0 /\ q1 = p1 - 1)) by lia.
  destruct Hd as [[-> ->] | [[-> ->] | [[-> ->] | [-> ->]]]];
    [exists (0, 1)|exists (1, 0)|exists (0, -1)|exists (-1, 0)];
    (split; [unfold directions; repeat constructor|cbn; f_equal; lia]).
Qed.

(** X14. The search terminates on every input: some number of
    iterations is enough for it to return or to raise, and more
    iterations than that change nothing. *)
Theorem a_star_always_terminates (map : Map_Obj) (start goal : pos)
    (heuristic_mode : Z) :
  exists fuel,
    a_star fuel map start goal heuristic_mode <> OutOfFuel /\
    forall fuel', (fuel <= fuel')%nat ->
      a_star fuel' map start goal heuristic_mode
      = a_star fuel map start goal heuristic_mode.
Proof.
  destruct (a_star_terminates map start goal heuristic_mode) as [fuel Hfuel].
  exists fuel. split; [exact Hfuel|].
  intros fuel' Hle. apply a_star_more_fuel; assumption.
Qed.

(** How an iteration raises: while it generates the children of the
    node it popped, on a neighbour that cannot be read; or while it
    pushes them, on a child whose estimate is no [int64] value. *)
Lemma a_star_step_Error map goal_node heuristic_mode st e :
  a_star_step map goal_node heuristic_mode st = Done (Error e) ->
  exists cur open',
    heapq.heappop Node.lt (st_open st) = Ok (cur, open') /\
    Node.position cur <> Node.position goal_node /\
    ((e = IndexError /\
      exists d, d ∈ directions /\
        get_cell_value map (Grid.towards (Node.position cur) d)
          = Raise IndexError) \/
     (e = OverflowError /\
      exists child, child_of map cur child /\
        Np.int64 (heuristic child goal_node heuristic_mode) = false)).
Proof.
  unfold a_star_step. destruct (st_open st) as [|n0 rest] eqn:Eo;
    [discriminate|].
  rewrite <- Eo.
  destruct (heappop_nonempty Node.lt (st_open st)) as (cur & open' & ->);
    [rewrite Eo; discriminate|].
  destruct (bool_decide _) eqn:Eg; [discriminate|].
  apply bool_decide_eq_false_1 in Eg.
  destruct (gen_children _ _ _ _ _ _) as [[[children cp] nid]|e'] eqn:Egen.
  - destruct (push_children _ _ _ _ _ _ _ _) as [open''|e'] eqn:Epush;
      [discriminate|].
    intros [= <-]. exists cur, open'.
    split; [reflexivity|]. split; [exact Eg|]. right.
    apply gen_children_spec in Egen as ((new & -> & _ & Hnew) & Hread & Hcp).
    unfold directions in Hread, Hcp. cbn [last] in Hcp. subst cp.
    rewrite !Forall_cons in Hread.
    destruct Hread as (_ & _ & _ & [v Hv] & _).
    apply push_children_raise in Epush as [Hr|(-> & child & Hin & Hh)];
      [congruence|].
    split; [reflexivity|]. exists child. split; [|exact Hh].
    rewrite Forall_forall in Hnew. apply (Hnew child Hin).
  - intros [= <-]. exists cur, open'.
    split; [reflexivity|]. split; [exact Eg|]. left.
    apply gen_children_raise in Egen as (-> & d & Hd & Hr).
    split; [reflexivity|]. exists d. auto.
Qed.

(** X15. The search raises in two ways only, both in an iteration that
    expands the node it has just popped, a node that is not on the
    goal.  [IndexError]: a neighbour of that node cannot be read; on a
    rectangular map it is a position numpy does not accept.
    [OverflowError]: a free neighbour of that node has an estimate to
    the goal of [2^63] or more, too large for the [int64] it is added
    to. *)
Theorem a_star_exceptions (fuel : nat) (map : Map_Obj)
    (start goal : pos) (heuristic_mode : Z) (e : exn) :
  a_star fuel map start goal heuristic_mode = Error e ->
  exists st cur open_list,
    reachable map start goal heuristic_mode st /\
    heapq.heappop Node.lt (st_open st) = Ok (cur, open_list) /\
    Node.position cur <> goal /\
    ((e = IndexError /\
      exists d, d ∈ directions /\
        get_cell_value map (Grid.towards (Node.position cur) d)
          = Raise IndexError /\
        (Np.rectangular (int_map map) ->
         ~ Grid.readable map (Grid.towards (Node.position cur) d))) \/
     (e = OverflowError /\
      exists d child, d ∈ directions /\
        Node.parent child = Some cur /\
        Node.position child = Grid.towards (Node.position cur) d /\
        Grid.passable map (Node.position child) /\
        2 ^ 63 <= heuristic child (Node.new 1 goal None) heuristic_mode)).
Proof.
  intros H. apply a_star_reaches in H as (st & Hreach & Hstep);
    [|discriminate].
  apply a_star_step_Error in Hstep as (cur & open' & Hpop & Hng & Hwhy).
  exists st, cur, open'. split; [exact Hreach|]. split; [exact Hpop|].
  split; [exact Hng|].
  destruct Hwhy as [(-> & d & Hd & Hr)|(-> & child & Hc & Hh)].
  - left. split; [reflexivity|]. exists d. split; [exact Hd|].
    split; [exact Hr|].
    intros Hrect [Hr0 Hr1].
    destruct (getitem_readable (int_map map) _ _ Hrect Hr0 Hr1) as [v Hv].
    unfold get_cell_value in Hr. congruence.
  - right. split; [reflexivity|].
    destruct Hc as (Hpar & d & Hd & Hpos & Hpass).
    exists d, child. repeat split; try assumption.
    apply heuristic_no_int64, Hh.
Qed.

Lemma a_star_exceptions_witness :
  exists st cur open_list,
    reachable Inputs.cross_map (2, 2) (1, 1) 1 st /\
    heapq.heappop Node.lt (st_open st) = Ok (cur, open_list) /\
    Node.position cur <> (1, 1) /\
    ((IndexError = IndexError /\
      exists d, d ∈ directions /\
        get_cell_value Inputs.cross_map (Grid.towards (Node.position cur) d)
          = Raise IndexError /\
        (Np.rectangular (int_map Inputs.cross_map) ->
         ~ Grid.readable Inputs.cross_map
             (Grid.towards (Node.position cur) d))) \/
     (IndexError = OverflowError /\
      exists d child, d ∈ directions /\
        Node.parent child = Some cur /\
        Node.position child = Grid.towards (Node.position cur) d /\
        Grid.passable Inputs.cross_map (Node.position child) /\
        2 ^ 63 <= heuristic child (Node.new 1 (1, 1) None) 1)).
Proof.
  apply (a_star_exceptions 1 Inputs.cross_map (2, 2) (1, 1) 1).
  vm_compute. reflexivity.
Defined.

(** Both exceptions occur: the first on the cross, whose cells have
    neighbours beyond the grid, the second in the walled room when the
    goal is [2^63] rows away. *)
Lemma both_exceptions_occur :
  a_star 1 Inputs.cross_map (2, 2) (1, 1) 1 = Error IndexError /\
  a_star 1 Inputs.room_map (1, 1) (2 ^ 63, 1) 1 = Error OverflowError.
Proof. split; vm_compute; reflexivity. Qed.

(** X16. A returned path visits no position twice, and every cell it
    enters after the start is a readable cell that is no obstacle. *)
Theorem a_star_path_simple (fuel : nat) (map : Map_Obj) (start goal : pos)
    (heuristic_mode : Z) (path : list pos) :
  a_star fuel map start goal heuristic_mode = Path path ->
  NoDup path /\ Forall (Grid.passable map) (tail path).
Proof.
  intros H. apply a_star_reaches in H as (st & Hreach & Hstep);
    [|discriminate].
  apply reachable_inv in Hreach. destruct Hreach as [_ _ Hnodes _ _].
  apply a_star_step_Done in Hstep
    as [[_ [=]] | [(cur & open' & Hpop & _ & [= ->]) | [e [=]]]].
  apply heappop_perm in Hpop. rewrite Hpop in Hnodes.
  apply Forall_cons in Hnodes as [[_ Hnd _ Hpass] _].
  rewrite path_to_goal_ancestors, tail_reverse. split.
  - rewrite reverse_Permutation. exact Hnd.
  - rewrite reverse_Permutation. exact Hpass.
Qed.

Lemma a_star_path_simple_witness :
  NoDup [(1, 1); (2, 1); (2, 2)] /\
  Forall (Grid.passable Inputs.room_map) (tail [(1, 1); (2, 1); (2, 2)]).
Proof.
  apply (a_star_path_simple 3 Inputs.room_map (1, 1) (2, 2) 1).
  vm_compute. reflexivity.
Defined.

(** Once the open list is empty, every cell a walker can reach from
    the start is closed. *)
Lemma closed_walk map start goal (st : search_state) :
  search_inv map start goal st -> st_open st = [] ->
  forall path p,
    head path = Some p -> p ∈ st_closed st ->
    contiguous path -> Forall (Grid.passable map) path ->
    forall q, q ∈ path -> q ∈ st_closed st.
Proof.
  intros [_ _ _ _ Hfront] Hopen path.
  induction path as [|a path IH]; intros p Hhead Hp Hcont Hpass q Hq.
  { apply not_elem_of_nil in Hq. contradiction. }
  cbn in Hhead. injection Hhead as ->.
  apply elem_of_cons in Hq as [->|Hq]; [exact Hp|].
  destruct path as [|b path]; [apply not_elem_of_nil in Hq; contradiction|].
  destruct Hcont as [Hstep Hcont].
  apply Forall_cons in Hpass as [_ Hpass].
  apply (IH b); try assumption; [reflexivity|].
  apply orthogonal_step_towards in Hstep as (d & Hd & ->).
  apply Forall_cons in Hpass as [Hb _].
  destruct (Hfront p d Hp Hd Hb) as [Hc|(n & Hn & _)]; [exact Hc|].
  rewrite Hopen in Hn. apply not_elem_of_nil in Hn. contradiction.
Qed.

Lemma a_star_none_unreachable (fuel : nat) (map : Map_Obj)
    (start goal : pos) (heuristic_mode : Z) (path : list pos) :
  a_star fuel map start goal heuristic_mode = NoPath ->
  ~ walkable map start goal path.
Proof.
  intros H (Hhead & Hlast & Hcont & Hpass).
  apply a_star_reaches in H as (st & Hreach & Hstep); [|discriminate].
  apply reachable_inv in Hreach.
  apply a_star_step_Done in Hstep
    as [[Hopen _] | [(cur & open' & _ & _ & [=]) | [e [=]]]].
  assert (Hstart : start ∈ st_closed st).
  { destruct (inv_start _ _ _ _ Hreach) as [Hs|(n & Hn & _)]; [exact Hs|].
    rewrite Hopen in Hn. apply not_elem_of_nil in Hn. contradiction. }
  apply (inv_goal_open _ _ _ _ Hreach).
  apply (closed_walk map start goal st Hreach Hopen path start); auto.
  apply last_Some_elem_of. exact Hlast.
Qed.

(** X17. When the search returns [None], no walk leads from the start
    to the goal: there is no sequence of orthogonal steps over readable
    cells that are no obstacles. *)
Theorem a_star_none_means_unreachable (fuel : nat) (map : Map_Obj)
    (start goal : pos) (heuristic_mode : Z) (path : list pos) :
  a_star fuel map start goal heuristic_mode = NoPath ->
  ~ walkable map start goal path.
Proof. apply a_star_none_unreachable. Qed.

Lemma a_star_none_means_unreachable_witness :
  ~ walkable Inputs.cell_map (1, 1) (2, 3) [(1, 1); (1, 2); (1, 3); (2, 3)].
Proof.
  apply (a_star_none_means_unreachable 10 Inputs.cell_map (1, 1) (2, 3) 1).
  vm_compute. reflexivity.
Defined.

(** ** The open list is a heap *)

Lemma lookup_insert_lt {A} (l : list A) (i j : nat) (x : A) :
  (i < length l)%nat -> <[i := x]> l !! j = with_item l i x j.
Proof.
  intros Hi. unfold with_item. rewrite list_lookup_insert.
  destruct (decide (i = j /\ (i < length l)%nat)) as [[E _]|Hn];
    destruct (decide (j = i)) as [E'|Hne]; try reflexivity.
  - congruence.
  - exfalso. apply Hn. auto.
Qed.

Lemma par_child (c pos : nat) :
  (0 < c)%nat -> Nat.div2 (c - 1) = pos ->
  c = (2 * pos + 1)%nat \/ c = (2 * pos + 2)%nat.
Proof.
  intros Hc <-. pose proof (Nat.div2_odd (c - 1)) as H.
  destruct (Nat.odd (c - 1)); cbn [Nat.b2n] in H; lia.
Qed.

Section HeapOrder.

Context {A : Type} (key : A -> Z).

Local Abbreviation lt := (fun a b : A => key a <? key b).

(** The root of a heap is a least item. *)
Lemma heap_root_least (heap : list A) (r : A) :
  heap_ordered key heap -> heap !! 0%nat = Some r ->
  forall (i : nat) y, heap !! i = Some y -> key r <= key y.
Proof.
  intros Hord Hr i. induction i as [i IH] using lt_wf_ind. intros y Hy.
  destruct (decide (i = 0%nat)) as [->|Hi]; [assert (r = y) by congruence; subst; lia|].
  pose proof (div2_pred_lt i ltac:(lia)) as Hpar.
  destruct (lookup_lt_is_Some_2 heap (Nat.div2 (i - 1))) as [p Hp].
  { apply lookup_lt_Some in Hy. lia. }
  pose proof (Hord i y p ltac:(lia) Hy Hp).
  pose proof (IH _ Hpar p Hp). lia.
Qed.

(** [_siftdown] towards the root: when only the edge above the free
    slot may be out of order, the loop leaves a heap. *)
Lemma siftdown_loop_ordered (fuel : nat) :
  forall (heap : list A) (x : A) (pos : nat),
    (pos <= fuel)%nat -> (pos < length heap)%nat ->
    (forall (i : nat) y p,
       (0 < i)%nat -> i <> pos ->
       with_item heap pos x i = Some y ->
       with_item heap pos x (Nat.div2 (i - 1)) = Some p -> key p <= key y) ->
    (forall (c : nat) y g,
       (0 < pos)%nat -> (0 < c)%nat -> Nat.div2 (c - 1) = pos ->
       with_item heap pos x c = Some y ->
       with_item heap pos x (Nat.div2 (pos - 1)) = Some g -> key g <= key y) ->
    heap_ordered key (heapq.siftdown_loop lt fuel heap x 0 pos).
Proof.
  induction fuel as [|fuel IH]; intros heap x pos Hfuel Hpos Ha Hb.
  { assert (pos = 0%nat) as -> by lia. cbn [heapq.siftdown_loop].
    intros i y p Hi Hy Hp. rewrite lookup_insert_lt in Hy, Hp by exact Hpos.
    apply (Ha i y p); auto. lia. }
  cbn [heapq.siftdown_loop].
  assert (Hstop :
            (forall parent, (0 < pos)%nat ->
               with_item heap pos x (Nat.div2 (pos - 1)) = Some parent ->
               key parent <= key x) ->
            heap_ordered key (<[pos := x]> heap)).
  { intros Hle i y p Hi Hy Hp.
    rewrite lookup_insert_lt in Hy, Hp by exact Hpos.
    destruct (decide (i = pos)) as [->|Hne]; [|apply (Ha i y p); auto].
    assert (y = x) as ->.
    { unfold with_item in Hy. rewrite decide_True in Hy by reflexivity.
      congruence. }
    exact (Hle p Hi Hp). }
  destruct (decide (0 < pos)%nat) as [Hpos0|Hpos0];
    [|apply Hstop; intros; lia].
  pose proof (div2_pred_lt pos Hpos0) as Hpp.
  set (pp := Nat.div2 (pos - 1)) in *.
  destruct (heap !! pp) as [parent|] eqn:Eparent;
    [|apply lookup_ge_None in Eparent; lia].
  destruct (key x <? key parent) eqn:Elt.
  2:{ apply Z.ltb_ge in Elt. apply Hstop. intros q _ Hq.
      unfold with_item in Hq. fold pp in Hq.
      rewrite decide_False in Hq by lia.
      assert (q = parent) by congruence. subst q. exact Elt. }
  apply Z.ltb_lt in Elt.
  assert (HV : forall j,
            with_item (<[pos := parent]> heap) pp x j
            = if decide (j = pp) then Some x
              else if decide (j = pos) then Some parent else heap !! j).
  { intros j. unfold with_item at 1. destruct (decide (j = pp)); [reflexivity|].
    rewrite lookup_insert_lt by exact Hpos. reflexivity. }
  assert (HVold : forall j, j <> pos -> with_item heap pos x j = heap !! j).
  { intros j Hj. unfold with_item. rewrite decide_False by exact Hj.
    reflexivity. }
  apply IH; [lia|rewrite length_insert; lia| |].
  - intros i y p Hi Hne Hy Hp. rewrite HV in Hy, Hp.
    rewrite decide_False in Hy by exact Hne.
    destruct (decide (i = pos)) as [->|Hipos].
    + fold pp in Hp. rewrite decide_True in Hp by reflexivity.
      assert (y = parent) by congruence. assert (p = x) by congruence.
      subst. lia.
    + pose proof (div2_pred_lt i Hi) as Hpari.
      destruct (decide (Nat.div2 (i - 1) = pp)) as [Epp|Epp].
      * assert (p = x) by congruence. subst p.
        pose proof (Ha i y parent Hi Hipos) as H.
        rewrite HVold in H by exact Hipos. rewrite Epp in H.
        rewrite HVold in H by lia. specialize (H Hy Eparent). lia.
      * destruct (decide (Nat.div2 (i - 1) = pos)) as [Epos|Epos].
        -- assert (p = parent) by congruence. subst p.
           apply (Hb i y parent Hpos0 Hi Epos).
           ++ rewrite HVold by exact Hipos. exact Hy.
           ++ fold pp. rewrite HVold by lia. exact Eparent.
        -- apply (Ha i y p Hi Hipos).
           ++ rewrite HVold by exact Hipos. exact Hy.
           ++ rewrite HVold by exact Epos. exact Hp.
  - intros c y g Hpp0 Hc Hparc Hy Hg. rewrite HV in Hy, Hg.
    pose proof (div2_pred_lt pp Hpp0) as Hppp.
    rewrite decide_False in Hg by lia. rewrite decide_False in Hg by lia.
    assert (Hgp : key g <= key parent).
    { apply (Ha pp parent g Hpp0); [lia| |].
      - rewrite HVold by lia. exact Eparent.
      - rewrite HVold by lia. exact Hg. }
    assert (c <> pp) by (pose proof (div2_pred_lt c Hc); lia).
    rewrite decide_False in Hy by assumption.
    destruct (decide (c = pos)) as [->|Hcpos].
    + assert (y = parent) by congruence. subst. exact Hgp.
    + assert (key parent <= key y); [|lia].
      apply (Ha c y parent Hc Hcpos).
      * rewrite HVold by exact Hcpos. exact Hy.
      * rewrite Hparc. rewrite HVold by lia. exact Eparent.
Qed.

End HeapOrder.

Section HeapOrderPop.

Context {A : Type} (key : A -> Z).

Local Abbreviation lt := (fun a b : A => key a <? key b).

Lemma heappush_ordered (heap : list A) (x : A) :
  heap_ordered key heap -> heap_ordered key (heapq.heappush lt heap x).
Proof.
  intros Hord. unfold heapq.heappush, heapq.siftdown.
  rewrite length_app. cbn [length].
  replace (length heap + 1 - 1)%nat with (length heap) by lia.
  rewrite list_lookup_middle by reflexivity.
  apply siftdown_loop_ordered; [lia|rewrite length_app; cbn; lia| |].
  - intros i y p Hi Hne Hy Hp. unfold with_item in Hy, Hp.
    pose proof (div2_pred_lt i Hi) as Hpar.
    rewrite decide_False in Hy by exact Hne.
    assert (Hlen : (i < length heap)%nat).
    { apply lookup_lt_Some in Hy. rewrite length_app in Hy. cbn in Hy. lia. }
    rewrite decide_False in Hp by lia.
    rewrite lookup_app_l in Hy, Hp by lia. apply (Hord i y p Hi Hy Hp).
  - intros c y g _ Hc Hpar Hy _. exfalso.
    destruct (par_child c _ Hc Hpar) as [-> | ->]; unfold with_item in Hy;
      rewrite decide_False in Hy by lia;
      apply lookup_lt_Some in Hy; rewrite length_app in Hy; cbn in Hy; lia.
Qed.

(** [_siftup] towards the leaves: the free slot ends on a leaf, and
    every edge of the tree that does not touch it is in order. *)
Lemma siftup_loop_ordered (fuel : nat) :
  forall (heap : list A) (pos : nat) (heap' : list A) (pos' : nat),
    (length heap - pos <= fuel)%nat -> (pos < length heap)%nat ->
    (forall (i : nat) y p,
       (0 < i)%nat -> i <> pos -> Nat.div2 (i - 1) <> pos ->
       heap !! i = Some y -> heap !! Nat.div2 (i - 1) = Some p ->
       key p <= key y) ->
    (forall (c : nat) y g,
       (0 < pos)%nat -> (0 < c)%nat -> Nat.div2 (c - 1) = pos ->
       heap !! c = Some y -> heap !! Nat.div2 (pos - 1) = Some g ->
       key g <= key y) ->
    heapq.siftup_loop lt fuel heap pos = (heap', pos') ->
    length heap' = length heap /\ (pos' < length heap')%nat /\
    (length heap' <= 2 * pos' + 1)%nat /\
    forall (i : nat) y p,
      (0 < i)%nat -> i <> pos' -> Nat.div2 (i - 1) <> pos' ->
      heap' !! i = Some y -> heap' !! Nat.div2 (i - 1) = Some p ->
      key p <= key y.
Proof.
  induction fuel as [|fuel IH]; intros heap pos heap' pos' Hfuel Hpos Ka Kb;
    [lia|].
  cbn [heapq.siftup_loop].
  destruct (decide (2 * pos + 1 < length heap)%nat) as [Hc|Hc];
    [|intros [= <- <-]; repeat split; [exact Hpos|lia|exact Ka]].
  set (rnl := match heap !! (2 * pos + 1)%nat,
                    heap !! (2 * pos + 1 + 1)%nat with
              | Some l, Some r => negb (key l <? key r)
              | _, _ => false
              end).
  set (c := if bool_decide (2 * pos + 1 + 1 < length heap)%nat && rnl
            then (2 * pos + 1 + 1)%nat else (2 * pos + 1)%nat).
  assert (Hcrange : (pos < c < length heap)%nat).
  { subst c.
    destruct (bool_decide (2 * pos + 1 + 1 < length heap)%nat) eqn:Eb;
      cbn [andb]; [|lia].
    apply bool_decide_eq_true_1 in Eb. destruct rnl; lia. }
  assert (Hcpar : Nat.div2 (c - 1) = pos).
  { subst c. destruct (_ && _).
    - replace (2 * pos + 1 + 1 - 1)%nat with (S (2 * pos)) by lia.
      apply Nat.div2_succ_double.
    - replace (2 * pos + 1 - 1)%nat with (2 * pos)%nat by lia.
      apply Nat.div2_double. }
  destruct (heap !! c) as [cv|] eqn:Ecv;
    [|apply lookup_ge_None in Ecv; lia].
  assert (Hchoice : forall (i : nat) y,
            (0 < i)%nat -> Nat.div2 (i - 1) = pos -> i <> c ->
            heap !! i = Some y -> key cv <= key y).
  { intros i y Hi Hpar Hne Hy.
    destruct (lookup_lt_is_Some_2 heap (2 * pos + 1)) as [l Hl]; [lia|].
    subst c rnl. rewrite Hl in *.
    destruct (par_child i pos Hi Hpar) as [-> | ->].
    - destruct (bool_decide (2 * pos + 1 + 1 < length heap)%nat) eqn:Eb;
        cbn [andb] in *; [|contradiction].
      replace (2 * pos + 2)%nat with (2 * pos + 1 + 1)%nat in * by lia.
      destruct (heap !! (2 * pos + 1 + 1)%nat) as [r|] eqn:Er;
        [|contradiction].
      destruct (negb (key l <? key r)) eqn:En; [|contradiction].
      apply negb_true_iff, Z.ltb_ge in En.
      assert (y = l) by congruence. assert (cv = r) by congruence.
      subst. exact En.
    - replace (2 * pos + 2)%nat with (2 * pos + 1 + 1)%nat in * by lia.
      rewrite Hy in *.
      rewrite (bool_decide_eq_true_2 (2 * pos + 1 + 1 < length heap)%nat) in *
        by (apply lookup_lt_Some in Hy; exact Hy).
      cbn [andb] in *.
      destruct (negb (key l <? key y)) eqn:En; [contradiction|].
      apply negb_false_iff, Z.ltb_lt in En.
      assert (cv = l) by congruence. subst. lia. }
  intros Hloop.
  apply IH in Hloop as (Hlen & Hpos' & Hleaf & Ka').
  - rewrite length_insert in Hlen. auto.
  - rewrite length_insert. lia.
  - rewrite length_insert. lia.
  - intros i y p Hi Hne Hparne Hy Hp.
    rewrite lookup_insert_lt in Hy, Hp by exact Hpos.
    unfold with_item in Hy, Hp.
    destruct (decide (i = pos)) as [->|Hipos].
    + assert (y = cv) by congruence. subst y.
      pose proof (div2_pred_lt pos Hi).
      rewrite decide_False in Hp by lia.
      apply (Kb c cv p Hi ltac:(lia) Hcpar Ecv Hp).
    + destruct (decide (Nat.div2 (i - 1) = pos)) as [Epar|Epar].
      * assert (p = cv) by congruence. subst p.
        apply (Hchoice i y Hi Epar Hne Hy).
      * apply (Ka i y p Hi Hipos Epar Hy Hp).
  - intros g y q _ Hg Hparg Hy Hq.
    rewrite lookup_insert_lt in Hy, Hq by exact Hpos.
    unfold with_item in Hy, Hq. rewrite Hcpar in Hq.
    rewrite decide_True in Hq by reflexivity.
    assert (q = cv) by congruence. subst q.
    pose proof (div2_pred_lt g Hg).
    rewrite decide_False in Hy by lia.
    apply (Ka g y cv Hg ltac:(lia) ltac:(lia) Hy). rewrite Hparg. exact Ecv.
Qed.

Lemma siftup_root_ordered (heap : list A) :
  (forall (i : nat) y p,
     (0 < i)%nat -> Nat.div2 (i - 1) <> 0%nat ->
     heap !! i = Some y -> heap !! Nat.div2 (i - 1) = Some p ->
     key p <= key y) ->
  heap_ordered key (heapq.siftup lt heap 0).
Proof.
  intros Ka. unfold heapq.siftup.
  destruct (heap !! 0%nat) as [newitem|] eqn:E0.
  2:{ apply lookup_ge_None in E0. destruct heap; [|cbn in E0; lia].
      intros i y p _ Hy. discriminate. }
  destruct (heapq.siftup_loop lt (length heap) heap 0) as [heap' pos'] eqn:El.
  apply siftup_loop_ordered in El as (Hlen & Hpos' & Hleaf & Ka');
    [|lia|eapply lookup_lt_Some; exact E0| |intros; lia].
  2:{ intros i y p Hi _ Hpar. apply Ka; assumption. }
  unfold heapq.siftdown.
  rewrite list_lookup_insert_eq by exact Hpos'.
  apply siftdown_loop_ordered; [lia|rewrite length_insert; exact Hpos'| |].
  - intros i y p Hi Hne Hy Hp. unfold with_item in Hy, Hp.
    rewrite decide_False in Hy by exact Hne.
    rewrite list_lookup_insert_ne in Hy by auto.
    destruct (decide (Nat.div2 (i - 1) = pos')) as [Epar|Epar].
    + exfalso. apply lookup_lt_Some in Hy.
      destruct (par_child i pos' Hi Epar); lia.
    + rewrite list_lookup_insert_ne in Hp by auto.
      apply (Ka' i y p Hi Hne Epar Hy Hp).
  - intros c y g _ Hc Hpar Hy _. exfalso. unfold with_item in Hy.
    pose proof (div2_pred_lt c Hc).
    rewrite decide_False in Hy by lia.
    rewrite list_lookup_insert_ne in Hy by lia.
    apply lookup_lt_Some in Hy.
    destruct (par_child c pos' Hc Hpar); lia.
Qed.

(** Popping a heap returns a least item and leaves a heap. *)
Lemma heappop_ordered (heap : list A) (x : A) (rest : list A) :
  heap_ordered key heap -> heapq.heappop lt heap = Ok (x, rest) ->
  heap_ordered key rest /\ forall y, y ∈ heap -> key x <= key y.
Proof.
  intros Hord. unfold heapq.heappop.
  destruct (last heap) as [lastelt|] eqn:El; [|discriminate].
  apply last_removelast in El.
  destruct (removelast heap) as [|returnitem tl] eqn:Er.
  - intros [= <- <-]. split; [intros i y p _ Hy; discriminate|].
    rewrite El. intros y Hy. apply list_elem_of_singleton in Hy. subst. lia.
  - intros [= <- <-]. split.
    + apply siftup_root_ordered. intros i y p Hi Hpar Hy Hp.
      cbn [insert list_insert] in Hy, Hp.
      pose proof (div2_pred_lt i Hi) as Hlt.
      apply (Hord i y p Hi); rewrite El.
      * apply lookup_app_l_Some. destruct i; [lia|exact Hy].
      * apply lookup_app_l_Some.
        destruct (Nat.div2 (i - 1)); [contradiction|exact Hp].
    + intros y Hy. apply list_elem_of_lookup in Hy as [i Hy].
      apply (heap_root_least key heap returnitem Hord) with (i := i);
        [|exact Hy].
      rewrite El. reflexivity.
Qed.

End HeapOrderPop.

(** ** The search on a walled grid *)

Section Walled.

Variables (map : Map_Obj) (start goal : pos) (heuristic_mode : Z).
Hypothesis map_rectangular : Np.rectangular (int_map map).
Hypothesis map_walled : Grid.walled map.
Hypothesis start_inside : Grid.inside map start.
Hypothesis start_passable : Grid.passable map start.

(** Inside walls every cell of a returned path is a free cell of the
    grid. *)
Lemma a_star_walled_path fuel path :
  a_star fuel map start goal heuristic_mode = Path path ->
  Forall (fun p => Grid.inside map p /\ Grid.passable map p) path.
Proof.
  intros H.
  pose proof (a_star_loop_inv map (Node.new 1 goal None) heuristic_mode
    (fun n => Forall (fun p => Grid.inside map p /\ Grid.passable map p)
                (ancestors n))) as Hinv.
  specialize (Hinv ltac:(cbv beta; intros n n' Hp Hq;
                         rewrite (ancestors_unfold n), (ancestors_unfold n'),
                           Hp, Hq; auto)).
  assert (Hchild : forall c n : Node.t,
    Forall (fun p => Grid.inside map p /\ Grid.passable map p) (ancestors c) ->
    Node.position c <> Node.position (Node.new 1 goal None) ->
    child_of map c n ->
    Forall (fun p => Grid.inside map p /\ Grid.passable map p) (ancestors n)).
  { intros c n Hc _ (Hpar & d & Hd & Hpos & Hpass).
    rewrite (ancestors_unfold n), Hpar. constructor; [|exact Hc].
    rewrite (ancestors_unfold c) in Hc.
    apply Forall_cons in Hc as [[Hin Hp] _].
    split; [|exact Hpass]. rewrite Hpos.
    apply walled_neighbour; assumption. }
  specialize (Hinv Hchild fuel (st_open (initial_state start)) [] 2%nat).
  rewrite a_star_initial in H. cbn [st_closed st_next initial_state] in H.
  rewrite H in Hinv. destruct Hinv as (n & Hn & _ & ->).
  { unfold initial_state. rewrite heappush_empty. cbn [st_open].
    constructor; [|constructor]. cbn.
    constructor; [split; assumption|constructor]. }
  rewrite path_to_goal_ancestors, reverse_Permutation. exact Hn.
Qed.

Lemma a_star_walled_decides :
  exists fuel,
    forall fuel', (fuel <= fuel')%nat ->
      (a_star fuel' map start goal heuristic_mode = NoPath /\
       forall path, ~ walkable map start goal path) \/
      (exists path,
         a_star fuel' map start goal heuristic_mode = Path path /\
         walkable map start goal path /\ Forall (Grid.inside map) path) \/
      (a_star fuel' map start goal heuristic_mode = Error OverflowError /\
       ~ Grid.estimates_fit map goal heuristic_mode).
Proof.
  destruct (a_star_terminates map start goal heuristic_mode) as [fuel Hfuel].
  exists fuel. intros fuel' Hle.
  rewrite (a_star_more_fuel _ _ _ _ fuel fuel' Hfuel Hle).
  destruct (a_star fuel map start goal heuristic_mode) as [path| |e|] eqn:E.
  - right. left. exists path. split; [reflexivity|].
    pose proof (a_star_walled_path fuel path E) as Hcells.
    apply a_star_path_chained in E as (n & [Hc Hl] & Hpos & ->).
    split; [|eapply Forall_impl; [exact Hcells|]; cbn; tauto].
    repeat split.
    + rewrite head_reverse. exact Hl.
    + rewrite last_reverse, ancestors_unfold, Hpos. reflexivity.
    + apply contiguous_reverse. exact Hc.
    + eapply Forall_impl; [exact Hcells|]. cbn. tauto.
  - left. split; [reflexivity|]. intros path.
    eapply a_star_none_unreachable. exact E.
  - right. right.
    destruct (a_star_walled_error map start goal heuristic_mode
                start_passable map_rectangular map_walled start_inside
                fuel e E) as [-> Hfit].
    split; [reflexivity|exact Hfit].
  - congruence.
Qed.

End Walled.

(** X18. On a rectangular grid whose outermost rows and columns are
    obstacles, with the start on a free cell of the grid, the search
    never raises [IndexError] and decides reachability: it returns
    [None], and then no walk leads to the goal, or it returns a path
    that is such a walk, from the start to the goal over free cells
    inside the grid.  The one other outcome is [OverflowError], which
    takes a cell of the grid whose estimate to the goal is no [int64]
    value. *)
Theorem a_star_walled_grid (map : Map_Obj) (start goal : pos)
    (heuristic_mode : Z) :
  Np.rectangular (int_map map) -> Grid.walled map ->
  Grid.inside map start -> Grid.passable map start ->
  exists fuel,
    forall fuel', (fuel <= fuel')%nat ->
      (a_star fuel' map start goal heuristic_mode = NoPath /\
       forall path, ~ walkable map start goal path) \/
      (exists path,
         a_star fuel' map start goal heuristic_mode = Path path /\
         walkable map start goal path /\ Forall (Grid.inside map) path) \/
      (a_star fuel' map start goal heuristic_mode = Error OverflowError /\
       ~ Grid.estimates_fit map goal heuristic_mode).
Proof. apply a_star_walled_decides. Qed.

(** The room, with its walls. *)
Lemma room_walled : Grid.walled Inputs.room_map.
Proof.
  intros [r c]. unfold Grid.inside, Grid.obstacle. eval_shape.
  intros [Hr Hc] Hb.
  assert (r = 0 \/ r = 1 \/ r = 2 \/ r = 3) as Hrs by lia.
  assert (c = 0 \/ c = 1 \/ c = 2 \/ c = 3) as Hcs by lia.
  destruct Hrs as [-> | [-> | [-> | ->]]];
    destruct Hcs as [-> | [-> | [-> | ->]]];
    try (vm_compute; reflexivity); exfalso; lia.
Defined.

Lemma a_star_walled_grid_witness :
  exists fuel,
    forall fuel', (fuel <= fuel')%nat ->
      (a_star fuel' Inputs.room_map (1, 1) (2, 2) 1 = NoPath /\
       forall path, ~ walkable Inputs.room_map (1, 1) (2, 2) path) \/
      (exists path,
         a_star fuel' Inputs.room_map (1, 1) (2, 2) 1 = Path path /\
         walkable Inputs.room_map (1, 1) (2, 2) path /\
         Forall (Grid.inside Inputs.room_map) path).
Proof.
  destruct (a_star_walled_grid Inputs.room_map (1, 1) (2, 2) 1)
    as [fuel H].
  - repeat constructor.
  - exact room_walled.
  - unfold Grid.inside. eval_shape. lia.
  - exists 1. split; [vm_compute; reflexivity|discriminate].
  - exists fuel. intros fuel' Hle.
    destruct (H fuel' Hle) as [Hnone|[Hpath|[_ Hfit]]];
      [left; exact Hnone|right; exact Hpath|].
    exfalso. apply Hfit. apply heuristic_fits.
    + unfold Grid.inside. eval_shape. lia.
    + eval_shape. lia.
    + eval_shape. lia.
Defined.

(** ** The costs in the nodes, and the order of the open list *)

Lemma push_children_ordered map children cp current_node goal_node
    heuristic_mode closed_list :
  forall open_list open_list',
    heap_ordered Node.total open_list ->
    push_children map children cp current_node goal_node heuristic_mode
      closed_list open_list = Ok open_list' ->
    heap_ordered Node.total open_list'.
Proof.
  induction children as [|child children IH];
    intros open_list open_list' Hord; cbn [push_children].
  { intros [= <-]. exact Hord. }
  destruct (bool_decide _); [apply IH; assumption|].
  destruct cp as [cp|]; [|discriminate].
  destruct (add_costs _ _ _ _ _ _) as [child'|]; [|discriminate].
  destruct (negb _); apply IH; try assumption.
  apply (heappush_ordered Node.total). exact Hord.
Qed.

Lemma reachable_ordered map start goal heuristic_mode st :
  reachable map start goal heuristic_mode st ->
  heap_ordered Node.total (st_open st).
Proof.
  induction 1 as [|st st' _ IH Hstep].
  - unfold initial_state. cbn [st_open].
    apply (heappush_ordered Node.total). intros i y p _ Hy. discriminate.
  - apply a_star_step_Continue in Hstep
      as (cur & open' & children & cp & Hpop & _ & _ & _ & Hpush).
    apply (heappop_ordered Node.total) in Hpop as [Hrest _]; [|exact IH].
    exact (push_children_ordered _ _ _ _ _ _ _ _ _ Hrest Hpush).
Qed.

(** X19. In every iteration the open list is a heap for the total
    costs, and the node the iteration pops and expands has the least
    total cost of all open nodes. *)
Theorem a_star_expands_least_total (map : Map_Obj) (start goal : pos)
    (heuristic_mode : Z) (st : search_state) :
  reachable map start goal heuristic_mode st ->
  heap_ordered Node.total (st_open st) /\
  forall cur rest,
    heapq.heappop Node.lt (st_open st) = Ok (cur, rest) ->
    heap_ordered Node.total rest /\
    forall n, n ∈ st_open st -> Node.total cur <= Node.total n.
Proof.
  intros Hreach. pose proof (reachable_ordered _ _ _ _ _ Hreach) as Hord.
  split; [exact Hord|]. intros cur rest Hpop.
  apply (heappop_ordered Node.total _ _ _ Hord Hpop).
Qed.

Lemma room_second_state :
  exists st,
    a_star_step Inputs.room_map (Node.new 1 (2, 2) None) 1 (initial_state (1, 1))
    = Continue st /\
    List.map Node.position (st_open st) = [(2, 1); (1, 2)].
Proof. eexists. split; vm_compute; reflexivity. Defined.

Lemma a_star_expands_least_total_witness :
  exists st,
    reachable Inputs.room_map (1, 1) (2, 2) 1 st /\
    List.map Node.position (st_open st) = [(2, 1); (1, 2)] /\
    heap_ordered Node.total (st_open st).
Proof.
  destruct room_second_state as (st & Hstep & Hopen).
  assert (Hreach : reachable Inputs.room_map (1, 1) (2, 2) 1 st).
  { eapply reachable_step; [apply reachable_initial|exact Hstep]. }
  exists st. split; [exact Hreach|]. split; [exact Hopen|].
  apply (a_star_expands_least_total Inputs.room_map (1, 1) (2, 2) 1 st Hreach).
Defined.

Lemma reachable_costs map start goal heuristic_mode st :
  reachable map start goal heuristic_mode st ->
  Forall (costs_ok map (Node.new 1 goal None) heuristic_mode) (st_open st).
Proof.
  induction 1 as [|st st' _ IH Hstep].
  - unfold initial_state. rewrite heappush_empty. cbn [st_open].
    constructor; [|constructor]. unfold costs_ok. cbn. auto.
  - apply a_star_step_Continue in Hstep
      as (cur & open' & children & cp & Hpop & _ & _ & Hgen & Hpush).
    apply heappop_perm in Hpop. rewrite Hpop in IH.
    apply Forall_cons in IH as [_ IH].
    apply gen_children_spec in Hgen as ((new & -> & _ & Hnew) & _ & Hcp).
    unfold directions in Hcp. cbn [last] in Hcp. subst cp.
    eapply push_children_Forall; [exact IH| |exact Hpush].
    intros child child' Hin Hadd. rewrite Forall_forall in Hnew.
    destruct (Hnew child Hin) as (Hpar & _).
    unfold add_costs, Np.to_int64 in Hadd.
    destruct (get_cell_value map _) as [v|] eqn:Ev; [|discriminate].
    cbn [Node.heuristic Node.set_heuristic] in Hadd.
    destruct (Np.int64 _) eqn:Eh; [|discriminate].
    injection Hadd as <-. unfold costs_ok. cbn. rewrite Hpar.
    exists v. split; [exact Ev|]. split; [reflexivity|].
    split; [apply heuristic_position; reflexivity|].
    split; [exact Eh|reflexivity].
Qed.

(** Within the bounds of [int64] nothing wraps. *)
Lemma wrap64_int64 (v : Z) : Np.int64 v = true -> Np.wrap64 v = v.
Proof.
  unfold Np.int64, Np.wrap64. intros H.
  apply andb_prop in H as [Hl Hu]. rewrite Z.leb_le in Hl.
  rewrite Z.ltb_lt in Hu.
  change (2 ^ 63) with 9223372036854775808 in *.
  change (2 ^ 64) with 18446744073709551616.
  rewrite Z.mod_small by lia. lia.
Qed.

(** X20. The costs the search stores.  In every iteration each open
    node other than the start node holds, as actual cost, the [int64]
    sum of the actual cost of its parent and the cost of the cell left
    of the parent (the last neighbour the generation loop of the parent
    read), not the cost of its own cell; the sum wraps around at
    [2^63], and is the plain sum when that is an [int64] value.  Its
    heuristic cost is the estimate from its own position to the goal,
    an [int64] value, and its total cost is the [int64] sum of the
    two.  The start node holds zeros. *)
Theorem a_star_stored_costs (map : Map_Obj) (start goal : pos)
    (heuristic_mode : Z) (st : search_state) (n : Node.t) :
  reachable map start goal heuristic_mode st -> n ∈ st_open st ->
  match Node.parent n with
  | None => Node.actual n = 0 /\ Node.heuristic n = 0 /\ Node.total n = 0
  | Some par =>
      exists v,
        get_cell_value map
          (fst (Node.position par), snd (Node.position par) - 1) = Ok v /\
        Node.actual n = Np.wrap64 (Node.actual par + v) /\
        (Np.int64 (Node.actual par + v) = true ->
         Node.actual n = Node.actual par + v) /\
        Node.heuristic n = heuristic n (Node.new 1 goal None) heuristic_mode /\
        0 <= Node.heuristic n < 2 ^ 63 /\
        Node.total n = Np.wrap64 (Node.actual n + Node.heuristic n) /\
        (Np.int64 (Node.actual n + Node.heuristic n) = true ->
         Node.total n = Node.actual n + Node.heuristic n)
  end.
Proof.
  intros Hreach Hn. apply reachable_costs in Hreach.
  rewrite Forall_forall in Hreach. specialize (Hreach n Hn).
  unfold costs_ok, charged_cell, Grid.towards in Hreach. cbn [fst snd] in Hreach.
  destruct (Node.parent n) as [par|]; [|exact Hreach].
  destruct Hreach as (v & Hv & Ha & Hh & Hfit & Ht). exists v.
  replace (snd (Node.position par) - 1) with (snd (Node.position par) + -1)
    by lia.
  replace (fst (Node.position par)) with (fst (Node.position par) + 0) at 1
    by lia.
  unfold Np.add64 in Ha, Ht.
  split; [exact Hv|]. split; [exact Ha|].
  split; [intros Hs; rewrite Ha; apply wrap64_int64, Hs|].
  split; [exact Hh|].
  split.
  - split; [rewrite Hh; apply heuristic_nonneg|].
    unfold Np.int64 in Hfit. apply andb_prop in Hfit as [_ Hu].
    apply Z.ltb_lt. exact Hu.
  - split; [exact Ht|]. intros Hs. rewrite Ht. apply wrap64_int64, Hs.
Qed.

Lemma a_star_stored_costs_witness :
  exists st n,
    reachable Inputs.room_map (1, 1) (2, 2) 1 st /\ n ∈ st_open st /\
    Node.position n = (2, 1) /\ Node.actual n = -1 /\
    exists v,
      get_cell_value Inputs.room_map (1, 0) = Ok v /\
      Node.actual n = Np.wrap64 (0 + v).
Proof.
  destruct room_second_state as (st & Hstep & Hopen).
  assert (Hreach : reachable Inputs.room_map (1, 1) (2, 2) 1 st).
  { eapply reachable_step; [apply reachable_initial|exact Hstep]. }
  destruct (st_open st) as [|n rest] eqn:Eo; [discriminate|].
  exists st, n. split; [exact Hreach|].
  assert (Hn : n ∈ st_open st) by (rewrite Eo; left).
  split; [exact Hn|].
  pose proof (a_star_stored_costs Inputs.room_map (1, 1) (2, 2) 1 st n
                Hreach Hn) as Hc.
  vm_compute in Hstep. injection Hstep as <-. cbn in Eo.
  injection Eo as <- _. cbn in Hc. cbn.
  split; [reflexivity|]. split; [reflexivity|].
  destruct Hc as (v & Hv & Ha & _). exists v. auto.
Defined.

(** ** The constructor as a whole *)

Lemma data_str_of_shape (data : list (list Z)) :
  Np.rectangular data ->
  Np.rectangular (data_str_of data) /\
  Np.shape0 (data_str_of data) = Np.shape0 data /\
  Np.shape1 (data_str_of data) = Np.shape1 data.
Proof.
  intros Hr. unfold data_str_of.
  assert (H1 : Np.shape1 (List.map (List.map symbol_of) data) = Np.shape1 data).
  { destruct data; [reflexivity|]. cbn. apply length_map. }
  split; [|split; [apply length_map|exact H1]].
  unfold Np.rectangular in *. rewrite H1.
  apply Forall_forall. intros row Hrow.
  apply list_elem_of_In, in_map_iff in Hrow as (r & <- & Hin).
  rewrite length_map. rewrite Forall_forall in Hr.
  apply Hr, list_elem_of_In, Hin.
Qed.

(** X21. [Map_Obj(task)] succeeds whenever the file of the task holds a
    rectangular grid that contains the start, the goal and the end goal
    of the task; the map it builds satisfies the invariant, holds the
    grid of the file, and has its goal, end goal and counter as the
    task sets them. *)
Theorem new_Map_Obj_valid (csv : string -> list (list Z)) (task : Z)
    (start goal : pos) (end_goal : option pos) (path : string) :
  fill_critical_positions task = Ok (start, goal, end_goal, path) ->
  Np.rectangular (csv path) ->
  (forall p, p = start \/ p = goal \/ end_goal = Some p ->
     0 <= fst p < Z.of_nat (Np.shape0 (csv path)) /\
     0 <= snd p < Z.of_nat (Np.shape1 (csv path))) ->
  exists m,
    new_Map_Obj csv task = Ok m /\ Map_inv m /\ int_map m = csv path /\
    start_pos m = start /\ goal_pos m = goal /\ end_goal_pos m = end_goal /\
    tick_counter m = 0.
Proof.
  intros Hfill Hrect Hin.
  destruct (data_str_of_shape (csv path) Hrect) as (Hsr & Hs0 & Hs1).
  destruct (init_inv start goal end_goal path (csv path)
              (data_str_of (csv path))) as (m & Hm & Hinv & Hint & Hc & Hg & He);
    try assumption.
  - apply Hin. auto.
  - apply Hin. auto.
  - intros e ->. apply Hin. auto.
  - exists m. unfold new_Map_Obj, read_map. rewrite Hfill, Hm. cbn [fst].
    split; [reflexivity|]. split; [exact Hinv|]. split; [exact Hint|].
    assert (Hstart : start_pos m = start).
    { revert Hm. unfold init, set_cell_value, bind, get_self, lift, modify,
        get_cell_value. cbn.
      destruct (Np.getitem (csv path) (fst goal) (snd goal)); cbn;
        [|discriminate].
      destruct (Np.setitem (data_str_of (csv path)) (fst start) (snd start)
                  " S "); cbn; [|discriminate].
      destruct (Np.setitem _ (fst goal) (snd goal) " G "); cbn;
        [|discriminate].
      intros [= <-]. reflexivity. }
    auto.
Qed.

Lemma new_Map_Obj_valid_witness :
  exists m,
    new_Map_Obj (fun _ => replicate 41 (replicate 33 1)) 1 = Ok m /\
    Map_inv m /\ tick_counter m = 0.
Proof.
  destruct (new_Map_Obj_valid (fun _ => replicate 41 (replicate 33 1)) 1
              (27, 18) (40, 32) (Some (40, 32)) "Samfundet_map_1.csv")
    as (m & Hm & Hinv & _ & _ & _ & _ & Hc).
  - reflexivity.
  - apply Forall_forall. intros row Hrow.
    apply elem_of_replicate in Hrow as [-> _]. reflexivity.
  - intros p [-> | [-> | [= <-]]]; cbn; lia.
  - exists m. auto.
Defined.
